(** * ttt.go: a Monte-Carlo tree search engine and its tic-tac-toe instance

    The development follows the source file top to bottom: the [Node] tree
    with its parent back-pointers, the selection policy ([UCTValue],
    [Select]), [Expand], [Backpropagate], the engine loop [MCTS], and then
    the tic-tac-toe [GameState] with the part of [main] that picks the
    engine's move.  The claims come first; the further properties that
    follow them add [PrintBoard] and the whole of [main], the rules of the
    game as the code has them, and the shape and the statistics of the tree
    that [MCTS] builds.  Between the definitions and the properties of the
    engine stand the facts about rounding to binary64 on which the
    comparison of UCT values rests.

    Representation choices.
    - Go's [float64] is Rocq's primitive binary64 [float]; [+], [/], [*] and
      [math.Sqrt] are the IEEE operations of [PrimFloat], evaluated one by
      one (no fused multiply-add).  [math.Log] lies outside the repository:
      the engine takes it as a parameter.
    - Go's [int] is [Z] with the 64-bit two's complement wrap-around written
      out ([GoInt.wrap]).
    - A [*Node] is the index of the node in an arena, in allocation order
      ([None] for [nil]).  The program only dereferences pointers and never
      compares or prints them, so the allocation index identifies an object
      as well as its machine address does.
    - A run-time panic (nil dereference, index out of range) and unbounded
      recursion are results of their own, [Panic] and [Diverges]. *)

From Stdlib Require Import ZArith Lia Floats.
From Stdlib Require String.
From stdpp Require Import base list option.

(** ** Results of Go calls *)

Inductive result (A : Type) : Type :=
  | Ok (a : A)
  | Panic
  | Diverges.
Arguments Ok {A} a.
Arguments Panic {A}.
Arguments Diverges {A}.

#[global] Instance result_ret : MRet result := fun _ a => Ok a.
#[global] Instance result_bind : MBind result := fun _ _ f m =>
  match m with
  | Ok a => f a
  | Panic => Panic
  | Diverges => Diverges
  end.

(** ** Go's [int] *)

Module GoInt.
Definition wrap (z : Z) : Z := ((z + 2 ^ 63) mod 2 ^ 64 - 2 ^ 63)%Z.
Definition add (a b : Z) : Z := wrap (a + b).
Definition sub (a b : Z) : Z := wrap (a - b).
Definition MaxInt : Z := (2 ^ 63 - 1)%Z.
Definition MinInt : Z := (- 2 ^ 63)%Z.
End GoInt.

(** ** Go's [float64] and the functions of package [math] that the engine calls *)

Module math.
(** [math.Inf(sign)]: positive infinity if [sign >= 0], negative otherwise. *)
Definition Inf (sign : Z) : float :=
  if (0 <=? sign)%Z then infinity else neg_infinity.

Definition Sqrt (x : float) : float := PrimFloat.sqrt x.

(** The conversion [float64(n)] of an [int], rounding to nearest even. *)
Definition float64 (n : Z) : float :=
  SF2Prim (binary_normalize prec emax n 0%Z false).

(** Go's [x > y] on [float64]: false as soon as one side is NaN. *)
Definition gt (x y : float) : bool := PrimFloat.ltb y x.
Definition le (x y : float) : bool := PrimFloat.leb x y.

(** [math.IsNaN(f)] and [math.IsInf(f, sign)]. *)
Definition IsNaN (f : float) : bool := negb (PrimFloat.eqb f f).
Definition IsInf (f : float) (sign : Z) : bool :=
  ((0 <=? sign)%Z && PrimFloat.eqb f infinity)
  || ((sign <=? 0)%Z && PrimFloat.eqb f neg_infinity).

(** The exploration constant [1.41], as the binary64 nearest to it. *)
Definition C : float := 0x1.68f5c28f5c28fp+0%float.
End math.

(** ** The [GameState] interface *)

Class GameState (S Action : Type) : Type := {
  GetPossibleActions : S -> list Action;
  PerformAction : S -> Action -> result S;
  IsTerminal : S -> bool;
  GetReward : S -> float
}.

(** ** The search tree *)

(** A pointer to a node: the index of the node in the arena. *)
Abbreviation addr := nat.

Record Node (S : Type) : Type := mkNode {
  state : S;
  parent : option addr;
  children : list addr;
  visits : Z;
  totalReward : float
}.
Arguments mkNode {S} _ _ _ _ _.
Arguments state {S} _.
Arguments parent {S} _.
Arguments children {S} _.
Arguments visits {S} _.
Arguments totalReward {S} _.

(** The arena: every node allocated so far, in allocation order. *)
Abbreviation heap S := (list (Node S)).

Section Engine.
Context {S Action : Type} `{!GameState S Action}.
Variable Log : float -> float.

(** [*p] for a non-nil pointer [p]. *)
Definition deref (h : heap S) (p : addr) : result (Node S) :=
  match h !! p with
  | Some nd => Ok nd
  | None => Panic
  end.

(** [*p] for a pointer that may be nil. *)
Definition deref_ptr (h : heap S) (p : option addr) : result (Node S) :=
  match p with
  | Some a => deref h a
  | None => Panic
  end.

Definition NewNode (st : S) (par : option addr) (h : heap S) : heap S * addr :=
  (h ++ [mkNode st par [] 0%Z 0%float], length h).

Definition UCTValue (h : heap S) (n : addr) : result float :=
  nd ← deref h n;
  if (visits nd =? 0)%Z then Ok (math.Inf 1)
  else
    p ← deref_ptr h (parent nd);
    Ok (totalReward nd / math.float64 (visits nd)
        + math.C * math.Sqrt (Log (math.float64 (visits p))
                              / math.float64 (visits nd)))%float.

Definition IsLeaf (nd : Node S) : bool :=
  (length (children nd) =? 0)%nat.

(** The [for _, child := range n.children] loop of [Select], with its two
    loop variables. *)
Fixpoint Select_loop (h : heap S) (cs : list addr)
    (bestValue : float) (bestChild : option addr) : result (option addr) :=
  match cs with
  | [] => Ok bestChild
  | child :: rest =>
      childValue ← UCTValue h child;
      if math.gt childValue bestValue
      then Select_loop h rest childValue (Some child)
      else Select_loop h rest bestValue bestChild
  end.

Fixpoint Select_rec (depth : nat) (h : heap S) (n : addr) : result addr :=
  match depth with
  | O => Diverges
  | Datatypes.S depth' =>
      nd ← deref h n;
      if IsLeaf nd then Ok n
      else
        bestChild ← Select_loop h (children nd) (math.Inf (-1)) None;
        match bestChild with
        | Some c => Select_rec depth' h c
        | None => Panic
        end
  end.

(** A descent that has not reached a leaf after visiting more nodes than
    the arena holds has visited one node twice, and from there on repeats
    itself for ever ([Select_depth_irrelevant] below). *)
Definition Select (h : heap S) (n : addr) : result addr :=
  Select_rec (Datatypes.S (length h)) h n.

Definition add_child (nd : Node S) (c : addr) : Node S :=
  mkNode (state nd) (parent nd) (children nd ++ [c]) (visits nd) (totalReward nd).

(** The [for _, action := range actions] loop of [Expand]. *)
Fixpoint Expand_loop (h : heap S) (n : addr) (actions : list Action) : result (heap S) :=
  match actions with
  | [] => Ok h
  | action :: rest =>
      nd ← deref h n;
      newState ← PerformAction (state nd) action;
      let '(h1, newNode) := NewNode newState (Some n) h in
      nd1 ← deref h1 n;
      Expand_loop (<[n := add_child nd1 newNode]> h1) n rest
  end.

Definition Expand (h : heap S) (n : addr) : result (heap S) :=
  nd ← deref h n;
  Expand_loop h n (GetPossibleActions (state nd)).

Definition visit (reward : float) (nd : Node S) : Node S :=
  mkNode (state nd) (parent nd) (children nd)
         (GoInt.add (visits nd) 1) (totalReward nd + reward)%float.

Fixpoint Backpropagate_rec (depth : nat) (h : heap S) (n : addr) (reward : float)
    : result (heap S) :=
  match depth with
  | O => Diverges
  | Datatypes.S depth' =>
      nd ← deref h n;
      let h1 := <[n := visit reward nd]> h in
      match parent nd with
      | Some p => Backpropagate_rec depth' h1 p reward
      | None => Ok h1
      end
  end.

(** Likewise for a chain of parents longer than the arena
    ([Backpropagate_depth_irrelevant] below). *)
Definition Backpropagate (h : heap S) (n : addr) (reward : float) : result (heap S) :=
  Backpropagate_rec (Datatypes.S (length h)) h n reward.

(** One pass through the body of the loop of [MCTS]; next to the new heap
    it reports the reward it has propagated. *)
Definition MCTS_step (h : heap S) (root : addr) : result (heap S * float) :=
  node ← Select h root;
  nd ← deref h node;
  h1 ← (if negb (IsTerminal (state nd)) then Expand h node else Ok h);
  child ← Select h1 node;
  cd ← deref h1 child;
  let reward := GetReward (state cd) in
  h2 ← Backpropagate h1 child reward;
  Ok (h2, reward).

(** [k] passes; the rewards are listed in the order of the iterations. *)
Fixpoint MCTS_loop (k : nat) (h : heap S) (root : addr) : result (heap S * list float) :=
  match k with
  | O => Ok (h, [])
  | Datatypes.S k' =>
      '(h1, reward) ← MCTS_step h root;
      '(h2, rewards) ← MCTS_loop k' h1 root;
      Ok (h2, reward :: rewards)
  end.

(** [for i := 0; i < iterations; i++] runs [max iterations 0] times. *)
Definition MCTS_trace (rootState : S) (iterations : Z)
    : result (heap S * addr * list float) :=
  let '(h, root) := NewNode rootState None [] in
  '(h', rewards) ← MCTS_loop (Z.to_nat iterations) h root;
  Ok (h', root, rewards).

Definition MCTS (rootState : S) (iterations : Z) : result (heap S * addr) :=
  '(h, root, _) ← MCTS_trace rootState iterations;
  Ok (h, root).

End Engine.

(** ** [math.Log]

    The natural logarithm belongs to Go's standard library, not to the
    repository.  The theorems about the engine hold for every function put
    in its place; to run the search on concrete boards we take the library's
    portable algorithm ([math/log.go], after FreeBSD's [e_log.c]: argument
    reduction [x = 2^k * (1+f)] and a degree-14 polynomial in
    [s = f/(2+f)]), whose special cases are [Log(+Inf) = +Inf],
    [Log(0) = -Inf], [Log(x < 0) = NaN], [Log(NaN) = NaN]. *)

Module mathLog.
Definition Ln2Hi : float := 0x1.62e42fee00000p-1%float.
Definition Ln2Lo : float := 0x1.a39ef35793c76p-33%float.
Definition L1 : float := 0x1.5555555555593p-1%float.
Definition L2 : float := 0x1.999999997fa04p-2%float.
Definition L3 : float := 0x1.2492494229359p-2%float.
Definition L4 : float := 0x1.c71c51d8e78afp-3%float.
Definition L5 : float := 0x1.7466496cb03dep-3%float.
Definition L6 : float := 0x1.39a09d078c69fp-3%float.
Definition L7 : float := 0x1.2f112df3e5244p-3%float.
Definition Sqrt2_2 : float := 0x1.6a09e667f3bcdp-1%float.

Definition Log (x : float) : float :=
  if math.IsNaN x || math.IsInf x 1 then x
  else if PrimFloat.ltb x 0 then nan
  else if PrimFloat.eqb x 0 then math.Inf (-1)
  else
    let '(f1, ki) := Z.frexp x in
    let '(f1, ki) :=
      if PrimFloat.ltb f1 Sqrt2_2 then ((f1 * 2)%float, GoInt.sub ki 1)
      else (f1, ki) in
    let f := (f1 - 1)%float in
    let k := math.float64 ki in
    let s := (f / (2 + f))%float in
    let s2 := (s * s)%float in
    let s4 := (s2 * s2)%float in
    let t1 := (s2 * (L1 + s4 * (L3 + s4 * (L5 + s4 * L7))))%float in
    let t2 := (s4 * (L2 + s4 * (L4 + s4 * L6)))%float in
    let R := (t1 + t2)%float in
    let hfsq := (0.5 * f * f)%float in
    (k * Ln2Hi - ((hfsq - (s * (hfsq + R) + k * Ln2Lo)) - f))%float.
End mathLog.

(** ** The tic-tac-toe game *)

Module TicTacToe.

Definition Empty : Z := 0.
Definition X : Z := 1.
Definition O : Z := 2.

(** [type Board [3][3]int]: a value, copied by assignment. *)
Definition Row : Type := Z * Z * Z.
Definition Board : Type := Row * Row * Row.

Definition get3 {A : Type} (t : A * A * A) (i : Z) : A :=
  let '(a, b, c) := t in
  if (i =? 0)%Z then a else if (i =? 1)%Z then b else c.

Definition set3 {A : Type} (t : A * A * A) (i : Z) (x : A) : A * A * A :=
  let '(a, b, c) := t in
  if (i =? 0)%Z then (x, b, c) else if (i =? 1)%Z then (a, x, c) else (a, b, x).

(** [b[i][j]] and [b[i][j] = v], for indices the run-time check has let
    through. *)
Definition cell (b : Board) (i j : Z) : Z := get3 (get3 b i) j.
Definition set_cell (b : Board) (i j v : Z) : Board :=
  set3 b i (set3 (get3 b i) j v).

(** The bounds check of an index expression on an array of length 3. *)
Definition in_bounds (i : Z) : bool := (0 <=? i)%Z && (i <? 3)%Z.

Record TicTacToeState : Type := mkState {
  board : Board;
  player : Z
}.

(** An action is a [[2]int]. *)
Definition Action : Type := Z * Z.

(** [for i := 0; i < 3; i++]. *)
Definition range3 : list Z := [0; 1; 2]%Z.

Definition GetPossibleActions (s : TicTacToeState) : list Action :=
  i ← range3;
  j ← range3;
  if (cell (board s) i j =? Empty)%Z then [(i, j)] else [].

Definition PerformAction (s : TicTacToeState) (action : Action)
    : result TicTacToeState :=
  let '(move0, move1) := action in
  let newBoard := board s in
  if in_bounds move0 && in_bounds move1
  then Ok (mkState (set_cell newBoard move0 move1 (player s))
                   (GoInt.sub 3 (player s)))
  else Panic.

Definition checkWin (s : TicTacToeState) (player : Z) : bool :=
  let b := board s in
  if existsb (fun i =>
       ((cell b i 0 =? player)%Z && (cell b i 1 =? player)%Z
          && (cell b i 2 =? player)%Z)
       || ((cell b 0 i =? player)%Z && (cell b 1 i =? player)%Z
          && (cell b 2 i =? player)%Z)) range3
  then true
  else ((cell b 0 0 =? player)%Z && (cell b 1 1 =? player)%Z
          && (cell b 2 2 =? player)%Z)
       || ((cell b 0 2 =? player)%Z && (cell b 1 1 =? player)%Z
          && (cell b 2 0 =? player)%Z).

Definition checkDraw (s : TicTacToeState) : bool :=
  forallb (fun i =>
    forallb (fun j => negb (cell (board s) i j =? Empty)%Z) range3) range3.

Definition IsTerminal (s : TicTacToeState) : bool :=
  checkWin s X || checkWin s O || checkDraw s.

Definition GetReward (s : TicTacToeState) : float :=
  if checkWin s X then 1%float
  else if checkWin s O then (-1)%float
  else 0%float.

#[global] Instance game : GameState TicTacToeState Action := {
  GetPossibleActions := GetPossibleActions;
  PerformAction := PerformAction;
  IsTerminal := IsTerminal;
  GetReward := GetReward
}.

(** A [*TicTacToeState] points into a store of states; [PerformAction] is
    called through such a pointer and returns a pointer to a fresh
    object. *)
Abbreviation store := (list TicTacToeState).

Definition PerformAction_at (m : store) (s : addr) (action : Action)
    : result (store * addr) :=
  match m !! s with
  | None => Panic
  | Some st =>
      new ← PerformAction st action;
      Ok (m ++ [new], length m)
  end.

(** [state := &TicTacToeState{player: X}] *)
Definition empty_board : Board := ((0, 0, 0), (0, 0, 0), (0, 0, 0))%Z.
Definition initial : TicTacToeState := mkState empty_board X.

(** The engine's turn in [main]: the loop over [node.children] that keeps
    the first child with the largest visit count. *)
Fixpoint most_visited (h : heap TicTacToeState) (cs : list addr)
    (bestVisits : Z) (bestChild : option addr) : result (option addr) :=
  match cs with
  | [] => Ok bestChild
  | child :: rest =>
      cd ← deref h child;
      if (visits cd >? bestVisits)%Z
      then most_visited h rest (visits cd) (Some child)
      else most_visited h rest bestVisits bestChild
  end.

Definition engine_turn (Log : float -> float) (st : TicTacToeState)
    (iterations : Z) : result TicTacToeState :=
  '(h, node) ← MCTS Log st iterations;
  nd ← deref h node;
  bestChild ← most_visited h (children nd) (-1) None;
  cd ← deref_ptr h bestChild;
  Ok (state cd).

(** What the loop of [main] reads: the visit counts of the root's children,
    in the order of the children list. *)
Definition child_visits (Log : float -> float) (st : TicTacToeState)
    (iterations : Z) : result (list Z) :=
  '(h, node) ← MCTS Log st iterations;
  nd ← deref h node;
  mapM (fun child => cd ← deref h child; Ok (visits cd)) (children nd).

(** The opening moves known to be sound: the centre and the four corners. *)
Definition centre_or_corner (st : TicTacToeState) : bool :=
  let b := board st in
  (cell b 1 1 =? X)%Z || (cell b 0 0 =? X)%Z || (cell b 0 2 =? X)%Z
  || (cell b 2 0 =? X)%Z || (cell b 2 2 =? X)%Z.

(** ** Small trees on which the statements are tried

    A root with three children, the first visited once, the other two never. *)
Definition family (rootVisits : Z) : heap TicTacToeState :=
  [ mkNode initial None [1; 2; 3] rootVisits 0%float;
    mkNode initial (Some 0) [] 1%Z 0%float;
    mkNode initial (Some 0) [] 0%Z 0%float;
    mkNode initial (Some 0) [] 0%Z 0%float ].

(** A root whose only child has lost without bound. *)
Definition lost_cause : heap TicTacToeState :=
  [ mkNode initial None [1] 1%Z neg_infinity;
    mkNode initial (Some 0) [] 1%Z neg_infinity ].

(** The tree that [MCTS] starts from. *)
Definition sapling : heap TicTacToeState :=
  [ mkNode initial None [] 0%Z 0%float ].

(** X to move and one move from winning on the top row. *)
Definition near_win : TicTacToeState :=
  mkState ((1, 1, 0), (2, 2, 0), (0, 0, 0))%Z X.

End TicTacToe.

(** * Vocabulary of the statements *)

(** ** Numbers of [float64] *)

(** A [float64] that is a number: neither NaN nor an infinity. *)
Definition is_number (x : float) : bool :=
  negb (math.IsNaN x) && negb (math.IsInf x 0).

(** What the proofs say of a binary64 value given by sign, mantissa and
    exponent.  [SFbounded s k x]: [x] is a number, that is a zero or a
    finite value, of sign [s] and of absolute value below [2^k]. *)
Definition SFbounded (s : bool) (k : Z) (x : spec_float) : Prop :=
  match x with
  | S754_zero s' => s' = s
  | S754_finite s' m e => s' = s /\ (Z.pos (digits2_pos m) + e <= k)%Z
  | _ => False
  end.

(** A key that orders the values other than NaN as [SFcompare] does: by
    sign, then exponent, then mantissa. *)
Definition SFkey (x : spec_float) : Z * Z * Z :=
  match x with
  | S754_infinity true => (-2, 0, 0)
  | S754_finite true m e => (-1, - e, Z.neg m)
  | S754_finite false m e => (1, e, Z.pos m)
  | S754_infinity false => (2, 0, 0)
  | _ => (0, 0, 0)
  end%Z.

Definition lex_lt (a b : Z * Z * Z) : Prop :=
  (a.1.1 < b.1.1 \/ (a.1.1 = b.1.1 /\ (a.1.2 < b.1.2 \/ (a.1.2 = b.1.2 /\ a.2 < b.2))))%Z.

(** ** Paths along a pointer field

    [path step stop n l]: [l] lists the nodes met from [n] by following
    [step] until a node satisfying [stop]. *)

Inductive path (step : addr -> addr -> Prop) (stop : addr -> Prop)
    : addr -> list addr -> Prop :=
  | path_stop n : stop n -> path step stop n [n]
  | path_step n m l : step n m -> path step stop m l -> path step stop n (n :: l).

Section Vocabulary.
Context {S Action : Type} `{!GameState S Action}.
Variable Log : float -> float.

(** The successor states that [Expand] asks the game for, in the order of
    the actions. *)
Fixpoint successors (st : S) (actions : list Action) : result (list S) :=
  match actions with
  | [] => Ok []
  | action :: rest =>
      newState ← PerformAction st action;
      newStates ← successors st rest;
      Ok (newState :: newStates)
  end.

Definition set_children (nd : Node S) (cs : list addr) : Node S :=
  mkNode (state nd) (parent nd) cs (visits nd) (totalReward nd).

(** What [NewNode(st, n)] allocates. *)
Definition fresh (n : addr) (st : S) : Node S :=
  mkNode st (Some n) [] 0%Z 0%float.

(** The heap after node [n], whose record was [nd], has been given one
    fresh child per state of [ss]. *)
Definition expanded (h : heap S) (n : addr) (nd : Node S) (ss : list S) : heap S :=
  <[n := set_children nd (children nd ++ seq (length h) (length ss))]>
    (h ++ (fresh n <$> ss)).

(** [ancestors h n l]: [l] is [n], its parent, its grandparent, ... up to
    and including the node whose parent is nil. *)
Definition has_parent (h : heap S) (n p : addr) : Prop :=
  exists nd, h !! n = Some nd /\ parent nd = Some p.
Definition is_root (h : heap S) (n : addr) : Prop :=
  exists nd, h !! n = Some nd /\ parent nd = None.
Definition ancestors (h : heap S) : addr -> list addr -> Prop :=
  path (has_parent h) (is_root h).

(** The value at index [i] of [vs] is [v], which is not NaN; no value of
    [vs] is above it; and every earlier one is strictly below it, or is NaN
    (a NaN compares neither above nor below any value): the first maximum. *)
Definition first_max (vs : list float) (i : nat) (v : float) : Prop :=
  vs !! i = Some v
  /\ math.IsNaN v = false
  /\ (forall w, w ∈ vs -> math.gt w v = false)
  /\ (forall j w, j < i -> vs !! j = Some w ->
        math.gt v w = true \/ math.IsNaN w = true).

(** [vs] lists the UCT values of the nodes [cs]. *)
Definition UCT_values (h : heap S) (cs : list addr) (vs : list float) : Prop :=
  Forall2 (fun child w => UCTValue Log h child = Ok w) cs vs.

(** [c] is the child of [n] that holds the first maximum of the UCT values of
    the children of [n], a maximum above the initial [bestValue]. *)
Definition best_child (h : heap S) (n c : addr) : Prop :=
  exists nd vs i v,
    h !! n = Some nd
    /\ UCT_values h (children nd) vs
    /\ first_max vs i v
    /\ math.gt v (math.Inf (-1)) = true
    /\ children nd !! i = Some c.

Definition is_leaf (h : heap S) (n : addr) : Prop :=
  exists nd, h !! n = Some nd /\ children nd = [].

(** [descent h n l]: from [n], repeatedly taking the best child, down to a
    leaf. *)
Definition descent (h : heap S) : addr -> list addr -> Prop :=
  path (best_child h) (is_leaf h).

(** [scored h n]: the statistics around [n] are those of a search under way.
    [n] has been visited, and [math.Log] of its count is a number that is
    not negative; every child of [n] points back to [n], has a count that is
    not negative and a total reward that is a number. *)
Definition scored (h : heap S) (n : addr) : Prop :=
  exists nd,
    h !! n = Some nd
    /\ (0 < visits nd)%Z
    /\ math.le 0 (Log (math.float64 (visits nd))) = true
    /\ math.IsInf (Log (math.float64 (visits nd))) 1 = false
    /\ forall c, c ∈ children nd ->
         exists cd, h !! c = Some cd /\ parent cd = Some n
           /\ (0 <= visits cd <= GoInt.MaxInt)%Z
           /\ is_number (totalReward cd) = true.

(** [scored] as a test, for the evaluations. *)
Definition scoredb (h : heap S) (n : addr) : bool :=
  match h !! n with
  | Some nd =>
      (0 <? visits nd)%Z
      && math.le 0 (Log (math.float64 (visits nd)))
      && negb (math.IsInf (Log (math.float64 (visits nd))) 1)
      && forallb (fun c =>
                    match h !! c with
                    | Some cd =>
                        bool_decide (parent cd = Some n)
                        && (0 <=? visits cd)%Z && (visits cd <=? GoInt.MaxInt)%Z
                        && is_number (totalReward cd)
                    | None => false
                    end)
                 (children nd)
  | None => false
  end.

(** [Select] on [n] makes its recursive call on [c]; or it makes none. *)
Definition selects (h : heap S) (n c : addr) : Prop :=
  exists nd, h !! n = Some nd /\ IsLeaf nd = false
    /\ Select_loop Log h (children nd) (math.Inf (-1)) None = Ok (Some c).
Definition Select_halts (h : heap S) (n : addr) : Prop :=
  forall c, ~ selects h n c.

(** [Backpropagate] on [n] makes no recursive call. *)
Definition no_parent (h : heap S) (n : addr) : Prop :=
  forall p, ~ has_parent h n p.

(** Shape of the trees that the engine builds: the only node without a
    parent is the root, objects are allocated after the node they hang
    under, and a node holding a terminal state has no children. *)
Record tree_inv (h : heap S) (root : addr) : Prop := {
  inv_root : is_root h root;
  inv_parent : forall a nd p, h !! a = Some nd -> parent nd = Some p -> p < a;
  inv_orphan : forall a nd, h !! a = Some nd -> parent nd = None -> a = root;
  inv_children : forall a nd c, h !! a = Some nd -> c ∈ children nd -> a < c < length h;
  inv_terminal : forall a nd, h !! a = Some nd -> IsTerminal (state nd) = true -> children nd = []
}.

End Vocabulary.

(** * Vocabulary of the further properties *)

(** ** Shape and statistics of the search tree *)

Section Shape.
Context {S Action : Type} `{!GameState S Action}.

(** [c] is listed among the children of [a]. *)
Definition child_of (h : heap S) (a c : addr) : Prop :=
  exists nd, h !! a = Some nd /\ c ∈ children nd.

(** [n.visits], and the sum of the visits of a list of nodes. *)
Definition visits_at (h : heap S) (a : addr) : Z :=
  match h !! a with
  | Some nd => visits nd
  | None => 0%Z
  end.

Definition sum_visits (h : heap S) (cs : list addr) : Z :=
  foldr (fun c z => (visits_at h c + z)%Z) 0%Z cs.

(** The node is the first of the children of its parent. *)
Definition first_born (h : heap S) (a : addr) : bool :=
  match h !! a with
  | Some nd =>
      match parent nd with
      | Some p =>
          match h !! p with
          | Some pd => bool_decide (head (children pd) = Some a)
          | None => false
          end
      | None => false
      end
  | None => false
  end.

(** The node holds a state from which the game goes on. *)
Definition expandable (nd : Node S) : Prop :=
  IsTerminal (state nd) = false /\ GetPossibleActions (state nd) <> [].

(** The pointers of the tree agree: a node lists exactly the nodes that
    name it as parent, each once, and the children of a node hold the
    successors of its state in the order of the actions. *)
Record tree_shape (h : heap S) (root : addr) : Prop := {
  shape_inv : tree_inv h root;
  shape_child : forall a nd c,
    h !! a = Some nd -> c ∈ children nd -> has_parent h c a;
  shape_listed : forall c p, has_parent h c p -> child_of h p c;
  shape_NoDup : forall a nd, h !! a = Some nd -> NoDup (children nd);
  shape_states : forall a nd,
    h !! a = Some nd -> children nd <> [] ->
    exists ss,
      successors (state nd) (GetPossibleActions (state nd)) = Ok ss
      /\ Forall2 (fun c st => exists cd, h !! c = Some cd /\ state cd = st)
                 (children nd) ss
}.

(** The visit counts after [k] iterations: the root has [k], no node has
    more, and a node from whose state the game goes on has the visits of
    its children, and one more when it was the first child of an expansion
    (that child is visited by the iteration that creates it). *)
Record tree_counts (h : heap S) (root : addr) (k : Z) : Prop := {
  counts_root : visits_at h root = k;
  counts_range : forall a nd, h !! a = Some nd -> (0 <= visits nd <= k)%Z;
  counts_sum : forall a nd,
    h !! a = Some nd -> expandable nd ->
    visits nd
    = (sum_visits h (children nd) + (if first_born h a then 1 else 0))%Z
}.

(** The counts between the expansion and the walk back to the root: the
    node about to be visited, [child], still lacks that visit. *)
Record counts_pending (h : heap S) (root : addr) (k : Z) (child : addr) : Prop := {
  pending_root : visits_at h root = k;
  pending_range : forall a nd, h !! a = Some nd -> (0 <= visits nd <= k)%Z;
  pending_sum : forall a nd,
    h !! a = Some nd -> expandable nd -> a <> child ->
    visits nd
    = (sum_visits h (children nd) + (if first_born h a then 1 else 0))%Z;
  pending_child : forall cd,
    h !! child = Some cd -> expandable cd ->
    (visits cd + 1 = if first_born h child then 1 else 0)%Z
}.

(** What one iteration does to the tree: it reaches the leaf [node]; it
    evaluates [node] itself when the state there is terminal or offers no
    action, and otherwise gives [node] its children and evaluates the first
    of them; then it visits the evaluated node and its ancestors [l]. *)
Definition iteration (h : heap S) (root : addr) (h2 : heap S) (reward : float)
    (node child : addr) (l : list addr) : Prop :=
  exists nd h1 cd,
    h !! node = Some nd /\ children nd = []
    /\ ((h1 = h /\ child = node
         /\ (IsTerminal (state nd) = true \/ GetPossibleActions (state nd) = []))
        \/ (exists st ss,
              IsTerminal (state nd) = false
              /\ successors (state nd) (GetPossibleActions (state nd))
                 = Ok (st :: ss)
              /\ h1 = expanded h node nd (st :: ss) /\ child = length h))
    /\ h1 !! child = Some cd /\ children cd = []
    /\ reward = GetReward (state cd)
    /\ ancestors h1 child l /\ root ∈ l
    /\ length h2 = length h1
    /\ (forall a, h2 !! a
                  = if decide (a ∈ l) then visit reward <$> h1 !! a else h1 !! a).

(** [h'] is [h] grown: the nodes of [h] are still there, with their states
    and parents, and with their children unless they had none. *)
Definition grown (h h' : heap S) : Prop :=
  length h <= length h'
  /\ forall a nd, h !! a = Some nd ->
       exists nd', h' !! a = Some nd'
         /\ state nd' = state nd /\ parent nd' = parent nd
         /\ (children nd = [] \/ children nd' = children nd).

(** [m] is in the subtree under [n]. *)
Inductive below (h : heap S) : addr -> addr -> Prop :=
  | below_here n : below h n n
  | below_child n c m : child_of h n c -> below h c m -> below h n m.

End Shape.

(** ** Positions of the game *)

Module Rules.
Import TicTacToe.

(** The cells of the board in the order of the two nested loops. *)
Definition all_cells : list Action :=
  [(0, 0); (0, 1); (0, 2); (1, 0); (1, 1); (1, 2); (2, 0); (2, 1); (2, 2)]%Z.

Definition is_empty (b : Board) (a : Action) : bool :=
  (cell b a.1 a.2 =? Empty)%Z.

(** How many cells of [b] hold [m]. *)
Definition count_mark (b : Board) (m : Z) : nat :=
  length (List.filter (fun a : Action => (cell b a.1 a.2 =? m)%Z) all_cells).

(** [plays s l s']: from [s], the actions [l], each one offered by
    [GetPossibleActions] in a state that is not terminal, lead to [s']. *)
Inductive plays : TicTacToeState -> list Action -> TicTacToeState -> Prop :=
  | plays_nil s : plays s [] s
  | plays_cons s a s1 l s2 :
      IsTerminal s = false -> a ∈ GetPossibleActions s ->
      PerformAction s a = Ok s1 -> plays s1 l s2 ->
      plays s (a :: l) s2.

(** The board seen from the main diagonal, and from the right. *)
Definition transpose (b : Board) : Board :=
  let '((a0, a1, a2), (b0, b1, b2), (c0, c1, c2)) := b in
  ((a0, b0, c0), (a1, b1, c1), (a2, b2, c2)).

Definition mirror (b : Board) : Board :=
  let '((a0, a1, a2), (b0, b1, b2), (c0, c1, c2)) := b in
  ((a2, a1, a0), (b2, b1, b0), (c2, c1, c0)).

(** The other player: [3 - p]. *)
Definition opponent (p : Z) : Z := GoInt.sub 3 p.

(** What holds of every position that play reaches from the empty board:
    it is [X]'s or [O]'s turn, the cells hold marks, [X] has moved as often
    as [O], or once more when it is [O]'s turn, and the player to move has
    no line. *)
Record in_play (s : TicTacToeState) : Prop := {
  play_turn : player s = X \/ player s = O;
  play_marks : forall i j, in_bounds i = true -> in_bounds j = true ->
                 cell (board s) i j = Empty \/ cell (board s) i j = X
                 \/ cell (board s) i j = O;
  play_count : count_mark (board s) X
               = count_mark (board s) O + (if (player s =? O)%Z then 1 else 0);
  play_no_line : checkWin s (player s) = false
}.

(** ** Positions on which the statements are tried

    [X] has the top row; [O] has answered in the centre; and two moves of a
    game. *)
Definition top_row : TicTacToeState :=
  mkState ((1, 1, 1), (2, 2, 0), (0, 0, 0))%Z O.

Definition centre_taken : TicTacToeState :=
  mkState ((0, 0, 0), (0, 1, 0), (0, 0, 0))%Z O.

Definition two_moves : TicTacToeState :=
  mkState ((2, 0, 0), (0, 1, 0), (0, 0, 0))%Z X.

End Rules.

(** ** The console program

    [PrintBoard] and [main] write to the standard output and [main] reads
    the moves of [O] from the standard input.  Here the output is the list
    of the texts written, one per board or message, and the input is the
    list of what the successive calls of [fmt.Scanf("%d %d", &row, &col)]
    come back with: the two integers read, or nothing when the call reports
    an error; the calls made after the end of the list report an error, as
    they do at the end of the input.  The loop of [main] has no bound; its
    model counts the passes. *)

Module Console.
Import Stdlib.Strings.Ascii Stdlib.Strings.String.
Import TicTacToe.
Local Open Scope string_scope.

Definition newline : string := String (Ascii.ascii_of_nat 10) EmptyString.

(** [fmt.Println(s)] *)
Definition Println (s : string) : string := s ++ newline.

Definition space : ascii := " "%char.

(** The character that stands for a cell. *)
Definition mark_char (c : Z) : Ascii.ascii :=
  if (c =? X)%Z then "X"%char
  else if (c =? O)%Z then "O"%char
  else "."%char.

(** The [switch] of [PrintBoard]. *)
Definition print_cell (c : Z) : string :=
  if (c =? X)%Z then "X "
  else if (c =? O)%Z then "O "
  else ". ".

Definition PrintBoard (s : TicTacToeState) : string :=
  concat "" (List.map (fun i =>
      Println (concat "" (List.map (fun j => print_cell (cell (board s) i j)) range3)))
    range3)
  ++ Println "".

Definition prompt : string := Println "Enter your move (row col):".
Definition invalid : string := Println "Invalid input. Please try again.".

(** The branch [state.player == O] of the loop, after the prompt: the new
    state, or nothing when the input is refused. *)
Definition human_turn (state : TicTacToeState) (input : option (Z * Z))
    : option TicTacToeState :=
  match input with
  | None => None
  | Some (row, col) =>
      if (row <? 0)%Z || (row >? 2)%Z || (col <? 0)%Z || (col >? 2)%Z
         || negb (cell (board state) row col =? Empty)%Z
      then None
      else Some (mkState (set_cell (board state) row col O)
                         (GoInt.sub 3 (player state)))
  end.

(** One call of [Scanf]. *)
Definition Scanf (stdin : list (option (Z * Z)))
    : option (Z * Z) * list (option (Z * Z)) :=
  match stdin with
  | [] => (None, [])
  | input :: rest => (input, rest)
  end.

(** [for !state.IsTerminal() { ... }]: the state the loop ends in and the
    texts it has written. *)
Fixpoint main_loop (passes : nat) (Log : float -> float) (iterations : Z)
    (state : TicTacToeState) (stdin : list (option (Z * Z)))
    : result (TicTacToeState * list string) :=
  match passes with
  | 0 => Diverges
  | Datatypes.S passes' =>
      if IsTerminal state then Ok (state, [])
      else if (player state =? O)%Z then
        let '(input, rest) := Scanf stdin in
        match human_turn state input with
        | None =>
            '(final, out) ← main_loop passes' Log iterations state rest;
            Ok (final, PrintBoard state :: prompt :: invalid :: out)
        | Some state' =>
            '(final, out) ← main_loop passes' Log iterations state' rest;
            Ok (final, PrintBoard state :: prompt :: out)
        end
      else
        state' ← engine_turn Log state iterations;
        '(final, out) ← main_loop passes' Log iterations state' stdin;
        Ok (final, PrintBoard state :: out)
  end.

(** The end of [main]. *)
Definition X_wins : string := Println "Player X wins!".
Definition O_wins : string := Println "Player O wins!".
Definition draw : string := Println "It's a draw!".

Definition announce (result : float) : string :=
  if PrimFloat.eqb result 1 then X_wins
  else if PrimFloat.eqb result (-1) then O_wins
  else draw.

(** [main], for the search [iterations] that it asks of the engine (1000
    in the source). *)
Definition main_with (passes : nat) (Log : float -> float) (iterations : Z)
    (stdin : list (option (Z * Z))) : result (list string) :=
  '(final, out) ← main_loop passes Log iterations initial stdin;
  Ok (out ++ [PrintBoard final; announce (GetReward final)])%list.

Definition main (passes : nat) (Log : float -> float)
    (stdin : list (option (Z * Z))) : result (list string) :=
  main_with passes Log 1000 stdin.

End Console.

(** * Properties *)

(** ** The result monad *)

Lemma bind_Ok_inv {A B : Type} (m : result A) (f : A -> result B) (b : B) :
  (m ≫= f) = Ok b -> exists a, m = Ok a /\ f a = Ok b.
Proof. destruct m as [a| |]; simpl; try discriminate. now exists a. Qed.

(** ** Comparisons of [float64] values *)

Lemma SFcompare_refl (x : spec_float) :
  x <> S754_nan -> SFcompare x x = Some Eq.
Proof.
  destruct x as [s|s| |s m e]; try done; intros _; simpl.
  - now destruct s.
  - rewrite Z.compare_refl, Pos.compare_cont_refl. now destruct s.
Qed.

(** ** Rounding to [float64]

    The operations of [PrimFloat] are specified by those of [SpecFloat] on
    mantissas and exponents.  What follows bounds the result of rounding,
    and from there the results of the division, the square root, the product
    and the sum that [UCTValue] computes. *)

Section Digits.
Local Open Scope Z_scope.

Lemma digits2_pos_size (m : positive) : digits2_pos m = Pos.size m.
Proof. induction m as [m IH|m IH|]; simpl; congruence. Qed.

(** A positive number of [d] binary digits lies in [2^(d-1), 2^d). *)
Lemma Zdigits2_bounds (m : Z) :
  0 < m -> 2 ^ (Zdigits2 m - 1) <= m < 2 ^ Zdigits2 m.
Proof.
  destruct m as [|p|p]; try lia. intros _. cbn [Zdigits2].
  rewrite digits2_pos_size.
  pose proof (Pos.size_gt p) as Hgt. pose proof (Pos.size_le p) as Hle.
  apply Pos2Z.pos_lt_pos in Hgt. apply Pos2Z.pos_le_pos in Hle.
  rewrite Pos2Z.inj_pow in Hgt, Hle.
  split; [|exact Hgt].
  replace (Z.pos (Pos.size p)) with (Z.succ (Z.pos (Pos.size p) - 1)) in Hle by lia.
  rewrite Z.pow_succ_r in Hle by lia. lia.
Qed.

Lemma Zdigits2_nonneg (m : Z) : 0 <= Zdigits2 m.
Proof. destruct m; simpl; lia. Qed.

Lemma Zdigits2_pos (m : Z) : 0 < m -> 0 < Zdigits2 m.
Proof. destruct m; simpl; lia. Qed.

Lemma Zdigits2_le (m k : Z) : 0 <= m -> 0 <= k -> m < 2 ^ k -> Zdigits2 m <= k.
Proof.
  intros Hm Hk Hlt. destruct (Z.eq_dec m 0) as [->|Hne]; [simpl; lia|].
  destruct (Zdigits2_bounds m ltac:(lia)) as [Hlo _].
  destruct (Z_le_gt_dec (Zdigits2 m) k) as [|Hgt]; [done|exfalso].
  assert (2 ^ k <= 2 ^ (Zdigits2 m - 1)) by (apply Z.pow_le_mono_r; lia). lia.
Qed.

Lemma Zdigits2_ge (m k : Z) : 0 <= k -> 2 ^ k <= m -> k + 1 <= Zdigits2 m.
Proof.
  intros Hk Hle. assert (0 < m) by (pose proof (Z.pow_pos_nonneg 2 k); lia).
  destruct (Zdigits2_bounds m ltac:(lia)) as [_ Hhi].
  destruct (Z_le_gt_dec (k + 1) (Zdigits2 m)) as [|Hgt]; [done|exfalso].
  assert (2 ^ Zdigits2 m <= 2 ^ k)
    by (apply Z.pow_le_mono_r; [lia|]; pose proof (Zdigits2_nonneg m); lia).
  lia.
Qed.

Lemma Zdigits2_mono (m m' : Z) : 0 <= m <= m' -> Zdigits2 m <= Zdigits2 m'.
Proof.
  intros [Hm Hle]. destruct (Z.eq_dec m' 0) as [->|Hne].
  { assert (m = 0) as -> by lia. lia. }
  apply Zdigits2_le; [lia|apply Zdigits2_nonneg|].
  destruct (Zdigits2_bounds m' ltac:(lia)). lia.
Qed.

Lemma Zdigits2_succ (m : Z) : 0 <= m -> Zdigits2 (m + 1) <= Zdigits2 m + 1.
Proof.
  intros Hm. apply Zdigits2_le; [lia|pose proof (Zdigits2_nonneg m); lia|].
  rewrite Z.pow_add_r by (pose proof (Zdigits2_nonneg m); lia).
  destruct (Z.eq_dec m 0) as [->|Hne]; [simpl; lia|].
  destruct (Zdigits2_bounds m ltac:(lia)). lia.
Qed.

(** Digits of a number shifted right and left. *)
Lemma Zdigits2_div_pow2 (m n : Z) :
  0 <= m -> 0 <= n -> Zdigits2 (m / 2 ^ n) = Z.max (Zdigits2 m - n) 0.
Proof.
  intros Hm Hn. pose proof (Z.pow_pos_nonneg 2 n ltac:(lia) Hn) as Hpow.
  destruct (Z.eq_dec m 0) as [->|Hne].
  { rewrite Z.div_0_l by lia. simpl. lia. }
  destruct (Zdigits2_bounds m ltac:(lia)) as [Hlo Hhi].
  pose proof (Zdigits2_pos m ltac:(lia)) as Hd.
  destruct (Z_lt_le_dec n (Zdigits2 m)) as [Hlt|Hge].
  - rewrite Z.max_l by lia. apply Z.le_antisymm.
    + apply Zdigits2_le; [apply Z.div_pos; lia|lia|].
      apply Z.div_lt_upper_bound; [lia|].
      rewrite <- Z.pow_add_r by lia. now replace (n + (Zdigits2 m - n)) with (Zdigits2 m) by lia.
    + replace (Zdigits2 m - n) with ((Zdigits2 m - n - 1) + 1) by lia.
      apply Zdigits2_ge; [lia|].
      apply Z.div_le_lower_bound; [lia|].
      rewrite <- Z.pow_add_r by lia. now replace (n + (Zdigits2 m - n - 1)) with (Zdigits2 m - 1) by lia.
  - rewrite Z.max_r by lia. rewrite Z.div_small; [done|].
    split; [lia|]. assert (2 ^ Zdigits2 m <= 2 ^ n) by (apply Z.pow_le_mono_r; lia). lia.
Qed.

Lemma Zdigits2_mul_pow2 (m n : Z) :
  0 < m -> 0 <= n -> Zdigits2 (m * 2 ^ n) = Zdigits2 m + n.
Proof.
  intros Hm Hn. pose proof (Z.pow_pos_nonneg 2 n ltac:(lia) Hn) as Hpow.
  destruct (Zdigits2_bounds m Hm) as [Hlo Hhi].
  pose proof (Zdigits2_pos m Hm) as Hd.
  apply Z.le_antisymm.
  - apply Zdigits2_le; [lia|lia|]. rewrite Z.pow_add_r by lia.
    apply Z.mul_lt_mono_pos_r; lia.
  - replace (Zdigits2 m + n) with ((Zdigits2 m - 1 + n) + 1) by lia.
    apply Zdigits2_ge; [lia|]. rewrite Z.pow_add_r by lia.
    apply Z.mul_le_mono_nonneg_r; lia.
Qed.

End Digits.

Section Shr.
Local Open Scope Z_scope.

Lemma iter_pos_nat {A : Type} (f : A -> A) (p : positive) : forall x,
  SpecFloat.iter_pos f p x = Nat.iter (Pos.to_nat p) f x.
Proof.
  induction p as [p IH|p IH|]; intros x; cbn [SpecFloat.iter_pos].
  - rewrite !IH, Pos2Nat.inj_xI.
    replace (Datatypes.S (2 * Pos.to_nat p))%nat
      with (Pos.to_nat p + Datatypes.S (Pos.to_nat p))%nat by lia.
    rewrite Nat.iter_add. f_equal. now rewrite Nat.iter_succ_r.
  - rewrite !IH, Pos2Nat.inj_xO.
    replace (2 * Pos.to_nat p)%nat with (Pos.to_nat p + Pos.to_nat p)%nat by lia.
    now rewrite Nat.iter_add.
  - reflexivity.
Qed.

Lemma shr_1_nonneg (m : Z) (r s : bool) :
  0 <= m -> shr_1 (Build_shr_record m r s) = Build_shr_record (m / 2) (Z.odd m) (r || s).
Proof.
  intros Hm. destruct m as [|p|p]; [reflexivity| |lia].
  destruct p as [p|p|]; cbn [shr_1]; [| |reflexivity].
  - f_equal. apply (Z.div_unique _ _ _ 1); lia.
  - f_equal. apply (Z.div_unique _ _ _ 0); lia.
Qed.

Lemma iter_shr_1 (n : nat) (m : Z) (r s : bool) :
  0 <= m ->
  shr_m (Nat.iter n shr_1 (Build_shr_record m r s)) = m / 2 ^ Z.of_nat n
  /\ (0 < n -> shr_r (Nat.iter n shr_1 (Build_shr_record m r s))
               = Z.testbit m (Z.of_nat n - 1))%nat.
Proof.
  intros Hm. induction n as [|n [IHm IHr]].
  - simpl. split; [now rewrite Z.div_1_r|lia].
  - rewrite Nat.iter_succ.
    destruct (Nat.iter n shr_1 (Build_shr_record m r s)) as [mn rn sn].
    cbn [shr_m shr_r] in IHm, IHr. subst mn.
    rewrite shr_1_nonneg by (apply Z.div_pos; [lia|apply Z.pow_pos_nonneg; lia]).
    cbn [shr_m shr_r]. split.
    + rewrite Z.div_div by (try apply Z.pow_pos_nonneg; lia).
      rewrite Nat2Z.inj_succ, Z.pow_succ_r by lia. now rewrite Z.mul_comm.
    + intros _. rewrite Z.testbit_odd, Z.shiftr_div_pow2 by lia.
      now replace (Z.of_nat (Datatypes.S n) - 1) with (Z.of_nat n) by lia.
Qed.

Lemma shr_pos (m : Z) (r s : bool) (e n : Z) :
  0 <= m -> 0 < n ->
  exists mrs,
    shr (Build_shr_record m r s) e n = (mrs, e + n)
    /\ shr_m mrs = m / 2 ^ n /\ shr_r mrs = Z.testbit m (n - 1).
Proof.
  intros Hm Hn. destruct n as [|p|p]; try lia. cbn [shr].
  eexists. split; [reflexivity|]. rewrite iter_pos_nat.
  destruct (iter_shr_1 (Pos.to_nat p) m r s Hm) as [H1 H2].
  rewrite positive_nat_Z in H1, H2. split; [done|]. apply H2. lia.
Qed.

Lemma shr_nonpos (mrs : shr_record) (e n : Z) : n <= 0 -> shr mrs e n = (mrs, e).
Proof. destruct n; try lia; reflexivity. Qed.

Lemma shr_record_of_loc_m (m : Z) (l : location) : shr_m (shr_record_of_loc m l) = m.
Proof. now destruct l as [|[]]. Qed.

Lemma loc_of_shr_record_of_loc (m : Z) (l : location) :
  loc_of_shr_record (shr_record_of_loc m l) = l.
Proof. now destruct l as [|[]]. Qed.

Lemma round_nearest_even_bounds (m : Z) (l : location) :
  m <= round_nearest_even m l <= m + 1.
Proof. destruct l as [|[]]; simpl; try lia. destruct (Z.even m); lia. Qed.

(** Rounding goes up only when the round bit is set. *)
Lemma round_nearest_even_up (mrs : shr_record) :
  round_nearest_even (shr_m mrs) (loc_of_shr_record mrs) <> shr_m mrs ->
  shr_r mrs = true.
Proof. destruct mrs as [m [] []]; simpl; congruence. Qed.

Lemma testbit_true_ge (m n : Z) :
  0 <= m -> 0 < n -> Z.testbit m (n - 1) = true ->
  (2 * (m / 2 ^ n) + 1) * 2 ^ (n - 1) <= m.
Proof.
  intros Hm Hn Hbit. rewrite Z.testbit_odd, Z.shiftr_div_pow2 in Hbit by lia.
  pose proof (Z.pow_pos_nonneg 2 (n - 1) ltac:(lia) ltac:(lia)) as Hpow.
  assert (Hn2 : 2 ^ n = 2 ^ (n - 1) * 2).
  { replace n with (Z.succ (n - 1)) at 1 by lia. rewrite Z.pow_succ_r by lia. lia. }
  rewrite Hn2, <- Z.div_div by lia.
  set (q := m / 2 ^ (n - 1)) in *.
  assert (Hq : q = 2 * (q / 2) + 1).
  { rewrite (Z.div_mod q 2) at 1 by lia. rewrite Zmod_odd, Hbit. lia. }
  rewrite <- Hq. unfold q. rewrite Z.mul_comm. apply Z.mul_div_le. lia.
Qed.

End Shr.

Section Round.
Local Open Scope Z_scope.

Lemma fexp_eq (k : Z) : fexp prec emax k = Z.max (k - 53) (-1074).
Proof. reflexivity. Qed.

Lemma shr_fexp_result (m e : Z) (l : location) :
  0 <= m ->
  exists mrs,
    shr_fexp prec emax m e l = (mrs, Z.max e (fexp prec emax (Zdigits2 m + e)))
    /\ 0 <= shr_m mrs
    /\ (e < fexp prec emax (Zdigits2 m + e) ->
        shr_m mrs = m / 2 ^ (fexp prec emax (Zdigits2 m + e) - e)
        /\ shr_r mrs = Z.testbit m (fexp prec emax (Zdigits2 m + e) - e - 1))
    /\ (fexp prec emax (Zdigits2 m + e) <= e -> mrs = shr_record_of_loc m l).
Proof.
  intros Hm. unfold shr_fexp. set (f := fexp prec emax (Zdigits2 m + e)).
  destruct (Z_lt_le_dec e f) as [Hlt|Hle].
  - assert (Hrec : exists r s, shr_record_of_loc m l = Build_shr_record m r s)
      by (destruct l as [|[]]; simpl; eauto).
    destruct Hrec as (r & s & ->).
    destruct (shr_pos m r s e (f - e) Hm ltac:(lia)) as (mrs & Heq & Hmm & Hr).
    exists mrs. rewrite Heq. split; [f_equal; lia|]. split.
    + rewrite Hmm. apply Z.div_pos; [lia|apply Z.pow_pos_nonneg; lia].
    + split; [done|lia].
  - exists (shr_record_of_loc m l). rewrite shr_nonpos by lia.
    split; [f_equal; lia|]. split; [now rewrite shr_record_of_loc_m|].
    split; [lia|done].
Qed.

(** The digits that are left after the shift of [shr_fexp]. *)
Lemma shr_fexp_digits (m e : Z) (l : location) (mrs : shr_record) (e' : Z) :
  0 <= m -> shr_fexp prec emax m e l = (mrs, e') ->
  e' = Z.max e (fexp prec emax (Zdigits2 m + e))
  /\ 0 <= shr_m mrs
  /\ Zdigits2 (shr_m mrs) + e' = Z.max (Zdigits2 m + e) e'.
Proof.
  intros Hm Heq. destruct (shr_fexp_result m e l Hm) as (mrs' & Heq' & Hnn & Hlt & Hle).
  rewrite Heq in Heq'. injection Heq' as <- ->. split; [done|]. split; [done|].
  pose proof (Zdigits2_nonneg m).
  destruct (Z_lt_le_dec e (fexp prec emax (Zdigits2 m + e))) as [H1|H1].
  - destruct (Hlt H1) as [-> _]. rewrite Zdigits2_div_pow2 by lia. lia.
  - rewrite (Hle H1), shr_record_of_loc_m. lia.
Qed.

(** The result of rounding is a number as soon as the magnitude of what is
    rounded leaves room for a carry. *)
Lemma binary_round_aux_bounded (sx : bool) (mx ex : Z) (lx : location) :
  0 <= mx -> Zdigits2 mx + ex <= 1023 -> ex <= 971 ->
  SFbounded sx (Z.max (Zdigits2 mx + ex) (-1074) + 1)
    (binary_round_aux prec emax sx mx ex lx).
Proof.
  intros Hmx Hmag Hex. pose proof (Zdigits2_nonneg mx) as Hnn. unfold binary_round_aux.
  destruct (shr_fexp prec emax mx ex lx) as [mrs1 e1] eqn:H1.
  destruct (shr_fexp_digits mx ex lx mrs1 e1 Hmx H1) as (He1 & Hm1 & Hd1).
  pose proof (round_nearest_even_bounds (shr_m mrs1) (loc_of_shr_record mrs1)) as Hrnd.
  set (m2 := round_nearest_even (shr_m mrs1) (loc_of_shr_record mrs1)) in *.
  destruct (shr_fexp prec emax m2 e1 loc_Exact) as [mrs2 e2] eqn:H2.
  destruct (shr_fexp_digits m2 e1 loc_Exact mrs2 e2 ltac:(lia) H2) as (He2 & Hm2 & Hd2).
  pose proof (Zdigits2_mono (shr_m mrs1) m2 ltac:(lia)) as Hmono.
  pose proof (Zdigits2_mono m2 (shr_m mrs1 + 1) ltac:(lia)) as Hmono'.
  pose proof (Zdigits2_succ (shr_m mrs1) Hm1) as Hsucc.
  rewrite fexp_eq in He1, He2.
  destruct (shr_m mrs2) as [|p|p] eqn:Hp; [done| |lia].
  cbn [Zdigits2] in Hd2.
  destruct (Z.leb_spec e2 (emax - prec)) as [Hfin|Hinf]; cbn [SFbounded].
  - split; [done|]. lia.
  - unfold emax, prec in Hinf. lia.
Qed.


Lemma SFbounded_le (s : bool) (k k' : Z) (x : spec_float) :
  SFbounded s k x -> k <= k' -> SFbounded s k' x.
Proof. destruct x; simpl; try done. intros [? ?] ?. split; [done|lia]. Qed.

(** At the top of the range, the result of rounding is a number as long as
    what is rounded is below the midpoint between the largest number and the
    next power of two. *)
Lemma binary_round_aux_threshold (sx : bool) (mx ex : Z) (lx : location) :
  0 <= mx -> ex <= 971 -> (ex = 971 -> lx = loc_Exact) ->
  2 * mx < (2 ^ 54 - 1) * 2 ^ (971 - ex) ->
  SFbounded sx 1024 (binary_round_aux prec emax sx mx ex lx).
Proof.
  intros Hmx Hex Hlx Hthr.
  assert (Hdig : Zdigits2 mx + ex <= 1024).
  { enough (Zdigits2 mx <= 1024 - ex) by lia.
    apply Zdigits2_le; [lia..|].
    replace (1024 - ex) with (53 + (971 - ex)) by lia.
    rewrite Z.pow_add_r by lia.
    assert (0 < 2 ^ (971 - ex)) by (apply Z.pow_pos_nonneg; lia). nia. }
  destruct (Z_le_gt_dec (Zdigits2 mx + ex) 1023) as [Hlow|Htop].
  { eapply SFbounded_le; [apply binary_round_aux_bounded; lia|lia]. }
  assert (HM : Zdigits2 mx + ex = 1024) by lia. clear Hdig Htop.
  unfold binary_round_aux.
  destruct (shr_fexp_result mx ex lx Hmx) as (mrs1 & H1 & Hm1 & Hshift & Hkeep).
  rewrite HM in H1, Hshift, Hkeep. rewrite fexp_eq in H1, Hshift, Hkeep.
  replace (Z.max (1024 - 53) (-1074)) with 971 in * by lia.
  replace (Z.max ex 971) with 971 in H1 by lia. rewrite H1.
  assert (Hm2 : 2 ^ 52 <= round_nearest_even (shr_m mrs1) (loc_of_shr_record mrs1) < 2 ^ 53).
  { destruct (Z.eq_dec ex 971) as [->|Hne].
    - rewrite Hkeep, (Hlx eq_refl) by lia. cbn [shr_record_of_loc loc_of_shr_record shr_m round_nearest_even].
      assert (Zdigits2 mx = 53) as Hd by lia.
      assert (0 < mx) by (destruct mx; simpl in Hd; lia).
      pose proof (Zdigits2_bounds mx ltac:(lia)) as Hb. rewrite Hd in Hb.
      change (53 - 1) with 52 in Hb. lia.
    - destruct Hshift as [Hmm Hr]; [lia|].
      assert (Hd1 : Zdigits2 (shr_m mrs1) = 53).
      { rewrite Hmm, Zdigits2_div_pow2 by lia. lia. }
      assert (0 < shr_m mrs1) by (destruct (shr_m mrs1); simpl in Hd1; lia).
      pose proof (Zdigits2_bounds (shr_m mrs1) ltac:(lia)) as Hb. rewrite Hd1 in Hb.
      change (53 - 1) with 52 in Hb.
      pose proof (round_nearest_even_bounds (shr_m mrs1) (loc_of_shr_record mrs1)) as Hrnd.
      split; [lia|].
      destruct (Z.eq_dec (round_nearest_even (shr_m mrs1) (loc_of_shr_record mrs1)) (shr_m mrs1))
        as [->|Hup]; [lia|].
      apply round_nearest_even_up in Hup. rewrite Hr in Hup.
      apply testbit_true_ge in Hup; [|lia..]. rewrite <- Hmm in Hup.
      destruct (Z.eq_dec (shr_m mrs1) (2 ^ 53 - 1)) as [Heq|]; [exfalso|lia].
      rewrite Heq in Hup.
      replace (971 - ex) with (Z.succ (971 - ex - 1)) in Hthr by lia.
      rewrite Z.pow_succ_r in Hthr by lia.
      assert (0 < 2 ^ (971 - ex - 1)) by (apply Z.pow_pos_nonneg; lia).
      change (2 * (2 ^ 53 - 1) + 1) with (2 ^ 54 - 1) in Hup. lia. }
  set (m2 := round_nearest_even (shr_m mrs1) (loc_of_shr_record mrs1)) in *.
  assert (Hd2 : Zdigits2 m2 = 53).
  { apply Z.le_antisymm; [apply Zdigits2_le; lia|].
    change 53 with (52 + 1). apply Zdigits2_ge; lia. }
  destruct (shr_fexp_result m2 971 loc_Exact ltac:(lia)) as (mrs2 & H2 & _ & _ & Hkeep2).
  rewrite Hd2, fexp_eq in H2, Hkeep2. rewrite H2, Hkeep2 by lia.
  cbn [shr_record_of_loc shr_m].
  destruct m2 as [|p|p]; [lia| |lia]. cbn [Zdigits2] in Hd2.
  change (Z.max 971 (Z.max (53 + 971 - 53) (-1074)) <=? emax - prec) with true.
  cbn [SFbounded]. split; [done|]. lia.
Qed.

End Round.

Section Normalize.
Local Open Scope Z_scope.

Lemma iter_xO (d : positive) (m : positive) :
  Z.pos (Pos.iter xO m d) = Z.pos m * 2 ^ Z.pos d.
Proof.
  rewrite Pos2Nat.inj_iter, <- (positive_nat_Z d).
  induction (Pos.to_nat d) as [|n IH]; [simpl; lia|].
  rewrite Nat2Z.inj_succ, Z.pow_succ_r by lia. cbn [nat_rect].
  rewrite Pos2Z.inj_xO, IH. lia.
Qed.

Lemma shl_align_spec (mx : positive) (ex ex' : Z) :
  exists mz,
    shl_align mx ex ex' = (mz, Z.min ex ex')
    /\ Z.pos mz = Z.pos mx * 2 ^ (ex - Z.min ex ex').
Proof.
  unfold shl_align. destruct (ex' - ex) as [|d|d] eqn:Hd.
  - exists mx. rewrite Z.min_l by lia. rewrite Z.sub_diag. split; [done|lia].
  - exists mx. rewrite Z.min_l by lia. rewrite Z.sub_diag. split; [done|lia].
  - exists (Pos.iter xO mx d). rewrite Z.min_r by lia. split; [done|].
    rewrite iter_xO. f_equal. f_equal. lia.
Qed.

Lemma binary_round_threshold (sx : bool) (mx : positive) (ex : Z) :
  ex <= 971 -> 2 * Z.pos mx < (2 ^ 54 - 1) * 2 ^ (971 - ex) ->
  SFbounded sx 1024 (binary_round prec emax sx mx ex).
Proof.
  intros Hex Hthr. unfold binary_round.
  destruct (shl_align_spec mx ex (fexp prec emax (Z.pos (digits2_pos mx) + ex)))
    as (mz & -> & Hmz).
  set (ez := Z.min ex _) in *.
  apply binary_round_aux_threshold; [lia|lia|done|].
  rewrite Hmz. replace (971 - ez) with ((971 - ex) + (ex - ez)) by lia.
  rewrite Z.pow_add_r by lia.
  assert (0 < 2 ^ (ex - ez)) by (apply Z.pow_pos_nonneg; lia). nia.
Qed.

(** In the range of the normal numbers, rounding keeps the magnitude or
    raises it by one. *)
Lemma binary_round_aux_normal (sx : bool) (mx ex : Z) (lx : location) :
  0 < mx -> -1021 <= Zdigits2 mx + ex <= 1023 -> ex <= 971 ->
  exists m e,
    binary_round_aux prec emax sx mx ex lx = S754_finite sx m e
    /\ Zdigits2 mx + ex <= Z.pos (digits2_pos m) + e <= Zdigits2 mx + ex + 1.
Proof.
  intros Hmx HM Hex.
  pose proof (binary_round_aux_bounded sx mx ex lx ltac:(lia) ltac:(lia) Hex) as Hb.
  pose proof (Zdigits2_pos mx Hmx) as Hdpos.
  unfold binary_round_aux in *.
  destruct (shr_fexp prec emax mx ex lx) as [mrs1 e1] eqn:H1.
  destruct (shr_fexp_digits mx ex lx mrs1 e1 ltac:(lia) H1) as (He1 & Hm1 & Hd1).
  pose proof (round_nearest_even_bounds (shr_m mrs1) (loc_of_shr_record mrs1)) as Hrnd.
  set (m2 := round_nearest_even (shr_m mrs1) (loc_of_shr_record mrs1)) in *.
  destruct (shr_fexp prec emax m2 e1 loc_Exact) as [mrs2 e2] eqn:H2.
  destruct (shr_fexp_digits m2 e1 loc_Exact mrs2 e2 ltac:(lia) H2) as (He2 & Hm2 & Hd2).
  pose proof (Zdigits2_mono (shr_m mrs1) m2 ltac:(lia)) as Hmono.
  rewrite fexp_eq in He1, He2.
  destruct (shr_m mrs2) as [|p|p] eqn:Hp; [cbn [Zdigits2] in Hd2; lia| |lia].
  cbn [Zdigits2] in Hd2.
  destruct (Z.leb_spec e2 (emax - prec)) as [Hfin|Hinf]; cbn [SFbounded] in Hb; [|done].
  exists p, e2. split; [done|]. lia.
Qed.

Lemma binary_round_normal (sx : bool) (mx : positive) (ex : Z) :
  -1021 <= Z.pos (digits2_pos mx) + ex <= 1023 ->
  exists m e,
    binary_round prec emax sx mx ex = S754_finite sx m e
    /\ Z.pos (digits2_pos mx) + ex <= Z.pos (digits2_pos m) + e
       <= Z.pos (digits2_pos mx) + ex + 1.
Proof.
  intros HM. unfold binary_round.
  destruct (shl_align_spec mx ex (fexp prec emax (Z.pos (digits2_pos mx) + ex)))
    as (mz & -> & Hmz).
  set (ez := Z.min ex _) in *.
  assert (Hd : Zdigits2 (Z.pos mz) + ez = Z.pos (digits2_pos mx) + ex).
  { rewrite Hmz, Zdigits2_mul_pow2 by lia. cbn [Zdigits2]. lia. }
  rewrite <- Hd. apply binary_round_aux_normal; [lia|lia|].
  subst ez. rewrite fexp_eq. lia.
Qed.

End Normalize.

Section Operations.
Local Open Scope Z_scope.

Lemma valid_binary_finite (s : bool) (m : positive) (e : Z) :
  valid_binary (S754_finite s m e) = true ->
  Z.pos (digits2_pos m) <= 53 /\ -1074 <= e <= 971
  /\ Z.max (Z.pos (digits2_pos m) + e - 53) (-1074) = e.
Proof.
  unfold SpecFloat.valid_binary, bounded, canonical_mantissa.
  intros [Hc He]%andb_prop. apply Z.leb_le in He. apply Z.eqb_eq in Hc.
  rewrite fexp_eq in Hc. unfold emax, prec in He. lia.
Qed.

Lemma shifted_mantissa (m s : Z) :
  0 <= s ->
  match s with Z.pos _ => Z.shiftl m s | Z0 => m | Z.neg _ => 0 end = m * 2 ^ s.
Proof.
  intros Hs. destruct s as [|p|p]; [simpl; lia| |lia].
  now rewrite Z.shiftl_mul_pow2.
Qed.

Lemma Zdigits2_quotient (a b da db : Z) :
  0 <= a -> 0 < b -> 0 <= da -> 0 < db -> a < 2 ^ da -> 2 ^ (db - 1) <= b ->
  Zdigits2 (a / b) <= Z.max (da - db + 1) 0.
Proof.
  intros Ha Hb Hda Hdb Hlt Hge.
  assert (0 <= a / b) by (apply Z.div_pos; lia).
  apply Zdigits2_le; [done|lia|].
  apply Z.div_lt_upper_bound; [done|].
  destruct (Z_le_gt_dec db (da + 1)) as [Hle|Hgt].
  - rewrite Z.max_l by lia.
    apply Z.lt_le_trans with (2 ^ da); [done|].
    replace da with ((db - 1) + (da - db + 1)) at 1 by lia.
    rewrite Z.pow_add_r by lia.
    assert (0 < 2 ^ (da - db + 1)) by (apply Z.pow_pos_nonneg; lia). nia.
  - rewrite Z.max_r by lia. change (2 ^ 0) with 1.
    apply Z.lt_le_trans with (2 ^ da); [done|].
    apply Z.le_trans with (2 ^ (db - 1)); [|lia].
    apply Z.pow_le_mono_r; lia.
Qed.

Lemma SFdiv_core_binary_eq (mx : positive) (ex : Z) (my : positive) (ey : Z) :
  let e' := Z.min (fexp prec emax (Z.pos (digits2_pos mx) + ex
                                   - (Z.pos (digits2_pos my) + ey))) (ex - ey) in
  let m' := Z.pos mx * 2 ^ (ex - ey - e') in
  SFdiv_core_binary prec emax (Z.pos mx) ex (Z.pos my) ey
  = (m' / Z.pos my, e', new_location (Z.pos my) (m' mod Z.pos my)).
Proof.
  intros e' m'. unfold SFdiv_core_binary. cbn [Zdigits2]. fold e'.
  rewrite shifted_mantissa by lia. fold m'.
  unfold Z.div, Z.modulo. now destruct (Z.div_eucl m' (Z.pos my)).
Qed.

(** A quotient by a number of magnitude 2 or more. *)
Lemma SFdiv_bounded (sx : bool) (x : spec_float) (my : positive) (ey : Z) :
  SFbounded sx 1024 x ->
  2 <= Z.pos (digits2_pos my) + ey ->
  SFbounded sx 1024 (SFdiv prec emax x (S754_finite false my ey)).
Proof.
  intros Hx Hy. destruct x as [s| | |s mx ex]; try done.
  { simpl in *. subst. now destruct sx. }
  destruct Hx as [-> Hx]. cbn [SFdiv]. rewrite SFdiv_core_binary_eq.
  set (e' := Z.min _ _). set (m' := Z.pos mx * 2 ^ (ex - ey - e')).
  replace (xorb sx false) with sx by now destruct sx.
  pose proof (Zdigits2_bounds (Z.pos mx) ltac:(lia)) as Hbx. cbn [Zdigits2] in Hbx.
  pose proof (Zdigits2_bounds (Z.pos my) ltac:(lia)) as Hby. cbn [Zdigits2] in Hby.
  assert (He' : e' <= ex - ey) by (subst e'; lia).
  assert (Hpow : 0 < 2 ^ (ex - ey - e')) by (apply Z.pow_pos_nonneg; lia).
  assert (Hq : Zdigits2 (m' / Z.pos my)
               <= Z.max (Z.pos (digits2_pos mx) + (ex - ey - e') - Z.pos (digits2_pos my) + 1) 0).
  { apply Zdigits2_quotient; [subst m'; lia|lia|lia|lia| |lia].
    subst m'. rewrite Z.pow_add_r by lia. nia. }
  assert (He971 : e' <= 971) by (subst e'; rewrite fexp_eq; lia).
  eapply SFbounded_le.
  - apply binary_round_aux_bounded; [|lia|done].
    apply Z.div_pos; subst m'; lia.
  - lia.
Qed.

(** [S754_finite false 2^52 (-52)] is the number 1. *)
Lemma SFdiv_one (sx : bool) (x : spec_float) :
  SFbounded sx 1024 x -> valid_binary x = true ->
  SFbounded sx 1024 (SFdiv prec emax x (S754_finite false 4503599627370496 (-52))).
Proof.
  intros Hx Hv. destruct x as [s| | |s mx ex]; try done.
  { simpl in *. subst. now destruct sx. }
  destruct Hx as [-> Hx]. apply valid_binary_finite in Hv as (Hd & He & Hc).
  cbn [SFdiv]. rewrite SFdiv_core_binary_eq.
  change (Z.pos (digits2_pos 4503599627370496)) with 53.
  set (e' := Z.min _ _). set (m' := Z.pos mx * 2 ^ (ex - -52 - e')).
  replace (xorb sx false) with sx by now destruct sx.
  assert (He' : ex - 1 <= e' <= ex /\ -1074 <= e').
  { subst e'. rewrite fexp_eq. lia. }
  pose proof (Zdigits2_bounds (Z.pos mx) ltac:(lia)) as Hbx. cbn [Zdigits2] in Hbx.
  assert (Hm' : m' = (Z.pos mx * 2 ^ (ex - e')) * 4503599627370496).
  { subst m'. replace (ex - -52 - e') with ((ex - e') + 52) by lia.
    rewrite Z.pow_add_r by lia. change (2 ^ 52) with 4503599627370496. lia. }
  rewrite Hm', Z.div_mul, Z.mod_mul by lia.
  change (new_location 4503599627370496 0) with loc_Exact.
  apply binary_round_aux_threshold; [lia|lia|done|].
  replace (971 - e') with ((971 - ex) + (ex - e')) by lia.
  rewrite Z.pow_add_r by lia.
  assert (0 < 2 ^ (ex - e')) by (apply Z.pow_pos_nonneg; lia).
  assert (1 <= 2 ^ (971 - ex)) by (apply (Z.pow_le_mono_r 2 0); lia).
  assert (Z.pos mx < 2 ^ 53).
  { apply Z.lt_le_trans with (2 ^ Z.pos (digits2_pos mx)); [lia|].
    apply Z.pow_le_mono_r; lia. }
  nia.
Qed.

Lemma SFsqrt_core_binary_eq (mx : positive) (ex : Z) :
  let e' := Z.min (fexp prec emax (Z.div2 (Z.pos (digits2_pos mx) + ex + 1))) (Z.div2 ex) in
  exists l,
    SFsqrt_core_binary prec emax (Z.pos mx) ex
    = (Z.sqrt (Z.pos mx * 2 ^ (ex - 2 * e')), e', l).
Proof.
  intros e'. unfold SFsqrt_core_binary. cbn [Zdigits2]. fold e'.
  assert (2 * Z.div2 ex <= ex) by (rewrite Z.div2_div; apply Z.mul_div_le; lia).
  rewrite shifted_mantissa by lia.
  rewrite <- Z.sqrtrem_sqrt.
  destruct (Z.sqrtrem _) as [q r]. eexists. reflexivity.
Qed.

(** The square root of a number that is not negative. *)
Lemma SFsqrt_bounded (x : spec_float) :
  SFbounded false 1024 x -> SFbounded false 513 (SFsqrt prec emax x).
Proof.
  intros Hx. destruct x as [s| | |s mx ex]; try done.
  destruct Hx as [-> Hx]. cbn [SFsqrt].
  destruct (SFsqrt_core_binary_eq mx ex) as (l & ->).
  set (d := Z.pos (digits2_pos mx)) in *.
  set (e' := Z.min _ _). set (m' := Z.pos mx * 2 ^ (ex - 2 * e')).
  assert (H2 : 2 * Z.div2 ex <= ex) by (rewrite Z.div2_div; apply Z.mul_div_le; lia).
  assert (He' : 2 * e' <= ex) by (subst e'; lia).
  pose proof (Zdigits2_bounds (Z.pos mx) ltac:(lia)) as Hbx. cbn [Zdigits2] in Hbx.
  fold d in Hbx.
  assert (Hpow : 0 < 2 ^ (ex - 2 * e')) by (apply Z.pow_pos_nonneg; lia).
  assert (Hm' : 0 <= m' < 2 ^ (d + (ex - 2 * e'))).
  { subst m'. rewrite Z.pow_add_r by lia. nia. }
  pose proof (Z.sqrt_nonneg m') as Hq0.
  pose proof (Z.sqrt_spec m' ltac:(lia)) as [Hq _].
  set (k := (d + (ex - 2 * e') + 1) / 2).
  assert (Hk : d + (ex - 2 * e') <= 2 * k /\ 2 * k <= d + (ex - 2 * e') + 1).
  { subst k. pose proof (Z.div_mod (d + (ex - 2 * e') + 1) 2 ltac:(lia)).
    pose proof (Z.mod_pos_bound (d + (ex - 2 * e') + 1) 2 ltac:(lia)). lia. }
  assert (Hqk : Z.sqrt m' < 2 ^ k).
  { apply Z.nle_gt. intros Hge.
    assert (2 ^ (2 * k) <= m').
    { replace (2 * k) with (k + k) by lia. rewrite Z.pow_add_r by lia.
      assert (0 < 2 ^ k) by (apply Z.pow_pos_nonneg; lia). nia. }
    assert (2 ^ (d + (ex - 2 * e')) <= 2 ^ (2 * k)) by (apply Z.pow_le_mono_r; lia).
    lia. }
  pose proof (Zdigits2_le (Z.sqrt m') k Hq0 ltac:(lia) Hqk) as Hdq.
  assert (He971 : e' <= 971).
  { subst e'. rewrite fexp_eq, Z.div2_div.
    assert ((d + ex + 1) / 2 < 513) by (apply Z.div_lt_upper_bound; lia). lia. }
  eapply SFbounded_le.
  - apply binary_round_aux_bounded; [done| |done]. lia.
  - lia.
Qed.

(** A product of numbers whose magnitudes leave room. *)
Lemma SFmul_bounded (sx sy : bool) (kx ky : Z) (x y : spec_float) :
  SFbounded sx kx x -> SFbounded sy ky y ->
  -1074 <= kx + ky <= 1023 ->
  valid_binary x = true -> valid_binary y = true ->
  SFbounded (xorb sx sy) (kx + ky + 1) (SFmul prec emax x y).
Proof.
  intros Hx Hy Hk Hvx Hvy.
  destruct x as [s| | |s mx ex], y as [s'| | |s' my ey]; try done;
    cbn [SFbounded SFmul] in Hx, Hy |- *;
    [now subst|destruct Hy; now subst|destruct Hx; now subst|].
  destruct Hx as [-> Hx], Hy as [-> Hy].
  apply valid_binary_finite in Hvx as (Hdx & Hex & Hcx), Hvy as (Hdy & Hey & Hcy).
  pose proof (Zdigits2_bounds (Z.pos mx) ltac:(lia)) as Hbx. cbn [Zdigits2] in Hbx.
  pose proof (Zdigits2_bounds (Z.pos my) ltac:(lia)) as Hby. cbn [Zdigits2] in Hby.
  assert (Hd : Zdigits2 (Z.pos (mx * my))
               <= Z.pos (digits2_pos mx) + Z.pos (digits2_pos my)).
  { apply Zdigits2_le; [lia|lia|]. rewrite Pos2Z.inj_mul, Z.pow_add_r by lia. nia. }
  eapply SFbounded_le.
  - apply binary_round_aux_bounded; [lia|lia|].
    pose proof (Pos2Z.is_pos (digits2_pos mx)). pose proof (Pos2Z.is_pos (digits2_pos my)).
    lia.
  - lia.
Qed.


(** A sum of a number and of a number of magnitude 515 or less. *)
Lemma SFadd_bounded (sx sy : bool) (x y : spec_float) :
  SFbounded sx 1024 x -> valid_binary x = true -> SFbounded sy 515 y ->
  exists s, SFbounded s 1024 (SFadd prec emax x y).
Proof.
  intros Hx Hvx Hy.
  destruct x as [s| | |s mx ex], y as [s'| | |s' my ey]; try done.
  - exists (if s then s' else false). cbn [SFadd]. now destruct s, s'.
  - exists sy. cbn [SFadd]. eapply SFbounded_le; [exact Hy|lia].
  - exists sx. exact Hx.
  - destruct Hx as [-> Hx], Hy as [-> Hy].
    apply valid_binary_finite in Hvx as (Hdx & Hex & _).
    cbn [SFadd]. set (ez := Z.min ex ey).
    destruct (shl_align_spec mx ex ez) as (mzx & -> & Hmzx).
    destruct (shl_align_spec my ey ez) as (mzy & -> & Hmzy).
    cbn [fst]. replace (Z.min ex ez) with ez in Hmzx by lia.
    replace (Z.min ey ez) with ez in Hmzy by lia.
    pose proof (Zdigits2_bounds (Z.pos mx) ltac:(lia)) as Hbx. cbn [Zdigits2] in Hbx.
    pose proof (Zdigits2_bounds (Z.pos my) ltac:(lia)) as Hby. cbn [Zdigits2] in Hby.
    pose proof (Pos2Z.is_pos (digits2_pos my)) as Hdy.
    set (A := 2 ^ (971 - ez)).
    assert (HA : 0 < A) by (apply Z.pow_pos_nonneg; lia).
    assert (Hx' : Z.pos mzx <= (2 ^ 53 - 1) * A).
    { rewrite Hmzx.
      assert (Z.pos mx <= 2 ^ 53 - 1).
      { enough (2 ^ Z.pos (digits2_pos mx) <= 2 ^ 53) by lia.
        apply Z.pow_le_mono_r; lia. }
      assert (0 < 2 ^ (ex - ez) <= A).
      { split; [apply Z.pow_pos_nonneg; lia|apply Z.pow_le_mono_r; lia]. }
      nia. }
    assert (Hy' : 2 * Z.pos mzy < A).
    { rewrite Hmzy.
      assert (0 < 2 ^ (ey - ez)) by (apply Z.pow_pos_nonneg; lia).
      assert (2 * (Z.pos my * 2 ^ (ey - ez)) < 2 ^ (1 + Z.pos (digits2_pos my) + (ey - ez))).
      { rewrite !Z.pow_add_r by lia. change (2 ^ 1) with 2. nia. }
      assert (2 ^ (1 + Z.pos (digits2_pos my) + (ey - ez)) <= A)
        by (apply Z.pow_le_mono_r; lia).
      lia. }
    change (2 ^ 53 - 1) with 9007199254740991 in Hx'.
    assert (Hthr : forall p, Z.pos p <= Z.pos mzx + Z.pos mzy ->
                     forall s, SFbounded s 1024 (binary_round prec emax s p ez)).
    { intros p Hp s. apply binary_round_threshold; [lia|]. fold A.
      change (2 ^ 54 - 1) with 18014398509481983. lia. }
    destruct (cond_Zopp sx (Z.pos mzx) + cond_Zopp sy (Z.pos mzy)) as [|p|p] eqn:Hsum;
      cbn [binary_normalize].
    + now exists false.
    + exists false. apply Hthr. destruct sx, sy; simpl in Hsum; lia.
    + exists true. apply Hthr. destruct sx, sy; simpl in Hsum; lia.
Qed.

End Operations.

(** ** From [SpecFloat] to [float64] *)

Section Lift.
Local Open Scope Z_scope.

Lemma is_number_SF (x : float) :
  is_number x = true <-> exists s, SFbounded s 1024 (Prim2SF x).
Proof.
  unfold is_number, math.IsNaN, math.IsInf. simpl.
  rewrite !FloatAxioms.eqb_spec.
  change (Prim2SF infinity) with (S754_infinity false).
  change (Prim2SF neg_infinity) with (S754_infinity true).
  pose proof (Prim2SF_valid x) as Hv. unfold SFeqb.
  destruct (Prim2SF x) as [s|s| |s m e] eqn:Hx.
  - simpl. split; [intros _; now exists s|done].
  - destruct s; simpl; (split; [done|intros [? []]]).
  - simpl. split; [done|intros [? []]].
  - rewrite SFcompare_refl by done. simpl. split; [intros _|done].
    exists s. split; [done|]. apply valid_binary_finite in Hv. lia.
Qed.

Lemma float64_SF (v : Z) :
  0 <= v <= GoInt.MaxInt ->
  Prim2SF (math.float64 v) = binary_normalize prec emax v 0 false.
Proof.
  intros Hv. unfold math.float64. apply Prim2SF_SF2Prim.
  assert (Heq : Uint63.to_Z (Uint63.of_Z v) = v).
  { rewrite Uint63.of_Z_spec. apply Z.mod_small. unfold GoInt.MaxInt in Hv.
    change Uint63.wB with (2 ^ 63). lia. }
  rewrite <- Heq, <- of_uint63_spec. apply Prim2SF_valid.
Qed.

Lemma float64_one :
  Prim2SF (math.float64 1) = S754_finite false 4503599627370496 (-52).
Proof. rewrite float64_SF by (unfold GoInt.MaxInt; lia). reflexivity. Qed.

Lemma float64_large (v : Z) :
  2 <= v <= GoInt.MaxInt ->
  exists m e, Prim2SF (math.float64 v) = S754_finite false m e
              /\ 2 <= Z.pos (digits2_pos m) + e.
Proof.
  intros Hv. rewrite float64_SF by lia. unfold GoInt.MaxInt in Hv.
  destruct v as [|p|p]; try lia. cbn [binary_normalize].
  pose proof (Zdigits2_ge (Z.pos p) 1 ltac:(lia) ltac:(lia)) as Hlo.
  pose proof (Zdigits2_le (Z.pos p) 63 ltac:(lia) ltac:(lia) ltac:(lia)) as Hhi.
  cbn [Zdigits2] in Hlo, Hhi.
  destruct (binary_round_normal false p 0 ltac:(lia)) as (m & e & -> & Hm).
  exists m, e. split; [done|lia].
Qed.

(** A number divided by the [float64] of a positive [int] is a number, of
    the same sign. *)
Lemma div_float64_bounded (s : bool) (x : float) (v : Z) :
  SFbounded s 1024 (Prim2SF x) -> 1 <= v <= GoInt.MaxInt ->
  SFbounded s 1024 (Prim2SF (x / math.float64 v)).
Proof.
  intros Hx Hv. rewrite div_spec. unfold SF64div.
  destruct (Z.eq_dec v 1) as [->|Hne].
  - rewrite float64_one. apply SFdiv_one; [done|apply Prim2SF_valid].
  - destruct (float64_large v ltac:(lia)) as (m & e & -> & Hm).
    now apply SFdiv_bounded.
Qed.

Lemma div_float64_zero (s : bool) (x : float) (v : Z) :
  Prim2SF x = S754_zero s -> 1 <= v <= GoInt.MaxInt ->
  Prim2SF (x / math.float64 v) = S754_zero s.
Proof.
  intros Hx Hv. rewrite div_spec, Hx. unfold SF64div.
  destruct (Z.eq_dec v 1) as [->|Hne].
  - rewrite float64_one. now destruct s.
  - destruct (float64_large v ltac:(lia)) as (m & e & -> & _). now destruct s.
Qed.

(** The value that [UCTValue] computes for a visited node is a number, as
    long as the total reward is one and the logarithm of the parent's count
    is a number that is not negative. *)
Lemma UCT_formula_number (t L : float) (v : Z) :
  is_number t = true -> (1 <= v <= GoInt.MaxInt) ->
  math.le 0 L = true -> math.IsInf L 1 = false ->
  is_number (t / math.float64 v + math.C * math.Sqrt (L / math.float64 v)) = true.
Proof.
  intros Ht Hv HL0 HLinf.
  apply is_number_SF in Ht as [st Ht].
  pose proof (div_float64_bounded st t v Ht Hv) as Ha.
  assert (Hb : exists s, SFbounded s 515
                 (Prim2SF (math.C * math.Sqrt (L / math.float64 v)))).
  { assert (Hr : exists s, SFbounded s 513 (Prim2SF (math.Sqrt (L / math.float64 v)))).
    { unfold math.Sqrt. rewrite sqrt_spec. unfold SF64sqrt.
      unfold math.le in HL0. rewrite leb_spec in HL0.
      unfold math.IsInf in HLinf. simpl in HLinf. rewrite FloatAxioms.eqb_spec in HLinf.
      change (Prim2SF 0) with (S754_zero false) in HL0.
      change (Prim2SF infinity) with (S754_infinity false) in HLinf.
      pose proof (Prim2SF_valid L) as HvL.
      destruct (Prim2SF L) as [s|s| |s m e] eqn:HL.
      - rewrite (div_float64_zero s L v HL Hv). now exists s.
      - destruct s; done.
      - done.
      - destruct s; [done|].
        assert (HLb : SFbounded false 1024 (Prim2SF L)).
        { rewrite HL. split; [done|]. apply valid_binary_finite in HvL. lia. }
        pose proof (div_float64_bounded false L v HLb Hv) as Hq.
        exists false. now apply SFsqrt_bounded. }
    destruct Hr as [s Hr]. exists (xorb false s).
    rewrite mul_spec. unfold SF64mul.
    apply (SFmul_bounded false s 1 513); [|done|lia|apply Prim2SF_valid..].
    vm_compute. split; [done|]. discriminate. }
  destruct Hb as [sb Hb].
  apply is_number_SF. rewrite add_spec. unfold SF64add.
  eapply SFadd_bounded; [exact Ha|apply Prim2SF_valid|exact Hb].
Qed.

End Lift.

(** ** The order of [float64] *)

Section Order.
Local Open Scope Z_scope.

Lemma SFcompare_key (x y : spec_float) :
  x <> S754_nan -> y <> S754_nan ->
  exists c, SFcompare x y = Some c
    /\ (c = Lt <-> lex_lt (SFkey x) (SFkey y))
    /\ (c = Gt <-> lex_lt (SFkey y) (SFkey x)).
Proof.
  intros Hx Hy. unfold lex_lt.
  assert (Hpos : forall a b : positive,
            Pos.compare_cont Eq a b = Pos.compare a b) by reflexivity.
  destruct x as [[]|[]| |[] mx ex], y as [[]|[]| |[] my ey]; try done;
    cbn [SFcompare SFkey fst snd];
    try (eexists; split; [reflexivity|];
         split; split; intros Hc; first [discriminate Hc | reflexivity | lia]).
  - rewrite Hpos.
    destruct (Z.compare_spec ex ey) as [->| |];
      [destruct (Pos.compare_spec mx my)|..];
      (eexists; split; [reflexivity|];
       split; split; intros Hc; first [discriminate Hc | reflexivity | simpl; lia]).
  - rewrite Hpos.
    destruct (Z.compare_spec ex ey) as [->| |];
      [destruct (Pos.compare_spec mx my)|..];
      (eexists; split; [reflexivity|];
       split; split; intros Hc; first [discriminate Hc | reflexivity | simpl; lia]).
Qed.

Lemma IsNaN_SF (x : float) : math.IsNaN x = true <-> Prim2SF x = S754_nan.
Proof.
  unfold math.IsNaN. rewrite FloatAxioms.eqb_spec. unfold SFeqb.
  destruct (Prim2SF x) eqn:Hx; try (rewrite SFcompare_refl by done; simpl; split; done).
  simpl. split; done.
Qed.

Lemma IsNaN_false_SF (x : float) : math.IsNaN x = false <-> Prim2SF x <> S754_nan.
Proof.
  rewrite <- IsNaN_SF. destruct (math.IsNaN x); split; congruence.
Qed.

Lemma gt_key (x y : float) :
  math.gt x y = true
  <-> math.IsNaN x = false /\ math.IsNaN y = false
      /\ lex_lt (SFkey (Prim2SF y)) (SFkey (Prim2SF x)).
Proof.
  unfold math.gt. rewrite ltb_spec, !IsNaN_false_SF. unfold SFltb. split.
  - intros H.
    assert (Hy : Prim2SF y <> S754_nan) by (intros E; now rewrite E in H).
    assert (Hx : Prim2SF x <> S754_nan).
    { intros E. rewrite E in H. now destruct (Prim2SF y). }
    destruct (SFcompare_key _ _ Hy Hx) as (c & Hc & Hlt & _).
    rewrite Hc in H. split; [done|]. split; [done|]. apply Hlt. now destruct c.
  - intros (Hx & Hy & Hlt).
    destruct (SFcompare_key _ _ Hy Hx) as (c & Hc & Hlt' & _).
    rewrite Hc. apply Hlt' in Hlt. now subst.
Qed.

Lemma le_key (x y : float) :
  math.le x y = true
  <-> math.IsNaN x = false /\ math.IsNaN y = false
      /\ ~ lex_lt (SFkey (Prim2SF y)) (SFkey (Prim2SF x)).
Proof.
  unfold math.le. rewrite leb_spec, !IsNaN_false_SF. unfold SFleb. split.
  - intros H.
    assert (Hx : Prim2SF x <> S754_nan) by (intros E; now rewrite E in H).
    assert (Hy : Prim2SF y <> S754_nan).
    { intros E. rewrite E in H. now destruct (Prim2SF x). }
    destruct (SFcompare_key _ _ Hx Hy) as (c & Hc & _ & Hgt).
    rewrite Hc in H. split; [done|]. split; [done|]. intros Hlt. apply Hgt in Hlt.
    now subst.
  - intros (Hx & Hy & Hlt).
    destruct (SFcompare_key _ _ Hx Hy) as (c & Hc & _ & Hgt).
    rewrite Hc. destruct c; try done. exfalso. now apply Hlt, Hgt.
Qed.

Lemma gt_false_iff (x y : float) :
  math.gt x y = false
  <-> math.IsNaN x = true \/ math.IsNaN y = true
      \/ ~ lex_lt (SFkey (Prim2SF y)) (SFkey (Prim2SF x)).
Proof.
  pose proof (gt_key x y) as H.
  destruct (math.gt x y), (math.IsNaN x), (math.IsNaN y); split; intros; try tauto;
    try discriminate; intuition (try discriminate; tauto).
Qed.

Lemma gt_irrefl (x : float) : math.gt x x = false.
Proof. apply gt_false_iff. right. right. unfold lex_lt. lia. Qed.

Lemma gt_asym (x y : float) : math.gt x y = true -> math.gt y x = false.
Proof.
  intros (_ & _ & H)%gt_key. apply gt_false_iff. right. right.
  unfold lex_lt in *. lia.
Qed.

Lemma gt_trans (x y z : float) :
  math.gt x y = true -> math.gt y z = true -> math.gt x z = true.
Proof.
  intros (Hx & _ & H1)%gt_key (_ & Hz & H2)%gt_key. apply gt_key.
  split; [done|]. split; [done|]. unfold lex_lt in *. lia.
Qed.

Lemma gt_NaN_l (x y : float) : math.IsNaN x = true -> math.gt x y = false.
Proof. intros H. apply gt_false_iff. now left. Qed.

Lemma gt_not_NaN (x y : float) :
  math.gt x y = true -> math.IsNaN x = false /\ math.IsNaN y = false.
Proof. intros (Hx & Hy & _)%gt_key. done. Qed.

(** [y <= z < x] gives [y < x], when [y] is not NaN. *)
Lemma gt_le_trans (x y z : float) :
  math.gt x z = true -> math.gt y z = false -> math.IsNaN y = false ->
  math.gt x y = true.
Proof.
  intros (Hx & Hz & H1)%gt_key H2 Hy. apply gt_false_iff in H2.
  apply gt_key. split; [done|]. split; [done|].
  destruct H2 as [H2|[H2|H2]]; [congruence..|]. unfold lex_lt in *. lia.
Qed.

(** [y <= z < x] gives that [y] is not above [x]. *)
Lemma gt_false_below (x y z : float) :
  math.gt x z = true -> math.gt y z = false -> math.gt y x = false.
Proof.
  intros (Hx & Hz & H1)%gt_key H2. apply gt_false_iff in H2. apply gt_false_iff.
  destruct (math.IsNaN y) eqn:Hy; [tauto|]. right. right.
  destruct H2 as [H2|[H2|H2]]; [congruence..|]. unfold lex_lt in *. lia.
Qed.

Lemma not_gt_le (x y : float) :
  math.IsNaN x = false -> math.IsNaN y = false ->
  math.gt x y = false -> math.le x y = true.
Proof.
  intros Hx Hy H. apply gt_false_iff in H. apply le_key.
  destruct H as [H|[H|H]]; [congruence..|]. done.
Qed.

(** A number is not NaN, is above [-Inf] and below [+Inf]. *)
Lemma is_number_between (x : float) :
  is_number x = true ->
  math.IsNaN x = false /\ math.gt x (math.Inf (-1)) = true
  /\ math.gt (math.Inf 1) x = true.
Proof.
  intros [s Hx]%is_number_SF.
  assert (Hnan : math.IsNaN x = false).
  { apply IsNaN_false_SF. intros E. now rewrite E in Hx. }
  split; [done|]. split; apply gt_key; (split; [done|]); (split; [done|]).
  - change (Prim2SF (math.Inf (-1))) with (S754_infinity true).
    destruct (Prim2SF x) as [|[]| |[]]; try done; unfold lex_lt; simpl; lia.
  - change (Prim2SF (math.Inf 1)) with (S754_infinity false).
    destruct (Prim2SF x) as [|[]| |[]]; try done; unfold lex_lt; simpl; lia.
Qed.

End Order.

(** ** Pointers into the arena *)

Section Arena.
Context {S : Type}.
Implicit Types (h : heap S) (nd : Node S).

Lemma deref_Ok h n nd : deref h n = Ok nd <-> h !! n = Some nd.
Proof. unfold deref. destruct (h !! n); split; congruence. Qed.

Lemma deref_Some h n nd : h !! n = Some nd -> deref h n = Ok nd.
Proof. apply deref_Ok. Qed.

Lemma deref_None h n : h !! n = None -> deref h n = Panic.
Proof. unfold deref. now intros ->. Qed.

End Arena.

(** ** Paths *)

Section Paths.
Variable step : addr -> addr -> Prop.
Variable stop : addr -> Prop.
Hypothesis step_functional : forall n m m', step n m -> step n m' -> m = m'.
Hypothesis stop_final : forall n m, stop n -> step n m -> False.

Lemma path_functional n l1 l2 :
  path step stop n l1 -> path step stop n l2 -> l1 = l2.
Proof.
  intros H1. revert l2.
  induction H1 as [n Hn|n m l Hnm _ IH]; intros l2 H2; inversion H2; subst.
  - reflexivity.
  - exfalso; eauto.
  - exfalso; eauto.
  - f_equal. apply IH.
    match goal with H : step n ?m' |- path _ _ m _ =>
      now rewrite (step_functional n m m' Hnm H) end.
Qed.

Lemma path_suffix n l a :
  path step stop n l -> a ∈ l ->
  exists l', path step stop a l' /\ length l' <= length l.
Proof.
  induction 1 as [n Hn|n m l Hnm Hl IH]; intros Ha.
  - apply list_elem_of_singleton in Ha as ->.
    exists [n]. split; [now constructor | simpl; lia].
  - apply elem_of_cons in Ha as [->|Ha].
    + exists (n :: l). split; [eapply path_step; eauto | simpl; lia].
    + destruct (IH Ha) as (l' & Hl' & Hlen). exists l'. split; [done | simpl; lia].
Qed.

Lemma path_NoDup n l : path step stop n l -> NoDup l.
Proof.
  induction 1 as [n Hn|n m l Hnm Hl IH].
  - apply NoDup_singleton.
  - apply NoDup_cons_2; [|done].
    intros Hin.
    destruct (path_suffix m l n Hl Hin) as (l' & Hl' & Hlen).
    assert (l' = n :: l) as -> by (eapply path_functional; [done | eapply path_step; eauto]).
    simpl in Hlen. lia.
Qed.

Lemma path_elem n l a :
  path step stop n l -> a ∈ l -> stop a \/ exists m, step a m.
Proof.
  induction 1 as [n Hn|n m l Hnm Hl IH]; intros Ha.
  - apply list_elem_of_singleton in Ha as ->. now left.
  - apply elem_of_cons in Ha as [->|Ha]; [right; eauto | auto].
Qed.

Lemma path_last n l :
  path step stop n l -> exists m, list.last l = Some m /\ stop m.
Proof.
  induction 1 as [n Hn|n m l Hnm Hl (k & Hk & Hstop)].
  - now exists n.
  - exists k. split; [|done]. destruct l; [inversion Hl | done].
Qed.

Lemma path_head n l : path step stop n l -> head l = Some n.
Proof. now destruct 1. Qed.

End Paths.

Lemma NoDup_bounded_length (l : list nat) (m : nat) :
  NoDup l -> (forall a, a ∈ l -> a < m) -> length l <= m.
Proof.
  intros Hnd Hlt.
  assert (Hsub : l ⊆+ seq 0 m).
  { apply NoDup_submseteq; [done|].
    intros a Ha. apply elem_of_seq. specialize (Hlt a Ha). lia. }
  apply submseteq_length in Hsub. now rewrite length_seq in Hsub.
Qed.

(** ** Ancestors and [Backpropagate] *)

Section Backpropagate.
Context {S : Type}.
Implicit Types (h : heap S) (nd : Node S) (n p a : addr) (l : list addr).

Lemma has_parent_functional h n p p' :
  has_parent h n p -> has_parent h n p' -> p = p'.
Proof. intros (nd & Hn & Hp) (nd' & Hn' & Hp'). congruence. Qed.

Lemma is_root_final h n p : is_root h n -> has_parent h n p -> False.
Proof. intros (nd & Hn & Hp) (nd' & Hn' & Hp'). congruence. Qed.

Lemma ancestors_NoDup h n l : ancestors h n l -> NoDup l.
Proof.
  apply path_NoDup; [apply has_parent_functional | apply is_root_final].
Qed.

Lemma ancestors_lt h n l a : ancestors h n l -> a ∈ l -> a < length h.
Proof.
  intros Hl Ha.
  destruct (path_elem _ _ n l a Hl Ha) as [(nd & Hnd & _)|(m & nd & Hnd & _)];
    now apply lookup_lt_Some in Hnd.
Qed.

Lemma ancestors_length h n l : ancestors h n l -> length l <= length h.
Proof.
  intros Hl. apply NoDup_bounded_length; [now apply ancestors_NoDup in Hl|].
  intros a Ha. eapply ancestors_lt; eauto.
Qed.

(** Overwriting a record's statistics leaves every chain of parents as it was. *)
Lemma ancestors_insert h n l a nd nd' :
  h !! a = Some nd -> parent nd' = parent nd ->
  ancestors h n l -> ancestors (<[a := nd']> h) n l.
Proof.
  intros Ha Hp. induction 1 as [n (md & Hn & Hroot)|n m l (md & Hn & Hm) _ IH].
  - apply path_stop. destruct (decide (a = n)) as [->|Hne].
    + exists nd'. rewrite list_lookup_insert_eq by now apply lookup_lt_Some in Ha.
      split; congruence.
    + exists md. now rewrite list_lookup_insert_ne.
  - eapply path_step; [|exact IH]. destruct (decide (a = n)) as [->|Hne].
    + exists nd'. rewrite list_lookup_insert_eq by now apply lookup_lt_Some in Ha.
      split; congruence.
    + exists md. now rewrite list_lookup_insert_ne.
Qed.

Lemma Backpropagate_rec_spec (reward : float) l : forall h n depth,
  ancestors h n l -> length l <= depth ->
  exists h', Backpropagate_rec depth h n reward = Ok h'
    /\ length h' = length h
    /\ forall a, h' !! a = if decide (a ∈ l) then visit reward <$> h !! a else h !! a.
Proof.
  induction l as [|x l IH]; intros h n depth Hanc Hlen; [inversion Hanc|].
  destruct depth as [|depth]; [simpl in Hlen; lia|].
  pose proof (path_head _ _ _ _ Hanc) as [= ->].
  pose proof (ancestors_NoDup _ _ _ Hanc) as Hnd.
  inversion Hanc as [? (nd & Hn & Hroot)|? p ? (nd & Hn & Hp) Hrest]; subst.
  - exists (<[n := visit reward nd]> h). simpl.
    unfold deref. rewrite Hn. simpl. rewrite Hroot.
    split; [done|]. split; [apply length_insert|].
    intros a. destruct (decide (a = n)) as [->|Hne].
    + rewrite decide_True by apply list_elem_of_singleton, eq_refl.
      rewrite list_lookup_insert_eq by now apply lookup_lt_Some in Hn.
      now rewrite Hn.
    + rewrite decide_False by now rewrite list_elem_of_singleton.
      now rewrite list_lookup_insert_ne.
  - apply list.NoDup_cons in Hnd as [Hnotin Hnd].
    destruct (IH (<[n := visit reward nd]> h) p depth) as (h' & Hrun & Hlen' & Hget).
    { eapply ancestors_insert; eauto. }
    { simpl in Hlen. lia. }
    exists h'. simpl. unfold deref. rewrite Hn. simpl. rewrite Hp.
    split; [done|]. split; [now rewrite Hlen', length_insert|].
    intros a. rewrite Hget. destruct (decide (a = n)) as [->|Hne].
    + rewrite decide_False by done. rewrite decide_True by apply list_elem_of_here.
      rewrite list_lookup_insert_eq by now apply lookup_lt_Some in Hn.
      now rewrite Hn.
    + rewrite list_lookup_insert_ne by done.
      destruct (decide (a ∈ l)) as [Hin|Hin].
      * now rewrite decide_True by now apply list_elem_of_further.
      * rewrite decide_False; [done|]. rewrite elem_of_cons. intros [?|?]; done.
Qed.

End Backpropagate.

(** ** [Expand] *)

Section Expand.
Context {S Action : Type} `{!GameState S Action}.
Implicit Types (h : heap S) (nd : Node S) (n a : addr) (ss : list S).

Lemma set_children_id nd : set_children nd (children nd) = nd.
Proof. now destruct nd. Qed.

Lemma expanded_nil h n nd : h !! n = Some nd -> expanded h n nd [] = h.
Proof.
  intros Hn. unfold expanded. simpl.
  rewrite !app_nil_r, set_children_id. now apply list_insert_id.
Qed.

Lemma expanded_cons h n nd st ss :
  h !! n = Some nd ->
  expanded h n nd (st :: ss)
  = expanded (<[n := add_child nd (length h)]> (h ++ [fresh n st])) n
             (add_child nd (length h)) ss.
Proof.
  intros Hn. pose proof (lookup_lt_Some _ _ _ Hn) as Hlt.
  unfold expanded, add_child, set_children, fresh. simpl.
  rewrite length_insert, length_app. simpl.
  rewrite <- !app_assoc. simpl.
  replace (length h + 1) with (Datatypes.S (length h)) by lia.
  rewrite <- (insert_app_l (h ++ [_]) _ n) by (rewrite length_app; simpl; lia).
  rewrite list_insert_insert_eq. rewrite <- !app_assoc. reflexivity.
Qed.

Lemma Expand_loop_eq (actions : list Action) : forall h n nd,
  h !! n = Some nd ->
  Expand_loop h n actions
  = (ss ← successors (state nd) actions; Ok (expanded h n nd ss)).
Proof.
  induction actions as [|action rest IH]; intros h n nd Hn;
    cbn [Expand_loop successors].
  - cbn. now rewrite expanded_nil.
  - pose proof (lookup_lt_Some _ _ _ Hn) as Hlt.
    rewrite (deref_Some _ _ _ Hn). cbn [mbind result_bind].
    destruct (PerformAction (state nd) action) as [st| |]; cbn [mbind result_bind];
      try reflexivity.
    cbn [NewNode].
    rewrite (deref_Some (h ++ _) n nd) by now rewrite lookup_app_l.
    cbn [mbind result_bind].
    rewrite (IH _ n (add_child nd (length h))).
    + cbn [add_child state].
      destruct (successors (state nd) rest) as [ss| |]; cbn [mbind result_bind];
        try reflexivity.
      now rewrite (expanded_cons h n nd st ss).
    + apply list_lookup_insert_eq. rewrite length_app. simpl. lia.
Qed.

Lemma successors_Ok (st : S) (actions : list Action) :
  (forall act, act ∈ actions -> exists st', PerformAction st act = Ok st') ->
  exists ss, successors st actions = Ok ss.
Proof.
  induction actions as [|act rest IH]; intros Hall; simpl; [now exists []|].
  destruct (Hall act) as (st' & ->); [apply list_elem_of_here|].
  destruct IH as (ss & ->).
  { intros b Hb. apply Hall. now apply list_elem_of_further. }
  now exists (st' :: ss).
Qed.

Lemma successors_length (st : S) (actions : list Action) ss :
  successors st actions = Ok ss -> length ss = length actions.
Proof.
  revert ss. induction actions as [|b rest IH]; intros ss; simpl.
  - now intros [= <-].
  - intros (s1 & _ & (ss' & Hss & [= <-])%bind_Ok_inv)%bind_Ok_inv.
    simpl. f_equal. now apply IH.
Qed.

Lemma successors_lookup (st : S) (actions : list Action) ss (i : nat) (act : Action) :
  successors st actions = Ok ss -> actions !! i = Some act ->
  exists s', PerformAction st act = Ok s' /\ ss !! i = Some s'.
Proof.
  revert ss i. induction actions as [|b rest IH]; intros ss i; simpl; [done|].
  intros (s1 & H1 & (ss' & Hss & [= <-])%bind_Ok_inv)%bind_Ok_inv.
  destruct i as [|i]; simpl.
  - intros [= <-]. eauto.
  - intros Hi. eapply IH; eauto.
Qed.

Lemma expanded_length h n nd ss : length (expanded h n nd ss) = length h + length ss.
Proof. unfold expanded. now rewrite length_insert, length_app, length_fmap. Qed.

Lemma expanded_lookup_node h n nd ss :
  h !! n = Some nd ->
  expanded h n nd ss !! n
  = Some (set_children nd (children nd ++ seq (length h) (length ss))).
Proof.
  intros Hn%lookup_lt_Some. unfold expanded.
  apply list_lookup_insert_eq. rewrite length_app. lia.
Qed.

Lemma expanded_lookup_old h n nd ss a :
  a < length h -> a <> n -> expanded h n nd ss !! a = h !! a.
Proof.
  intros Ha Hne. unfold expanded.
  rewrite list_lookup_insert_ne by done. now apply lookup_app_l.
Qed.

Lemma expanded_lookup_new h n nd ss i st :
  n < length h -> ss !! i = Some st ->
  expanded h n nd ss !! (length h + i) = Some (fresh n st).
Proof.
  intros Hn Hi. unfold expanded.
  rewrite list_lookup_insert_ne by lia.
  rewrite lookup_app_r by lia.
  replace (length h + i - length h) with i by lia.
  now rewrite list_lookup_fmap, Hi.
Qed.

End Expand.

(** ** [UCTValue] and [Select] *)

Section Select.
Context {S Action : Type} `{!GameState S Action}.
Variable Log : float -> float.
Implicit Types (h : heap S) (nd : Node S) (n c : addr) (vs : list float).

Lemma UCT_values_functional h cs vs vs' :
  UCT_values Log h cs vs -> UCT_values Log h cs vs' -> vs = vs'.
Proof.
  intros H1. revert vs'. induction H1 as [|c v cs vs Hv _ IH]; intros vs' H2.
  - now inversion H2.
  - inversion H2 as [|? v' ? vs'' Hv' Hrest]; subst. f_equal; [congruence | now apply IH].
Qed.

Lemma first_max_index vs i j v w :
  first_max vs i v -> first_max vs j w -> i = j.
Proof.
  intros (Hi & Hv & Hmax & Hbefore) (Hj & Hw & Hmax' & Hbefore').
  destruct (lt_eq_lt_dec i j) as [[Hlt| ->]|Hgt]; [exfalso|done|exfalso].
  - destruct (Hbefore' i v Hlt Hi) as [Hgt|Hnan]; [|congruence].
    rewrite (Hmax w) in Hgt; [done|]. apply list_elem_of_lookup; eauto.
  - destruct (Hbefore j w Hgt Hj) as [Hgt'|Hnan]; [|congruence].
    rewrite (Hmax' v) in Hgt'; [done|]. apply list_elem_of_lookup; eauto.
Qed.

(** Every list of values has a first maximum above a given [bestValue],
    unless none of its values is above [bestValue]. *)
Lemma first_max_total vs : forall bestValue,
  (forall w, w ∈ vs -> math.gt w bestValue = false)
  \/ exists i v, first_max vs i v /\ math.gt v bestValue = true.
Proof.
  induction vs as [|v0 vs IH]; intros bv.
  { left. intros w Hw. now apply elem_of_nil in Hw. }
  destruct (math.gt v0 bv) eqn:H0.
  - right. destruct (gt_not_NaN _ _ H0) as [Hv0 _].
    destruct (IH v0) as [Hnone|(i & v & (Hi & Hv & Hmax & Hbefore) & Hgt)].
    + exists 0, v0. split; [|done]. split; [done|]. split; [done|]. split.
      * intros w [->|Hw]%elem_of_cons; [apply gt_irrefl | now apply Hnone].
      * intros j w Hj. lia.
    + exists (Datatypes.S i), v. split; [|now apply (gt_trans v v0 bv)].
      split; [done|]. split; [done|]. split.
      * intros w [->|Hw]%elem_of_cons; [now apply gt_asym | now apply Hmax].
      * intros [|j] w Hj Hw; simpl in Hw.
        -- injection Hw as <-. now left.
        -- apply (Hbefore j w); [lia | done].
  - destruct (IH bv) as [Hnone|(i & v & (Hi & Hv & Hmax & Hbefore) & Hgt)].
    + left. intros w [->|Hw]%elem_of_cons; [done | now apply Hnone].
    + right. exists (Datatypes.S i), v. split; [|done].
      split; [done|]. split; [done|]. split.
      * intros w [->|Hw]%elem_of_cons; [now apply (gt_false_below v v0 bv) | now apply Hmax].
      * intros [|j] w Hj Hw; simpl in Hw.
        -- injection Hw as <-. destruct (math.IsNaN v0) eqn:Hnan; [now right|].
           left. now apply (gt_le_trans v v0 bv).
        -- apply (Hbefore j w); [lia | done].
Qed.

(** Once [bestValue] is a value that no later child exceeds, the loop keeps
    its [bestChild]. *)
Lemma Select_loop_keep h cs vs bestValue bestChild :
  UCT_values Log h cs vs ->
  (forall w, w ∈ vs -> math.gt w bestValue = false) ->
  Select_loop Log h cs bestValue bestChild = Ok bestChild.
Proof.
  induction 1 as [|c v cs vs Hv _ IH]; intros Hle; cbn [Select_loop]; [done|].
  rewrite Hv. cbn [mbind result_bind].
  rewrite (Hle v) by apply list_elem_of_here.
  apply IH. intros w Hw. apply Hle. now apply list_elem_of_further.
Qed.

Lemma Select_loop_first_max h cs vs : forall i v c bestValue bestChild,
  UCT_values Log h cs vs ->
  first_max vs i v -> cs !! i = Some c ->
  math.gt v bestValue = true ->
  Select_loop Log h cs bestValue bestChild = Ok (Some c).
Proof.
  intros i v c bv bc Hvs. revert i bv bc.
  induction Hvs as [|c0 v0 cs vs Hv Hvs IH];
    intros i bv bc (Hi & Hnan & Hmax & Hbefore) Hc Hgt; [done|].
  cbn [Select_loop]. rewrite Hv. cbn [mbind result_bind].
  destruct i as [|i]; simpl in Hi, Hc.
  - injection Hi as ->. injection Hc as ->. rewrite Hgt.
    apply (Select_loop_keep h cs vs); [done|].
    intros w Hw. apply Hmax. now apply list_elem_of_further.
  - assert (Hfm : first_max vs i v).
    { split; [done|]. split; [done|]. split.
      - intros w Hw. apply Hmax. now apply list_elem_of_further.
      - intros j w Hj Hw. apply (Hbefore (Datatypes.S j) w); [lia | done]. }
    destruct (math.gt v0 bv) eqn:H0.
    + apply (IH i); [done..|].
      destruct (Hbefore 0 v0) as [Hlt|Hv0]; [lia|done|done|].
      now rewrite (gt_NaN_l v0 bv Hv0) in H0.
    + now apply (IH i).
Qed.

Lemma best_child_functional h n c c' :
  best_child Log h n c -> best_child Log h n c' -> c = c'.
Proof.
  intros (nd & vs & i & v & Hn & Hvs & Hfm & _ & Hc)
         (nd' & vs' & i' & v' & Hn' & Hvs' & Hfm' & _ & Hc').
  assert (nd' = nd) as -> by congruence.
  assert (vs' = vs) as -> by (eapply UCT_values_functional; eauto).
  assert (i' = i) as -> by (eapply first_max_index; eauto).
  congruence.
Qed.

Lemma is_leaf_final h n c : is_leaf h n -> best_child Log h n c -> False.
Proof.
  intros (nd & Hn & Hnil) (nd' & vs & i & v & Hn' & _ & _ & _ & Hc).
  assert (nd' = nd) as -> by congruence. now rewrite Hnil in Hc.
Qed.

Lemma IsLeaf_true nd : IsLeaf nd = true <-> children nd = [].
Proof.
  unfold IsLeaf. destruct (children nd); simpl; split; congruence.
Qed.

Lemma Select_rec_leaf h n depth :
  is_leaf h n -> Select_rec Log (Datatypes.S depth) h n = Ok n.
Proof.
  intros (nd & Hn & Hnil). cbn [Select_rec].
  rewrite (proj2 (deref_Ok h n nd) Hn). cbn [mbind result_bind].
  now rewrite (proj2 (IsLeaf_true nd) Hnil).
Qed.

Lemma Select_rec_best_child h n c depth :
  best_child Log h n c ->
  Select_rec Log (Datatypes.S depth) h n = Select_rec Log depth h c.
Proof.
  intros (nd & vs & i & v & Hn & Hvs & Hfm & Hgt & Hc). cbn [Select_rec].
  rewrite (proj2 (deref_Ok h n nd) Hn). cbn [mbind result_bind].
  destruct (IsLeaf nd) eqn:Hleaf.
  { apply IsLeaf_true in Hleaf. now rewrite Hleaf in Hc. }
  now rewrite (Select_loop_first_max h _ vs i v c).
Qed.

Lemma Select_rec_descent h l : forall n depth,
  descent Log h n l -> length l <= depth ->
  exists leaf, list.last l = Some leaf /\ Select_rec Log depth h n = Ok leaf.
Proof.
  induction l as [|x l IH]; intros n depth Hl Hlen; [inversion Hl|].
  destruct depth as [|depth]; [simpl in Hlen; lia|].
  pose proof (path_head _ _ _ _ Hl) as [= ->].
  inversion Hl as [? Hleaf|? c ? Hbest Hrest]; subst.
  - exists n. split; [done | now apply Select_rec_leaf].
  - destruct (IH c depth Hrest) as (leaf & Hlast & Hsel); [simpl in Hlen; lia|].
    exists leaf. split.
    + destruct l; [inversion Hrest | done].
    + now rewrite (Select_rec_best_child h n c).
Qed.

Lemma descent_length h n l : descent Log h n l -> length l <= length h.
Proof.
  intros Hl. apply NoDup_bounded_length.
  - eapply path_NoDup; [apply best_child_functional | apply is_leaf_final | exact Hl].
  - intros a Ha.
    destruct (path_elem _ _ n l a Hl Ha) as [(nd & Hnd & _)|(m & nd & ? & ? & ? & Hnd & _)];
      now apply lookup_lt_Some in Hnd.
Qed.

(** When no child has a value above the initial [bestValue], [bestChild] is
    still nil after the loop and the recursive call dereferences it. *)
Lemma Select_rec_no_best h n nd vs depth :
  h !! n = Some nd -> children nd <> [] ->
  UCT_values Log h (children nd) vs ->
  (forall w, w ∈ vs -> math.gt w (math.Inf (-1)) = false) ->
  Select_rec Log (Datatypes.S depth) h n = Panic.
Proof.
  intros Hn Hne Hvs Hall. cbn [Select_rec].
  rewrite (proj2 (deref_Ok h n nd) Hn). cbn [mbind result_bind].
  destruct (IsLeaf nd) eqn:Hleaf; [now apply IsLeaf_true in Hleaf|].
  now rewrite (Select_loop_keep h _ vs).
Qed.

(** A node whose children all have a value has a best child, unless no
    value is above the initial [bestValue]. *)
Lemma best_child_total h n nd vs :
  h !! n = Some nd -> UCT_values Log h (children nd) vs ->
  (exists c, best_child Log h n c)
  \/ (forall w, w ∈ vs -> math.gt w (math.Inf (-1)) = false).
Proof.
  intros Hn Hvs.
  destruct (first_max_total vs (math.Inf (-1))) as [Hnone|(i & v & Hfm & Hgt)];
    [now right|left].
  pose proof Hfm as (Hi & _).
  destruct (Forall2_lookup_r _ _ _ _ _ Hvs Hi) as (c & Hc & _).
  exists c, nd, vs, i, v. done.
Qed.

(** [UCTValue] has no loop and makes no recursive call. *)
Lemma UCTValue_not_Diverges h n : UCTValue Log h n <> Diverges.
Proof.
  unfold UCTValue, deref_ptr, deref.
  destruct (h !! n) as [nd|]; cbn [mbind result_bind]; [|done].
  destruct (visits nd =? 0)%Z; [done|].
  destruct (parent nd) as [p|]; [|done].
  now destruct (h !! p).
Qed.

(** When [UCTValue] panics on a child, so does the loop of [Select]. *)
Lemma Select_loop_Panic h cs : forall c bestValue bestChild,
  c ∈ cs -> UCTValue Log h c = Panic ->
  Select_loop Log h cs bestValue bestChild = Panic.
Proof.
  induction cs as [|c0 cs IH]; intros c bv bc Hc Hpanic.
  { now apply elem_of_nil in Hc. }
  cbn [Select_loop].
  destruct (UCTValue Log h c0) as [v| |] eqn:Hv; cbn [mbind result_bind]; [|done|].
  - apply elem_of_cons in Hc as [->|Hc]; [congruence|].
    destruct (math.gt v bv); now apply (IH c).
  - now apply UCTValue_not_Diverges in Hv.
Qed.

(** Every child has a value, or [UCTValue] panics on one of them. *)
Lemma UCT_values_or_Panic h cs :
  (exists vs, UCT_values Log h cs vs)
  \/ (exists c, c ∈ cs /\ UCTValue Log h c = Panic).
Proof.
  induction cs as [|c cs [(vs & Hvs)|(c' & Hc' & Hpanic)]].
  - left. exists []. constructor.
  - destruct (UCTValue Log h c) as [v| |] eqn:Hv.
    + left. exists (v :: vs). now constructor.
    + right. exists c. split; [apply list_elem_of_here | done].
    + now apply UCTValue_not_Diverges in Hv.
  - right. exists c'. split; [now apply list_elem_of_further | done].
Qed.

Lemma Select_rec_child_panics h n nd c depth :
  h !! n = Some nd -> c ∈ children nd -> UCTValue Log h c = Panic ->
  Select_rec Log (Datatypes.S depth) h n = Panic.
Proof.
  intros Hn Hc Hpanic. cbn [Select_rec].
  rewrite (proj2 (deref_Ok h n nd) Hn). cbn [mbind result_bind].
  destruct (IsLeaf nd) eqn:Hleaf.
  { apply IsLeaf_true in Hleaf. rewrite Hleaf in Hc. now apply elem_of_nil in Hc. }
  now rewrite (Select_loop_Panic h _ c).
Qed.

(** *** In a search under way *)

(** The value of a visited node is a number. *)
Lemma UCTValue_number h n nd p pd :
  h !! n = Some nd -> (0 < visits nd <= GoInt.MaxInt)%Z ->
  is_number (totalReward nd) = true ->
  parent nd = Some p -> h !! p = Some pd ->
  math.le 0 (Log (math.float64 (visits pd))) = true ->
  math.IsInf (Log (math.float64 (visits pd))) 1 = false ->
  exists v, UCTValue Log h n = Ok v /\ is_number v = true.
Proof.
  intros Hn Hv Ht Hp Hpd HL0 HLinf. eexists. split.
  - unfold UCTValue. rewrite (deref_Some _ _ _ Hn). cbn [mbind result_bind].
    destruct (Z.eqb_spec (visits nd) 0) as [|_]; [lia|].
    rewrite Hp. cbn [deref_ptr]. rewrite (deref_Some _ _ _ Hpd).
    cbn [mbind result_bind]. reflexivity.
  - apply UCT_formula_number; [done|lia|done..].
Qed.

(** The values of the children of a scored node: [+Inf] or a number. *)
Lemma UCT_values_scored h n nd :
  scored Log h n -> h !! n = Some nd ->
  exists vs, UCT_values Log h (children nd) vs
    /\ Forall (fun w => math.IsNaN w = false /\ math.gt w (math.Inf (-1)) = true) vs.
Proof.
  intros (nd' & Hn' & Hv & HL0 & HLinf & Hch) Hn.
  assert (nd' = nd) as -> by congruence.
  assert (Hall : forall cs, (forall c, c ∈ cs -> c ∈ children nd) ->
    exists vs, UCT_values Log h cs vs
      /\ Forall (fun w => math.IsNaN w = false /\ math.gt w (math.Inf (-1)) = true) vs).
  { induction cs as [|c cs IH]; intros Hsub.
    { exists []. split; constructor. }
    destruct IH as (vs & Hvs & Hgood).
    { intros c' Hc'. apply Hsub. now apply list_elem_of_further. }
    destruct (Hch c) as (cd & Hc & Hp & Hvc & Ht); [apply Hsub, list_elem_of_here|].
    destruct (Z.eq_dec (visits cd) 0%Z) as [Hzero|Hpos].
    - exists (math.Inf 1 :: vs). split; constructor; try done.
      unfold UCTValue. rewrite (deref_Some _ _ _ Hc). cbn [mbind result_bind].
      now rewrite Hzero.
    - destruct (UCTValue_number h c cd n nd Hc ltac:(lia) Ht Hp Hn HL0 HLinf)
        as (v & Hval & Hnum).
      apply is_number_between in Hnum as (Hnan & Hgt & _).
      exists (v :: vs). split; constructor; done. }
  now apply Hall.
Qed.

Lemma scoredb_scored h n : scoredb Log h n = true -> scored Log h n.
Proof.
  unfold scoredb. destruct (h !! n) as [nd|] eqn:Hn; [|done].
  intros [[[Hv HL0]%andb_prop HLinf]%andb_prop Hch]%andb_prop.
  exists nd. split; [done|]. split; [now apply Z.ltb_lt|]. split; [done|].
  split; [now apply negb_true_iff in HLinf|].
  intros c Hc. rewrite forallb_forall in Hch.
  specialize (Hch c (proj1 (list_elem_of_In _ _) Hc)).
  destruct (h !! c) as [cd|]; [|done].
  apply andb_prop in Hch as [[[Hp Hlo]%andb_prop Hhi]%andb_prop Ht].
  exists cd. split; [done|]. split; [now apply bool_decide_eq_true in Hp|].
  split; [|done]. split; [now apply Z.leb_le | now apply Z.leb_le].
Qed.

(** There the first maximum is one in the plain sense: every value is at
    most the value of the best child, and every earlier one is below it. *)
Lemma best_child_scored h n nd :
  h !! n = Some nd -> children nd <> [] -> scored Log h n ->
  exists vs i v c,
    UCT_values Log h (children nd) vs
    /\ vs !! i = Some v /\ children nd !! i = Some c
    /\ (forall w, w ∈ vs -> math.le w v = true)
    /\ (forall j w, j < i -> vs !! j = Some w -> math.gt v w = true)
    /\ best_child Log h n c.
Proof.
  intros Hn Hne Hsc.
  destruct (UCT_values_scored h n nd Hsc Hn) as (vs & Hvs & Hgood).
  rewrite list.Forall_forall in Hgood.
  destruct (first_max_total vs (math.Inf (-1)))
    as [Hnone|(i & v & (Hi & Hnan & Hmax & Hbefore) & Hgt)].
  { exfalso. destruct Hvs as [|c w cs ws _ _]; [done|].
    destruct (Hgood w) as [_ Hw]; [apply list_elem_of_here|].
    rewrite Hnone in Hw; [done | apply list_elem_of_here]. }
  destruct (Forall2_lookup_r _ _ _ _ _ Hvs Hi) as (c & Hc & _).
  exists vs, i, v, c. split; [done|]. split; [done|]. split; [done|]. split; [|split].
  - intros w Hw. apply not_gt_le; [now apply Hgood | done | now apply Hmax].
  - intros j w Hj Hw. destruct (Hbefore j w Hj Hw) as [Hlt|Hw']; [done|].
    destruct (Hgood w) as [Hw'' _]; [apply list_elem_of_lookup; eauto | congruence].
  - now exists nd, vs, i, v.
Qed.

(** In a tree all of whose inner nodes are scored, the descent reaches a
    leaf. *)
Lemma descent_exists h :
  (forall a nd, h !! a = Some nd -> children nd <> [] -> scored Log h a) ->
  (forall a nd c, h !! a = Some nd -> c ∈ children nd -> a < c < length h) ->
  forall n, n < length h -> exists l, descent Log h n l.
Proof.
  intros Hsc Hord.
  assert (Hind : forall k n, length h - n <= k -> n < length h ->
            exists l, descent Log h n l).
  { induction k as [|k IH]; intros n Hk Hlt; [lia|].
    destruct (lookup_lt_is_Some_2 h n Hlt) as [nd Hn].
    destruct (children nd) as [|c0 cs] eqn:Hch.
    { exists [n]. apply path_stop. now exists nd. }
    assert (Hne : children nd <> []) by now rewrite Hch.
    destruct (best_child_scored h n nd Hn Hne (Hsc n nd Hn Hne))
      as (vs & i & v & c & _ & _ & Hc & _ & _ & Hbest).
    assert (Hin : c ∈ children nd) by (apply list_elem_of_lookup; eauto).
    destruct (Hord n nd c Hn Hin) as [Hnc Hclt].
    destruct (IH c) as (l & Hl); [lia|done|].
    exists (n :: l). now apply (path_step _ _ n c). }
  intros n Hn. apply (Hind (length h) n); [lia | done].
Qed.

End Select.

(** ** The engine loop *)

Lemma GoInt_add_small (a b : Z) :
  (GoInt.MinInt <= a + b <= GoInt.MaxInt)%Z -> GoInt.add a b = (a + b)%Z.
Proof.
  unfold GoInt.add, GoInt.wrap, GoInt.MinInt, GoInt.MaxInt. intros Hab.
  rewrite Z.mod_small; lia.
Qed.

Section Loop.
Context {S Action : Type} `{!GameState S Action}.
Variable Log : float -> float.
Implicit Types (h : heap S) (nd : Node S) (n a root : addr) (ss : list S).

Lemma expanded_lookup_inv h n nd ss a x :
  h !! n = Some nd -> expanded h n nd ss !! a = Some x ->
  (a = n /\ x = set_children nd (children nd ++ seq (length h) (length ss)))
  \/ (a < length h /\ a <> n /\ h !! a = Some x)
  \/ (exists i st, a = length h + i /\ ss !! i = Some st /\ x = fresh n st).
Proof.
  intros Hn Ha. pose proof (lookup_lt_Some _ _ _ Hn) as Hlt.
  destruct (decide (a = n)) as [->|Hne].
  - left. rewrite (expanded_lookup_node h n nd ss Hn) in Ha. split; congruence.
  - right. destruct (decide (a < length h)) as [Hold|Hnew].
    + left. rewrite expanded_lookup_old in Ha by done. done.
    + right. pose proof (lookup_lt_Some _ _ _ Ha) as Hbound.
      rewrite expanded_length in Hbound.
      destruct (lookup_lt_is_Some_2 ss (a - length h)) as [st Hst]; [lia|].
      exists (a - length h), st. split; [lia|]. split; [done|].
      pose proof (expanded_lookup_new h n nd ss (a - length h) st Hlt Hst) as Hnew'.
      replace (length h + (a - length h)) with a in Hnew' by lia. congruence.
Qed.

Lemma tree_inv_initial (rootState : S) :
  tree_inv [mkNode rootState None [] 0%Z 0%float] 0.
Proof.
  split.
  - eexists. split; reflexivity.
  - intros [|a] nd p Ha Hp; simpl in Ha; [|done]. injection Ha as <-. done.
  - intros [|a] nd Ha _; simpl in Ha; done.
  - intros [|a] nd c Ha Hc; simpl in Ha; [|done]. injection Ha as <-.
    simpl in Hc. now apply elem_of_nil in Hc.
  - intros [|a] nd Ha _; simpl in Ha; [|done]. now injection Ha as <-.
Qed.

Lemma tree_inv_expanded h root n nd ss :
  tree_inv h root -> h !! n = Some nd -> IsTerminal (state nd) = false ->
  tree_inv (expanded h n nd ss) root.
Proof.
  intros [(rd & Hroot & Hrd) Hpar Horph Hch Hterm] Hn Hnt.
  pose proof (lookup_lt_Some _ _ _ Hn) as Hlt.
  split.
  - destruct (decide (root = n)) as [->|Hne].
    + eexists. split; [now apply expanded_lookup_node|]. simpl. congruence.
    + exists rd. split; [|done]. rewrite expanded_lookup_old; [done| |done].
      now apply lookup_lt_Some in Hroot.
  - intros a x p Ha Hp.
    destruct (expanded_lookup_inv h n nd ss a x Hn Ha)
      as [[-> ->]|[(Ho & Hne & Hx)|(i & st & -> & Hst & ->)]].
    + eapply Hpar; eauto.
    + eapply Hpar; eauto.
    + simpl in Hp. injection Hp as <-. lia.
  - intros a x Ha Hp.
    destruct (expanded_lookup_inv h n nd ss a x Hn Ha)
      as [[-> ->]|[(Ho & Hne & Hx)|(i & st & -> & Hst & ->)]].
    + eapply Horph; eauto.
    + eapply Horph; eauto.
    + done.
  - intros a x c Ha Hc. rewrite expanded_length.
    destruct (expanded_lookup_inv h n nd ss a x Hn Ha)
      as [[-> ->]|[(Ho & Hne & Hx)|(i & st & -> & Hst & ->)]].
    + simpl in Hc. apply elem_of_app in Hc as [Hc|Hc].
      * specialize (Hch n nd c Hn Hc). lia.
      * apply elem_of_seq in Hc. lia.
    + specialize (Hch a x c Hx Hc). lia.
    + simpl in Hc. now apply elem_of_nil in Hc.
  - intros a x Ha Ht.
    destruct (expanded_lookup_inv h n nd ss a x Hn Ha)
      as [[-> ->]|[(Ho & Hne & Hx)|(i & st & -> & Hst & ->)]].
    + simpl in Ht. congruence.
    + eapply Hterm; eauto.
    + done.
Qed.

(** [Backpropagate] rewrites statistics only. *)
Lemma tree_inv_visited h h' root (reward : float) (l : list addr) :
  tree_inv h root -> length h' = length h ->
  (forall a, h' !! a = if decide (a ∈ l) then visit reward <$> h !! a else h !! a) ->
  tree_inv h' root.
Proof.
  intros [(rd & Hroot & Hrd) Hpar Horph Hch Hterm] Hlen Hget.
  assert (Hback : forall a x, h' !! a = Some x ->
            exists y, h !! a = Some y /\ state x = state y
                      /\ parent x = parent y /\ children x = children y).
  { intros a x. rewrite Hget. destruct (decide (a ∈ l)).
    - destruct (h !! a) as [y|]; simpl; [|done]. intros [= <-]. now exists y.
    - intros Hx. now exists x. }
  split.
  - specialize (Hget root). rewrite Hroot in Hget. simpl in Hget.
    destruct (decide (root ∈ l)); eexists; (split; [exact Hget | done]).
  - intros a x p Hx. destruct (Hback a x Hx) as (y & Hy & _ & Hp & _).
    rewrite Hp. apply (Hpar a y p Hy).
  - intros a x Hx. destruct (Hback a x Hx) as (y & Hy & _ & Hp & _).
    rewrite Hp. apply (Horph a y Hy).
  - intros a x c Hx. destruct (Hback a x Hx) as (y & Hy & _ & _ & Hc).
    rewrite Hc, Hlen. apply (Hch a y c Hy).
  - intros a x Hx. destruct (Hback a x Hx) as (y & Hy & Hs & _ & Hc).
    rewrite Hs, Hc. apply (Hterm a y Hy).
Qed.

(** In a tree every node has its chain of ancestors, and the chain ends at
    the root. *)
Lemma tree_inv_ancestors h root :
  tree_inv h root ->
  forall a, a < length h -> exists l, ancestors h a l /\ root ∈ l.
Proof.
  intros [_ Hpar Horph _ _] a. induction (lt_wf a) as [a _ IH]. intros Ha.
  destruct (lookup_lt_is_Some_2 h a Ha) as [nd Hnd].
  destruct (parent nd) as [p|] eqn:Hp.
  - pose proof (Hpar a nd p Hnd Hp) as Hlt.
    destruct (IH p Hlt) as (l & Hl & Hin); [lia|].
    exists (a :: l). split; [|now apply list_elem_of_further].
    eapply path_step; [|exact Hl]. now exists nd.
  - rewrite <- (Horph a nd Hnd Hp). exists [a]. split; [|apply list_elem_of_here].
    apply path_stop. now exists nd.
Qed.


Lemma Expand_Ok_inv h n h' :
  Expand h n = Ok h' ->
  exists nd ss, h !! n = Some nd /\ h' = expanded h n nd ss.
Proof.
  unfold Expand. intros (nd & Hn%deref_Ok & Hloop)%bind_Ok_inv.
  rewrite (Expand_loop_eq _ h n nd Hn) in Hloop.
  apply bind_Ok_inv in Hloop as (ss & _ & [= <-]). eauto.
Qed.

(** The effect of one iteration on the root. *)
Lemma MCTS_step_spec h root h' (reward : float) :
  tree_inv h root -> MCTS_step Log h root = Ok (h', reward) ->
  tree_inv h' root
  /\ exists rd, h !! root = Some rd
       /\ exists rd', h' !! root = Some rd'
            /\ visits rd' = GoInt.add (visits rd) 1
            /\ totalReward rd' = (totalReward rd + reward)%float.
Proof.
  intros Hinv. unfold MCTS_step.
  intros (node & Hsel & Hrest)%bind_Ok_inv.
  apply bind_Ok_inv in Hrest as (nd & Hnode%deref_Ok & Hrest).
  apply bind_Ok_inv in Hrest as (h1 & Hexp & Hrest).
  apply bind_Ok_inv in Hrest as (child & Hsel' & Hrest).
  apply bind_Ok_inv in Hrest as (cd & Hchild%deref_Ok & Hrest).
  apply bind_Ok_inv in Hrest as (h2 & Hback & [= <- <-]).
  destruct (inv_root _ _ Hinv) as (rd & Hroot & Hrd).
  (* after the expansion *)
  assert (Hinv1 : tree_inv h1 root
                  /\ exists rd1, h1 !! root = Some rd1 /\ visits rd1 = visits rd
                                /\ totalReward rd1 = totalReward rd).
  { destruct (IsTerminal (state nd)) eqn:Hterm; simpl in Hexp.
    - injection Hexp as <-. split; [done|]. now exists rd.
    - apply Expand_Ok_inv in Hexp as (nd' & ss & Hnode' & ->).
      assert (nd' = nd) as -> by congruence.
      split; [now apply tree_inv_expanded|].
      destruct (decide (root = node)) as [->|Hne].
      + eexists. split; [now apply expanded_lookup_node|].
        assert (rd = nd) as -> by congruence. done.
      + exists rd. rewrite expanded_lookup_old; [done| |done].
        now apply lookup_lt_Some in Hroot. }
  destruct Hinv1 as (Hinv1 & rd1 & Hroot1 & Hv1 & Ht1).
  (* the walk back to the root *)
  destruct (tree_inv_ancestors h1 root Hinv1 child) as (l & Hl & Hin);
    [now apply lookup_lt_Some in Hchild|].
  destruct (Backpropagate_rec_spec (GetReward (state cd)) l h1 child
              (Datatypes.S (length h1)) Hl) as (h2' & Hrun & Hlen & Hget).
  { apply ancestors_length in Hl. lia. }
  unfold Backpropagate in Hback. rewrite Hrun in Hback. injection Hback as ->.
  split; [eapply tree_inv_visited; eauto|].
  exists rd. split; [done|].
  specialize (Hget root). rewrite decide_True, Hroot1 in Hget by done.
  eexists. split; [exact Hget|]. simpl. now rewrite Hv1, Ht1.
Qed.

Lemma MCTS_loop_spec k : forall h root h' (rewards : list float),
  tree_inv h root -> MCTS_loop Log k h root = Ok (h', rewards) ->
  tree_inv h' root
  /\ length rewards = k
  /\ exists rd, h !! root = Some rd
       /\ exists rd', h' !! root = Some rd'
            /\ ((0 <= visits rd)%Z -> (visits rd + Z.of_nat k <= GoInt.MaxInt)%Z ->
                  visits rd' = (visits rd + Z.of_nat k)%Z)
            /\ totalReward rd' = foldl PrimFloat.add (totalReward rd) rewards.
Proof.
  induction k as [|k IH]; intros h root h' rewards Hinv; cbn [MCTS_loop].
  - intros [= <- <-]. split; [done|]. split; [done|].
    destruct (inv_root _ _ Hinv) as (rd & Hroot & _).
    exists rd. split; [done|]. exists rd. split; [done|]. split; [|done].
    intros _ _. lia.
  - intros ([h1 reward] & Hstep & Hrest)%bind_Ok_inv.
    apply bind_Ok_inv in Hrest as ([h2 rs] & Hloop & [= <- <-]).
    destruct (MCTS_step_spec _ _ _ _ Hinv Hstep)
      as (Hinv1 & rd & Hroot & rd1 & Hroot1 & Hv1 & Ht1).
    destruct (IH _ _ _ _ Hinv1 Hloop)
      as (Hinv2 & Hlen & rd1' & Hroot1' & rd2 & Hroot2 & Hv2 & Ht2).
    assert (rd1' = rd1) as -> by congruence.
    split; [done|]. split; [simpl; now rewrite Hlen|].
    exists rd. split; [done|]. exists rd2. split; [done|]. split.
    + intros Hnonneg Hmax.
      assert (visits rd1 = (visits rd + 1)%Z) as Hv1'.
      { rewrite Hv1. apply GoInt_add_small.
        unfold GoInt.MinInt, GoInt.MaxInt in *. lia. }
      rewrite Hv2; lia.
    + simpl. now rewrite Ht2, Ht1.
Qed.

(** A run of [k + j] iterations passes through the heap that [k] iterations
    leave. *)
Lemma MCTS_loop_prefix k j : forall h root h2 (rewards : list float),
  MCTS_loop Log (k + j) h root = Ok (h2, rewards) ->
  exists h1 rs1 rs2,
    MCTS_loop Log k h root = Ok (h1, rs1)
    /\ MCTS_loop Log j h1 root = Ok (h2, rs2)
    /\ rewards = rs1 ++ rs2.
Proof.
  induction k as [|k IH]; intros h root h2 rewards; simpl.
  - intros Hrun. now exists h, [], rewards.
  - intros ([h' reward] & Hstep & Hrest)%bind_Ok_inv.
    apply bind_Ok_inv in Hrest as ([h'' rs] & Hloop & [= <- <-]).
    destruct (IH _ _ _ _ Hloop) as (h1 & rs1 & rs2 & Hk & Hj & ->).
    exists h1, (reward :: rs1), rs2. rewrite Hstep. simpl. rewrite Hk. simpl.
    done.
Qed.

End Loop.

(** ** The engine's recursions end *)

Section Termination.
Context {S Action : Type} `{!GameState S Action}.
Variable Log : float -> float.
Hypothesis PerformAction_ends : forall (s : S) (act : Action), PerformAction s act <> Diverges.
Implicit Types (h : heap S) (nd : Node S) (n c root : addr).

Lemma Select_loop_result h (cs : list addr) : forall bestValue bestChild,
  match Select_loop Log h cs bestValue bestChild with
  | Ok (Some c) => bestChild = Some c \/ c ∈ cs
  | Ok None => bestChild = None
  | Panic => True
  | Diverges => False
  end.
Proof.
  induction cs as [|c0 cs IH]; intros bv bc; cbn [Select_loop].
  - destruct bc; [now left | done].
  - pose proof (UCTValue_not_Diverges Log h c0) as Hnd.
    destruct (UCTValue Log h c0) as [v| |]; simpl; [|done..].
    destruct (math.gt v bv).
    + specialize (IH v (Some c0)).
      destruct (Select_loop Log h cs v (Some c0)) as [[c|]| |]; try done.
      destruct IH as [[= ->]|Hin]; right;
        [apply list_elem_of_here | now apply list_elem_of_further].
    + specialize (IH bv bc).
      destruct (Select_loop Log h cs bv bc) as [[c|]| |]; try done.
      destruct IH as [->|Hin]; [now left | right; now apply list_elem_of_further].
Qed.

Lemma Select_rec_not_Diverges h root depth : forall n,
  tree_inv h root -> n < length h -> length h - n <= depth ->
  Select_rec Log depth h n <> Diverges.
Proof.
  intros n Hinv. revert n.
  induction depth as [|depth IH]; intros n Hn Hdepth; [lia|].
  cbn [Select_rec].
  destruct (lookup_lt_is_Some_2 h n Hn) as [nd Hnd].
  rewrite (deref_Some _ _ _ Hnd). cbn [mbind result_bind].
  destruct (IsLeaf nd); [done|].
  pose proof (Select_loop_result h (children nd) (math.Inf (-1)) None) as Hloop.
  destruct (Select_loop Log h (children nd) (math.Inf (-1)) None) as [[c|]| |];
    simpl; try done.
  destruct Hloop as [[=]|Hin].
  pose proof (inv_children _ _ Hinv n nd c Hnd Hin).
  apply IH; lia.
Qed.

Lemma Select_not_Diverges h root n :
  tree_inv h root -> Select Log h n <> Diverges.
Proof.
  intros Hinv. destruct (decide (n < length h)) as [Hn|Hn].
  - apply (Select_rec_not_Diverges h root); [done..|lia].
  - unfold Select. cbn [Select_rec]. unfold deref.
    now rewrite (proj2 (lookup_ge_None h n)) by lia.
Qed.

Lemma successors_not_Diverges (st : S) (actions : list Action) :
  successors st actions <> Diverges.
Proof.
  induction actions as [|act rest IH]; simpl; [done|].
  pose proof (PerformAction_ends st act).
  destruct (PerformAction st act); simpl; [|done..].
  now destruct (successors st rest).
Qed.

Lemma Expand_not_Diverges h n : Expand h n <> Diverges.
Proof.
  unfold Expand, deref. destruct (h !! n) as [nd|] eqn:Hnd; simpl; [|done].
  rewrite (Expand_loop_eq _ h n nd Hnd).
  pose proof (successors_not_Diverges (state nd) (GetPossibleActions (state nd))).
  now destruct (successors (state nd) (GetPossibleActions (state nd))).
Qed.

Lemma Backpropagate_not_Diverges h root n (reward : float) :
  tree_inv h root -> Backpropagate h n reward <> Diverges.
Proof.
  intros Hinv. destruct (decide (n < length h)) as [Hn|Hn].
  - destruct (tree_inv_ancestors h root Hinv n Hn) as (l & Hl & _).
    destruct (Backpropagate_rec_spec reward l h n (Datatypes.S (length h)) Hl)
      as (h' & Hrun & _).
    { apply ancestors_length in Hl. lia. }
    unfold Backpropagate. now rewrite Hrun.
  - unfold Backpropagate. cbn [Backpropagate_rec]. unfold deref.
    now rewrite (proj2 (lookup_ge_None h n)) by lia.
Qed.

Lemma MCTS_step_not_Diverges h root :
  tree_inv h root -> MCTS_step Log h root <> Diverges.
Proof.
  intros Hinv. unfold MCTS_step.
  pose proof (Select_not_Diverges h root root Hinv) as Hsel.
  destruct (Select Log h root) as [node| |]; simpl; [|done..].
  destruct (h !! node) as [nd|] eqn:Hnd;
    [rewrite (deref_Some _ _ _ Hnd) | now rewrite (deref_None _ _ Hnd)].
  cbn [mbind result_bind].
  assert (Hexp : match (if negb (IsTerminal (state nd)) then Expand h node else Ok h) with
                 | Ok h1 => tree_inv h1 root
                 | Panic => True
                 | Diverges => False
                 end).
  { destruct (IsTerminal (state nd)) eqn:Hterm; simpl; [exact Hinv|].
    pose proof (Expand_not_Diverges h node) as Hne.
    destruct (Expand h node) as [h1| |] eqn:Hexp; [|done..].
    apply Expand_Ok_inv in Hexp as (nd' & ss & Hnd' & ->).
    assert (nd' = nd) as -> by congruence. now apply tree_inv_expanded. }
  destruct (if negb (IsTerminal (state nd)) then Expand h node else Ok h) as [h1| |];
    simpl; [|done..].
  pose proof (Select_not_Diverges h1 root node Hexp) as Hsel'.
  destruct (Select Log h1 node) as [child| |]; simpl; [|done..].
  unfold deref. destruct (h1 !! child) as [cd|]; simpl; [|done].
  pose proof (Backpropagate_not_Diverges h1 root child (GetReward (state cd)) Hexp).
  now destruct (Backpropagate h1 child (GetReward (state cd))).
Qed.

Lemma MCTS_loop_not_Diverges k : forall h root,
  tree_inv h root -> MCTS_loop Log k h root <> Diverges.
Proof.
  induction k as [|k IH]; intros h root Hinv; cbn [MCTS_loop]; [done|].
  pose proof (MCTS_step_not_Diverges h root Hinv) as Hstep.
  destruct (MCTS_step Log h root) as [[h1 reward]| |] eqn:Hrun; simpl; [|done..].
  destruct (MCTS_step_spec Log _ _ _ _ Hinv Hrun) as (Hinv1 & _).
  specialize (IH h1 root Hinv1).
  now destruct (MCTS_loop Log k h1 root) as [[h2 rs]| |].
Qed.

(** The engine itself never recurses without end: a call of [MCTS] returns
    or panics. *)
Lemma MCTS_not_Diverges (rootState : S) (iterations : Z) :
  MCTS Log rootState iterations <> Diverges.
Proof.
  unfold MCTS, MCTS_trace, NewNode. simpl.
  pose proof (MCTS_loop_not_Diverges (Z.to_nat iterations) _ 0
                (tree_inv_initial rootState)) as Hloop.
  now destruct (MCTS_loop Log (Z.to_nat iterations) _ 0) as [[h rs]| |].
Qed.

End Termination.

(** ** The depth bounds cut no recursion short *)

Lemma path_length_bound (step : addr -> addr -> Prop) (stop : addr -> Prop)
    (bound : nat) (n : addr) (l : list addr) :
  (forall n m m', step n m -> step n m' -> m = m') ->
  (forall n m, stop n -> step n m -> False) ->
  (forall n m, step n m -> n < bound) ->
  path step stop n l -> length l <= Datatypes.S bound.
Proof.
  intros Hfun Hfin Hvalid Hl.
  pose proof (path_NoDup step stop Hfun Hfin n l Hl) as Hnd.
  clear Hfun Hfin.
  assert (Hcount : forall a k, path step stop a k -> NoDup k ->
            exists k' x, k = k' ++ [x] /\ forall b, b ∈ k' -> b < bound).
  { clear -Hvalid. induction 1 as [a Ha|a m k Ham Hk IH]; intros Hnd.
    - exists [], a. split; [done|]. intros b Hb. now apply elem_of_nil in Hb.
    - apply list.NoDup_cons in Hnd as [_ Hnd].
      destruct (IH Hnd) as (k' & x & -> & Hlt).
      exists (a :: k'), x. split; [done|].
      intros b [->|Hb]%elem_of_cons; [eapply Hvalid; eauto | auto]. }
  destruct (Hcount n l Hl Hnd) as (k' & x & -> & Hlt).
  apply list.NoDup_app in Hnd as (Hnd & _ & _).
  rewrite length_app. simpl.
  pose proof (NoDup_bounded_length k' bound Hnd Hlt). lia.
Qed.

Section Depth.
Context {S : Type}.
Variable Log : float -> float.
Implicit Types (h : heap S) (nd : Node S) (n c : addr).

Lemma selects_functional h n c c' : selects Log h n c -> selects Log h n c' -> c = c'.
Proof. intros (nd & Hn & _ & Hc) (nd' & Hn' & _ & Hc'). congruence. Qed.

Lemma Select_halts_final h n c : Select_halts Log h n -> selects Log h n c -> False.
Proof. intros Hhalt Hsel. exact (Hhalt c Hsel). Qed.

Lemma Select_rec_path depth : forall h n,
  Select_rec Log depth h n <> Diverges ->
  exists l, path (selects Log h) (Select_halts Log h) n l /\ length l <= depth.
Proof.
  induction depth as [|depth IH]; intros h n; cbn [Select_rec]; [done|].
  destruct (h !! n) as [nd|] eqn:Hn.
  - rewrite (deref_Some _ _ _ Hn). cbn [mbind result_bind].
    destruct (IsLeaf nd) eqn:Hleaf.
    { intros _. exists [n]. split; [|simpl; lia]. apply path_stop.
      intros c (nd' & Hn' & Hleaf' & _). congruence. }
    destruct (Select_loop Log h (children nd) (math.Inf (-1)) None)
      as [[c|]| |] eqn:Hloop; cbn [mbind result_bind].
    + intros Hrec. destruct (IH h c Hrec) as (l & Hl & Hlen).
      exists (n :: l). split; [|simpl; lia].
      eapply path_step; [|exact Hl]. now exists nd.
    + intros _. exists [n]. split; [|simpl; lia]. apply path_stop.
      intros c (nd' & Hn' & _ & Hc). congruence.
    + intros _. exists [n]. split; [|simpl; lia]. apply path_stop.
      intros c (nd' & Hn' & _ & Hc). congruence.
    + intros _. exists [n]. split; [|simpl; lia]. apply path_stop.
      intros c (nd' & Hn' & _ & Hc). congruence.
  - intros _. exists [n]. split; [|simpl; lia]. apply path_stop.
    intros c (nd' & Hn' & _). congruence.
Qed.

Lemma Select_rec_along_path h l : forall n depth depth',
  path (selects Log h) (Select_halts Log h) n l ->
  length l <= depth -> length l <= depth' ->
  Select_rec Log depth h n = Select_rec Log depth' h n.
Proof.
  induction l as [|x l IH]; intros n depth depth' Hl Hd Hd'; [inversion Hl|].
  destruct depth as [|depth]; [simpl in Hd; lia|].
  destruct depth' as [|depth']; [simpl in Hd'; lia|].
  pose proof (path_head _ _ _ _ Hl) as [= ->].
  cbn [Select_rec].
  destruct (deref h n) as [nd| |] eqn:Hn; cbn [mbind result_bind]; try done.
  destruct (IsLeaf nd) eqn:Hleaf; [done|].
  destruct (Select_loop Log h (children nd) (math.Inf (-1)) None)
    as [[c|]| |] eqn:Hloop; cbn [mbind result_bind]; try done.
  assert (Hsel : selects Log h n c) by (exists nd; now apply deref_Ok in Hn).
  inversion Hl as [? Hhalt|? c' ? Hsel' Hrest]; subst.
  - now destruct (Hhalt c).
  - rewrite (selects_functional h n c c' Hsel Hsel').
    apply IH; [done|simpl in *; lia..].
Qed.

(** Whatever depth lets the recursion of [Select] come to an end, the depth
    that [Select] allows is enough for the same result. *)
Lemma Select_depth_irrelevant h n depth :
  Select_rec Log depth h n <> Diverges ->
  Select Log h n = Select_rec Log depth h n.
Proof.
  intros Hrec. destruct (Select_rec_path depth h n Hrec) as (l & Hl & Hlen).
  apply (Select_rec_along_path h l); [done| |done].
  apply (path_length_bound (selects Log h) (Select_halts Log h) (length h) n l);
    [| | |done].
  - apply selects_functional.
  - apply Select_halts_final.
  - intros a b (nd & Ha & _). now apply lookup_lt_Some in Ha.
Qed.

End Depth.

Lemma path_ext (step step' : addr -> addr -> Prop) (stop stop' : addr -> Prop)
    (n : addr) (l : list addr) :
  (forall a b, step a b -> step' a b) -> (forall a, stop a -> stop' a) ->
  path step stop n l -> path step' stop' n l.
Proof.
  intros Hstep Hstop. induction 1; [apply path_stop | eapply path_step]; eauto.
Qed.

Section DepthB.
Context {S : Type}.
Implicit Types (h : heap S) (nd : Node S) (n p : addr).

Lemma has_parent_insert h n nd nd' a b :
  h !! n = Some nd -> parent nd' = parent nd ->
  has_parent (<[n := nd']> h) a b <-> has_parent h a b.
Proof.
  intros Hn Hp. pose proof (lookup_lt_Some _ _ _ Hn) as Hlt.
  unfold has_parent. destruct (decide (a = n)) as [->|Hne].
  - rewrite list_lookup_insert_eq by done. split.
    + intros (x & [= <-] & Hx). exists nd. split; congruence.
    + intros (x & Hx & Hb). exists nd'. split; congruence.
  - now rewrite list_lookup_insert_ne.
Qed.

Lemma parent_path_insert h n nd nd' a l :
  h !! n = Some nd -> parent nd' = parent nd ->
  path (has_parent (<[n := nd']> h)) (no_parent (<[n := nd']> h)) a l
  <-> path (has_parent h) (no_parent h) a l.
Proof.
  intros Hn Hp. split; apply path_ext.
  - intros x y. apply (has_parent_insert h n nd nd' x y Hn Hp).
  - intros x Hx y Hy. apply (Hx y). now apply (has_parent_insert h n nd nd' x y Hn Hp).
  - intros x y. apply (has_parent_insert h n nd nd' x y Hn Hp).
  - intros x Hx y Hy. apply (Hx y). now apply (has_parent_insert h n nd nd' x y Hn Hp).
Qed.

Lemma no_parent_final h n p : no_parent h n -> has_parent h n p -> False.
Proof. intros Hno Hp. exact (Hno p Hp). Qed.

Lemma Backpropagate_rec_path depth (reward : float) : forall h n,
  Backpropagate_rec depth h n reward <> Diverges ->
  exists l, path (has_parent h) (no_parent h) n l /\ length l <= depth.
Proof.
  induction depth as [|depth IH]; intros h n; cbn [Backpropagate_rec]; [done|].
  destruct (h !! n) as [nd|] eqn:Hn.
  - rewrite (deref_Some _ _ _ Hn). cbn [mbind result_bind].
    destruct (parent nd) as [p|] eqn:Hp.
    + intros Hrec. destruct (IH _ p Hrec) as (l & Hl & Hlen).
      apply (parent_path_insert h n nd (visit reward nd) p l Hn eq_refl) in Hl.
      exists (n :: l). split; [|simpl; lia].
      eapply path_step; [|exact Hl]. now exists nd.
    + intros _. exists [n]. split; [|simpl; lia]. apply path_stop.
      intros p (nd' & Hn' & Hp'). congruence.
  - intros _. exists [n]. split; [|simpl; lia]. apply path_stop.
    intros p (nd' & Hn' & _). congruence.
Qed.

Lemma Backpropagate_rec_along_path (reward : float) l : forall h n depth depth',
  path (has_parent h) (no_parent h) n l ->
  length l <= depth -> length l <= depth' ->
  Backpropagate_rec depth h n reward = Backpropagate_rec depth' h n reward.
Proof.
  induction l as [|x l IH]; intros h n depth depth' Hl Hd Hd'; [inversion Hl|].
  destruct depth as [|depth]; [simpl in Hd; lia|].
  destruct depth' as [|depth']; [simpl in Hd'; lia|].
  pose proof (path_head _ _ _ _ Hl) as [= ->].
  cbn [Backpropagate_rec].
  destruct (deref h n) as [nd| |] eqn:Hn; cbn [mbind result_bind]; try done.
  apply deref_Ok in Hn.
  destruct (parent nd) as [p|] eqn:Hp; [|done].
  inversion Hl as [? Hstop|? p' ? Hstep Hrest]; subst.
  - destruct (Hstop p). now exists nd.
  - assert (p' = p) as ->
      by (eapply has_parent_functional; [exact Hstep | now exists nd]).
    apply IH; [|simpl in *; lia..].
    now apply (parent_path_insert h n nd (visit reward nd) p l Hn eq_refl).
Qed.

(** The same for the walk of [Backpropagate] up the parent pointers. *)
Lemma Backpropagate_depth_irrelevant h n (reward : float) depth :
  Backpropagate_rec depth h n reward <> Diverges ->
  Backpropagate h n reward = Backpropagate_rec depth h n reward.
Proof.
  intros Hrec. destruct (Backpropagate_rec_path depth reward h n Hrec) as (l & Hl & Hlen).
  apply (Backpropagate_rec_along_path reward l); [done| |done].
  apply (path_length_bound (has_parent h) (no_parent h) (length h) n l); [| | |done].
  - apply has_parent_functional.
  - apply no_parent_final.
  - intros a b (nd & Ha & _). now apply lookup_lt_Some in Ha.
Qed.

End DepthB.

(** * The claims about the engine *)

Section EngineClaims.
Context {S Action : Type} `{!GameState S Action}.
Variable Log : float -> float.
Implicit Types (h : heap S) (nd : Node S) (n a root : addr).

(** C1.  [UCTValue] returns [+Inf] when [visits == 0], without looking at
    the parent pointer (which may be nil); for any other node, whose parent
    [p] exists, it returns
    [totalReward/visits + 1.41*sqrt(Log(p.visits)/visits)].  So the value of
    a node never visited compares strictly greater than the value of a node
    with [visits > 0] and finite statistics: a total reward that is a
    number, under a parent that has been visited, [math.Log] of whose count
    is a number that is not negative (as the logarithm of a count of 1 or
    more is). *)
Theorem UCTValue_unvisited_first :
  (forall h n nd,
     h !! n = Some nd -> visits nd = 0%Z -> UCTValue Log h n = Ok (math.Inf 1))
  /\ (forall h n nd p,
        h !! n = Some nd -> visits nd <> 0%Z -> deref_ptr h (parent nd) = Ok p ->
        UCTValue Log h n
        = Ok (totalReward nd / math.float64 (visits nd)
              + math.C * math.Sqrt (Log (math.float64 (visits p))
                                    / math.float64 (visits nd)))%float)
  /\ (forall h n m nd md p pd,
        h !! n = Some nd -> visits nd = 0%Z ->
        h !! m = Some md -> (0 < visits md <= GoInt.MaxInt)%Z ->
        is_number (totalReward md) = true ->
        parent md = Some p -> h !! p = Some pd -> (0 < visits pd)%Z ->
        math.le 0 (Log (math.float64 (visits pd))) = true ->
        math.IsInf (Log (math.float64 (visits pd))) 1 = false ->
        exists u v,
          UCTValue Log h n = Ok u /\ UCTValue Log h m = Ok v
          /\ math.gt u v = true).
Proof.
  assert (Hzero : forall h n nd,
    h !! n = Some nd -> visits nd = 0%Z -> UCTValue Log h n = Ok (math.Inf 1)).
  { intros h n nd Hn Hv. unfold UCTValue.
    rewrite (deref_Some _ _ _ Hn). cbn [mbind result_bind]. now rewrite Hv. }
  split; [exact Hzero|]. split.
  - intros h n nd p Hn Hv Hp. unfold UCTValue.
    rewrite (deref_Some _ _ _ Hn). cbn [mbind result_bind].
    destruct (Z.eqb_spec (visits nd) 0) as [|_]; [done|].
    now rewrite Hp.
  - intros h n m nd md p pd Hn Hv Hm Hvm Ht Hp Hpd _ HL0 HLinf.
    destruct (UCTValue_number Log h m md p pd Hm Hvm Ht Hp Hpd HL0 HLinf)
      as (v & Hval & Hnum).
    exists (math.Inf 1), v. split; [now apply (Hzero h n nd)|]. split; [done|].
    now apply is_number_between in Hnum as (_ & _ & Hlt).
Qed.

(** C2.  [Select] on a leaf returns the leaf itself.  On a node with
    children it makes its recursive call on the best child: the first child,
    in the order of the children list, whose UCT value is the maximum.  In a
    search under way ([scored]: the node has been visited and its children
    have finite statistics) every node with children has a best child, no
    child has a value above the value of the best child, and every child
    before it in the list has a value strictly below.  Repeating the step
    down to a leaf determines the node that [Select] returns: there is at
    most one such descent, [Select] returns the leaf that ends it, and in a
    tree whose inner nodes are scored there is one from every node.

    Whatever the statistics, the best child is the child at which the loop
    last replaces [bestChild]: its value is above [-Inf], no value is above
    it, and every earlier value is below it or is NaN, which the comparison
    passes over.  A node with children has such a child, or else (no value
    is above [-Inf], or [UCTValue] panics on a child) [Select] panics. *)
Theorem Select_first_maximal_child :
  (forall h n, is_leaf h n -> Select Log h n = Ok n)
  /\ (forall h n c depth,
        best_child Log h n c ->
        Select_rec Log (Datatypes.S depth) h n = Select_rec Log depth h c)
  /\ (forall h n nd,
        h !! n = Some nd -> children nd <> [] -> scored Log h n ->
        exists vs i v c,
          UCT_values Log h (children nd) vs
          /\ vs !! i = Some v /\ children nd !! i = Some c
          /\ (forall w, w ∈ vs -> math.le w v = true)
          /\ (forall j w, j < i -> vs !! j = Some w -> math.gt v w = true)
          /\ best_child Log h n c)
  /\ (forall h n l,
        descent Log h n l ->
        (forall l', descent Log h n l' -> l' = l)
        /\ exists leaf, list.last l = Some leaf /\ is_leaf h leaf
                        /\ Select Log h n = Ok leaf)
  /\ (forall h n,
        (forall a nd, h !! a = Some nd -> children nd <> [] -> scored Log h a) ->
        (forall a nd c, h !! a = Some nd -> c ∈ children nd -> a < c < length h) ->
        n < length h ->
        exists l, descent Log h n l)
  /\ (forall h n nd,
        h !! n = Some nd -> children nd <> [] ->
        (exists c, best_child Log h n c) \/ Select Log h n = Panic).
Proof.
  split; [|split; [|split; [|split; [|split]]]].
  - intros h n Hleaf. now apply Select_rec_leaf.
  - intros h n c depth. apply Select_rec_best_child.
  - intros h n nd. apply (best_child_scored Log).
  - intros h n l Hl. split.
    + intros l' Hl'.
      apply (path_functional (best_child Log h) (is_leaf h)
               (best_child_functional Log h) (is_leaf_final Log h) n l' l Hl' Hl).
    + destruct (Select_rec_descent Log h l n (Datatypes.S (length h)) Hl)
        as (leaf & Hlast & Hsel).
      { apply descent_length in Hl. lia. }
      exists leaf. split; [done|]. split; [|done].
      destruct (path_last _ _ _ _ Hl) as (m & Hm & Hstop). congruence.
  - intros h n Hsc Hord Hn. exact (descent_exists Log h Hsc Hord n Hn).
  - intros h n nd Hn Hne.
    destruct (UCT_values_or_Panic Log h (children nd)) as [(vs & Hvs)|(c & Hc & Hpanic)].
    + destruct (best_child_total Log h n nd vs Hn Hvs) as [Hbest|Hnone]; [now left|].
      right. eapply Select_rec_no_best; eauto.
    + right. eapply Select_rec_child_panics; eauto.
Qed.

(** C3.  For a node [n] whose state yields the actions
    [GetPossibleActions], each of them accepted by [PerformAction], [Expand]
    gives [n] one new child per action, in the order of the actions; the
    child for an action holds the state that [PerformAction] returns for it,
    has [n] as parent, no children, [visits == 0] and [totalReward == 0]; no
    other node changes.  A leaf thus ends with exactly as many children as
    there are actions, and with no action [Expand] changes nothing.  (The
    new children are appended: on a node that has children they come after
    them.) *)
Theorem Expand_appends_children h n nd (ss : list S) :
  h !! n = Some nd ->
  successors (state nd) (GetPossibleActions (state nd)) = Ok ss ->
  exists h' nd',
    Expand h n = Ok h'
    /\ length h' = length h + length (GetPossibleActions (state nd))
    /\ h' !! n = Some nd'
    /\ children nd' = children nd ++ seq (length h) (length (GetPossibleActions (state nd)))
    /\ (state nd', parent nd', visits nd', totalReward nd')
       = (state nd, parent nd, visits nd, totalReward nd)
    /\ (forall (i : nat) (act : Action),
          GetPossibleActions (state nd) !! i = Some act ->
          exists st, PerformAction (state nd) act = Ok st
            /\ children nd' !! (length (children nd) + i) = Some (length h + i)
            /\ h' !! (length h + i) = Some (mkNode st (Some n) [] 0%Z 0%float))
    /\ (forall a, a < length h -> a <> n -> h' !! a = h !! a)
    /\ (children nd = [] ->
          length (children nd') = length (GetPossibleActions (state nd)))
    /\ (GetPossibleActions (state nd) = [] -> h' = h).
Proof.
  intros Hn Hss. pose proof (lookup_lt_Some _ _ _ Hn) as Hlt.
  pose proof (successors_length _ _ _ Hss) as Hlen.
  exists (expanded h n nd ss), (set_children nd (children nd ++ seq (length h) (length ss))).
  split.
  { unfold Expand. rewrite (deref_Some _ _ _ Hn). cbn [mbind result_bind].
    rewrite (Expand_loop_eq _ h n nd Hn), Hss. reflexivity. }
  split; [now rewrite expanded_length, Hlen|].
  split; [now apply expanded_lookup_node|].
  split; [simpl; now rewrite Hlen|].
  split; [reflexivity|].
  split.
  { intros i act Hact.
    destruct (successors_lookup _ _ _ _ _ Hss Hact) as (st & Hst & Hi).
    exists st. split; [done|]. split.
    - simpl. rewrite lookup_app_r by lia.
      replace (length (children nd) + i - length (children nd)) with i by lia.
      apply lookup_seq. split; [done|]. apply lookup_lt_Some in Hi. lia.
    - now apply expanded_lookup_new. }
  split; [intros a Ha Hne; now apply expanded_lookup_old|].
  split.
  { intros Hnil. simpl. rewrite Hnil. simpl. now rewrite length_seq. }
  intros Hnil. rewrite Hnil in Hlen. destruct ss; [|done].
  now apply expanded_nil.
Qed.

(** C4.  Let [l] be the chain of [n], its parent, its grandparent, ... up to
    the node whose parent is nil.  [Backpropagate(reward)] on [n] returns,
    and in the heap it leaves, every node of [l] has had its [visits]
    incremented (Go's [++]: by exactly 1 unless the counter was at the
    largest [int]) and the same, un-negated [reward] added to its
    [totalReward], its other fields being as before; every node outside [l]
    is unchanged. *)
Theorem Backpropagate_updates_ancestors h n (l : list addr) (reward : float) :
  ancestors h n l ->
  exists h',
    Backpropagate h n reward = Ok h'
    /\ length h' = length h
    /\ n ∈ l
    /\ (exists r, list.last l = Some r /\ is_root h r)
    /\ (forall a nd, a ∈ l -> h !! a = Some nd ->
          h' !! a = Some (mkNode (state nd) (parent nd) (children nd)
                                 (GoInt.add (visits nd) 1)
                                 (totalReward nd + reward)%float)
          /\ ((GoInt.MinInt <= visits nd < GoInt.MaxInt)%Z ->
                GoInt.add (visits nd) 1 = (visits nd + 1)%Z))
    /\ (forall a, a ∉ l -> h' !! a = h !! a).
Proof.
  intros Hl.
  destruct (Backpropagate_rec_spec reward l h n (Datatypes.S (length h)) Hl)
    as (h' & Hrun & Hlen & Hget).
  { apply ancestors_length in Hl. lia. }
  exists h'. split; [exact Hrun|]. split; [done|].
  split. { apply path_head in Hl. destruct l; [done|]. injection Hl as ->. apply list_elem_of_here. }
  split; [exact (path_last _ _ _ _ Hl)|].
  split.
  - intros a nd Ha Hnd. split.
    + now rewrite Hget, decide_True, Hnd by done.
    + intros Hrange. apply GoInt_add_small.
      unfold GoInt.MinInt, GoInt.MaxInt in *. lia.
  - intros a Ha. now rewrite Hget, decide_False by done.
Qed.


(** C6.  Throughout a run of [N] iterations, that is after [k] completed
    iterations for every [k] from [0] to [N], every node of the tree whose
    state is terminal has an empty children list. *)
Theorem MCTS_terminal_nodes_stay_leaves (rootState : S) (N k : Z) h root :
  MCTS Log rootState N = Ok (h, root) -> (0 <= k <= N)%Z ->
  exists hk,
    MCTS Log rootState k = Ok (hk, root)
    /\ forall a nd,
         hk !! a = Some nd -> IsTerminal (state nd) = true -> children nd = [].
Proof.
  unfold MCTS. intros ([[h' root'] rs] & Hrun & [= <- <-])%bind_Ok_inv Hk.
  unfold MCTS_trace, NewNode in *. simpl in *.
  apply bind_Ok_inv in Hrun as ([h1 rs1] & Hloop & [= <- <- <-]).
  replace (Z.to_nat N) with (Z.to_nat k + (Z.to_nat N - Z.to_nat k)) in Hloop by lia.
  apply MCTS_loop_prefix in Hloop as (hk & rsk & rs2 & Hloopk & _ & _).
  exists hk. rewrite Hloopk. simpl. split; [done|].
  destruct (MCTS_loop_spec Log _ _ _ _ _ (tree_inv_initial rootState) Hloopk)
    as (Hinv & _).
  intros a nd Ha Hterm. eapply inv_terminal; eauto.
Qed.

(** C9.  [MCTS(s, 0)] returns a tree that consists of the root alone, with
    the state [s], no parent, no children, [visits == 0] and
    [totalReward == 0]. *)
Theorem MCTS_zero_iterations (s : S) :
  exists h root nd,
    MCTS Log s 0 = Ok (h, root)
    /\ h = [nd] /\ h !! root = Some nd
    /\ state nd = s /\ parent nd = None
    /\ children nd = [] /\ visits nd = 0%Z /\ totalReward nd = 0%float.
Proof.
  exists [mkNode s None [] 0%Z 0%float], 0, (mkNode s None [] 0%Z 0%float).
  repeat split.
Qed.

End EngineClaims.

(** * The claims about the tic-tac-toe game *)

Section TicTacToeClaims.
Import TicTacToe.

Lemma GoInt_sub_small (a b : Z) :
  (GoInt.MinInt <= a - b <= GoInt.MaxInt)%Z -> GoInt.sub a b = (a - b)%Z.
Proof.
  unfold GoInt.sub, GoInt.wrap, GoInt.MinInt, GoInt.MaxInt. intros Hab.
  rewrite Z.mod_small; lia.
Qed.

Lemma elem_of_range3 (i : Z) : i ∈ range3 <-> i = 0%Z \/ i = 1%Z \/ i = 2%Z.
Proof.
  unfold range3. rewrite !elem_of_cons, elem_of_nil. tauto.
Qed.

Lemma elem_of_GetPossibleActions (s : TicTacToeState) (i j : Z) :
  (i, j) ∈ TicTacToe.GetPossibleActions s
  <-> i ∈ range3 /\ j ∈ range3 /\ cell (board s) i j = Empty.
Proof.
  unfold TicTacToe.GetPossibleActions. rewrite list_elem_of_bind. split.
  - intros (i' & (j' & Hij & Hj')%list_elem_of_bind & Hi').
    destruct (Z.eqb_spec (cell (board s) i' j') Empty) as [He|_];
      [|now apply elem_of_nil in Hij].
    apply list_elem_of_singleton in Hij as [= -> ->]. done.
  - intros (Hi & Hj & He). exists i. split; [|done].
    apply list_elem_of_bind. exists j. split; [|done].
    rewrite He. simpl. apply list_elem_of_here.
Qed.

Lemma cell_set_cell_eq (b : Board) (i j v : Z) :
  i ∈ range3 -> j ∈ range3 -> cell (set_cell b i j v) i j = v.
Proof.
  intros Hi%elem_of_range3 Hj%elem_of_range3.
  destruct b as [[[[a0 a1] a2] [[b0 b1] b2]] [[c0 c1] c2]].
  destruct Hi as [->|[->| ->]], Hj as [->|[->| ->]]; reflexivity.
Qed.

Lemma cell_set_cell_ne (b : Board) (i j v i' j' : Z) :
  i ∈ range3 -> j ∈ range3 -> i' ∈ range3 -> j' ∈ range3 ->
  (i', j') <> (i, j) ->
  cell (set_cell b i j v) i' j' = cell b i' j'.
Proof.
  intros Hi%elem_of_range3 Hj%elem_of_range3 Hi'%elem_of_range3 Hj'%elem_of_range3.
  destruct b as [[[[a0 a1] a2] [[b0 b1] b2]] [[c0 c1] c2]].
  destruct Hi as [->|[->| ->]], Hj as [->|[->| ->]],
           Hi' as [->|[->| ->]], Hj' as [->|[->| ->]];
    intros Hne; try reflexivity; now destruct Hne.
Qed.

Lemma in_bounds_range3 (i : Z) : in_bounds i = true <-> i ∈ range3.
Proof.
  rewrite elem_of_range3. unfold in_bounds.
  rewrite andb_true_iff, Z.leb_le, Z.ltb_lt. lia.
Qed.

(** The game accepts every action that it lists itself, so that [Expand]
    does not panic, and it always answers. *)
Lemma TicTacToe_successors_Ok (s : TicTacToeState) :
  exists ss, successors s (GetPossibleActions s) = Ok ss.
Proof.
  apply successors_Ok. intros [i j] (Hi & Hj & _)%elem_of_GetPossibleActions.
  simpl. unfold TicTacToe.PerformAction.
  rewrite (proj2 (in_bounds_range3 i) Hi), (proj2 (in_bounds_range3 j) Hj).
  eauto.
Qed.

Lemma TicTacToe_MCTS_not_Diverges (Log : float -> float) (s : TicTacToeState) (N : Z) :
  MCTS Log s N <> Diverges.
Proof.
  apply MCTS_not_Diverges. intros st [i j]. simpl. unfold TicTacToe.PerformAction.
  now destruct (in_bounds i && in_bounds j).
Qed.

(** C8.  For an action [(i, j)] that [GetPossibleActions] lists for [s] (so
    that cell [(i, j)] of [s] is empty), [PerformAction] returns a state
    whose board is the board of [s] except that cell [(i, j)] holds
    [s.player], and whose player is Go's [3 - s.player]; called through a
    pointer to [s], it leaves the object behind that pointer, and every other
    object of the store, as it was, and returns a pointer to a new object. *)
Theorem PerformAction_fresh_state (s : TicTacToeState) (i j : Z) :
  (i, j) ∈ TicTacToe.GetPossibleActions s ->
  cell (board s) i j = Empty
  /\ exists s',
       TicTacToe.PerformAction s (i, j) = Ok s'
       /\ cell (board s') i j = player s
       /\ (forall i' j', in_bounds i' = true -> in_bounds j' = true ->
             (i', j') <> (i, j) -> cell (board s') i' j' = cell (board s) i' j')
       /\ player s' = GoInt.sub 3 (player s)
       /\ ((GoInt.MinInt + 3 < player s <= GoInt.MaxInt)%Z ->
             player s' = (3 - player s)%Z)
       /\ (forall (m : store) (p : addr),
             m !! p = Some s ->
             exists m' q,
               PerformAction_at m p (i, j) = Ok (m', q)
               /\ m' !! q = Some s'
               /\ q <> p
               /\ m' !! p = Some s
               /\ (forall a st, m !! a = Some st -> m' !! a = Some st)).
Proof.
  intros (Hi & Hj & He)%elem_of_GetPossibleActions. split; [done|].
  exists (mkState (set_cell (board s) i j (player s)) (GoInt.sub 3 (player s))).
  split.
  { unfold TicTacToe.PerformAction.
    now rewrite (proj2 (in_bounds_range3 i) Hi), (proj2 (in_bounds_range3 j) Hj). }
  split; [now apply cell_set_cell_eq|].
  split.
  { intros i' j' Hi'%in_bounds_range3 Hj'%in_bounds_range3 Hne.
    now apply cell_set_cell_ne. }
  split; [reflexivity|].
  split.
  { intros Hrange. simpl. apply GoInt_sub_small.
    unfold GoInt.MinInt, GoInt.MaxInt in *. lia. }
  intros m p Hp. pose proof (lookup_lt_Some _ _ _ Hp) as Hlt.
  eexists _, (length m). unfold PerformAction_at. rewrite Hp.
  unfold TicTacToe.PerformAction.
  rewrite (proj2 (in_bounds_range3 i) Hi), (proj2 (in_bounds_range3 j) Hj).
  cbn [andb mbind result_bind].
  split; [reflexivity|].
  split; [now rewrite lookup_app_r, Nat.sub_diag by lia|].
  split; [lia|].
  split; [now apply lookup_app_l_Some|].
  intros a st Ha. now apply lookup_app_l_Some.
Qed.

(** ** Evaluations *)

(** The engine's opening move, computed. *)
Lemma engine_turn_opening :
  engine_turn mathLog.Log initial 1000
  = Ok (mkState ((0, 1, 0), (0, 0, 0), (0, 0, 0))%Z O).
Proof. vm_compute. reflexivity. Qed.

(** The move does not hinge on the last bit of the logarithm: rounding
    every value of [math.Log] one step up, or one step down, leaves it as it
    is. *)
Lemma engine_turn_opening_nearby :
  engine_turn (fun x => next_up (mathLog.Log x)) initial 1000
  = Ok (mkState ((0, 1, 0), (0, 0, 0), (0, 0, 0))%Z O)
  /\ engine_turn (fun x => next_down (mathLog.Log x)) initial 1000
     = Ok (mkState ((0, 1, 0), (0, 0, 0), (0, 0, 0))%Z O).
Proof. split; vm_compute; reflexivity. Qed.

(** The visit counts from which [main] picks it: cells [(0,0)], [(0,1)],
    ... [(2,2)] in this order. *)
Lemma child_visits_opening :
  child_visits mathLog.Log initial 1000
  = Ok [109; 270; 108; 81; 81; 81; 108; 81; 81]%Z.
Proof. vm_compute. reflexivity. Qed.

(** C7, as amended.  From the empty board with X to move and 1000
    iterations, the most visited child of the root (the first one with the
    largest count) holds the state in which X has played cell [(0, 1)], the
    middle of the top edge. *)
Theorem engine_opens_on_top_edge :
  exists st,
    engine_turn mathLog.Log initial 1000 = Ok st
    /\ cell (board st) 0 1 = X
    /\ centre_or_corner st = false.
Proof.
  eexists. split; [exact engine_turn_opening|]. split; reflexivity.
Qed.

(** C7 as first stated fails: the state that the engine moves to has no X
    on the centre or on a corner. *)
Lemma engine_opening_not_centre_or_corner :
  ~ exists st,
      engine_turn mathLog.Log initial 1000 = Ok st
      /\ centre_or_corner st = true.
Proof.
  intros (st & Hst & Hcc). rewrite engine_turn_opening in Hst.
  injection Hst as <-. discriminate Hcc.
Qed.

(** The count of the parent matters: under a parent with [visits == 0],
    the logarithm is [-Inf], the value of the child visited once is NaN, and
    [+Inf] does not compare greater than NaN. *)
Lemma UCTValue_zero_parent_not_above :
  (u ← UCTValue mathLog.Log (family 0) 2;
   v ← UCTValue mathLog.Log (family 0) 1;
   Ok (u, math.gt u v))
  = Ok (infinity, false).
Proof. vm_compute. reflexivity. Qed.

(** [math.Log] of the counts from 1 to 1000, by the library's algorithm:
    numbers that are not negative. *)
Lemma Log_of_counts :
  forallb (fun k : nat =>
             let l := mathLog.Log (math.float64 (Z.of_nat k)) in
             math.le 0 l && negb (math.IsInf l 1))
          (seq 1 1000)
  = true.
Proof. vm_compute. reflexivity. Qed.

Lemma scored_family : scored mathLog.Log (family 3) 0.
Proof.
  eexists. split; [reflexivity|]. split; [done|]. split; [reflexivity|].
  split; [reflexivity|].
  intros c Hc. simpl in Hc.
  repeat (apply elem_of_cons in Hc as [->|Hc];
          [eexists; split; [reflexivity|]; split; [reflexivity|];
           split; [unfold GoInt.MaxInt; simpl; lia | reflexivity]|]).
  now apply elem_of_nil in Hc.
Qed.

Lemma UCTValue_unvisited_first_witness :
  exists u v,
    UCTValue mathLog.Log (family 3) 2 = Ok u
    /\ UCTValue mathLog.Log (family 3) 1 = Ok v
    /\ math.gt u v = true.
Proof.
  destruct (UCTValue_unvisited_first (S := TicTacToeState) mathLog.Log)
    as (_ & _ & Habove).
  eapply (Habove (family 3) 2 1 _ _ 0);
    [reflexivity | reflexivity | reflexivity | unfold GoInt.MaxInt; simpl; lia
    | reflexivity | reflexivity | reflexivity | done | reflexivity | reflexivity].
Defined.

(** No value above [-Inf]: the only child has the value [-Inf], [bestChild]
    stays nil and [Select] panics. *)
Lemma Select_lost_cause_panics :
  (v ← UCTValue mathLog.Log lost_cause 1; Ok (v, math.le v v)) = Ok (neg_infinity, true)
  /\ Select mathLog.Log lost_cause 0 = Panic.
Proof. split; vm_compute; reflexivity. Qed.

Lemma Select_first_maximal_child_witness :
  exists l, descent mathLog.Log (family 3) 0 l
            /\ Select mathLog.Log (family 3) 0 = Ok 2.
Proof.
  destruct (Select_first_maximal_child (S := TicTacToeState) mathLog.Log)
    as (_ & _ & _ & Hdescent & Hexists & _).
  destruct (Hexists (family 3) 0) as [l Hl].
  - intros a nd Ha Hne.
    destruct a as [|[|[|[|a]]]]; simpl in Ha; try discriminate;
      injection Ha as <-; try done.
    exact scored_family.
  - intros a nd c Ha Hc.
    destruct a as [|[|[|[|a]]]]; simpl in Ha; try discriminate;
      injection Ha as <-; simpl in Hc;
      repeat (apply elem_of_cons in Hc as [->|Hc]; [simpl; lia|]);
      now apply elem_of_nil in Hc.
  - simpl. lia.
  - exists l. split; [exact Hl|].
    destruct (Hdescent (family 3) 0 l Hl) as (_ & leaf & _ & _ & Hsel).
    pose proof Hsel as Hval. vm_compute in Hval. injection Hval as <-.
    exact Hsel.
Defined.

(** A value NaN is passed over: under a root with [visits == 0] the first
    child has the value NaN, and the best child is the second. *)
Lemma Select_passes_over_NaN :
  UCT_values mathLog.Log (family 0) [1; 2; 3] [nan; infinity; infinity]
  /\ best_child mathLog.Log (family 0) 0 2
  /\ Select mathLog.Log (family 0) 0 = Ok 2.
Proof.
  assert (Hvs : UCT_values mathLog.Log (family 0) [1; 2; 3] [nan; infinity; infinity])
    by (repeat constructor).
  split; [exact Hvs|]. split; [|reflexivity].
  eexists _, [nan; infinity; infinity], 1, infinity.
  split; [reflexivity|]. split; [exact Hvs|]. split; [|split; reflexivity].
  split; [reflexivity|]. split; [reflexivity|]. split.
  - intros w Hw. repeat (apply elem_of_cons in Hw as [->|Hw]; [reflexivity|]).
    now apply elem_of_nil in Hw.
  - intros [|j] w Hj Hw; [|lia]. injection Hw as <-. now right.
Qed.

(** The trees that the engine builds are in the state [scored]: after 200
    iterations from the empty board, every node with children is. *)
Lemma MCTS_tree_scored :
  match MCTS mathLog.Log initial 200 with
  | Ok (h, _) =>
      forallb (fun n => match h !! n with
                        | Some nd => IsLeaf nd || scoredb mathLog.Log h n
                        | None => false
                        end)
              (seq 0 (length h))
  | _ => false
  end = true.
Proof. vm_compute. reflexivity. Qed.

(** On a node that has children already, the new ones come after them:
    expanded twice, a node with 9 actions has 18 children. *)
Lemma Expand_twice_doubles :
  (h1 ← Expand sapling 0; h2 ← Expand h1 0; nd ← deref h2 0;
   Ok (length (GetPossibleActions (state nd)), length (children nd)))
  = Ok (9, 18).
Proof. vm_compute. reflexivity. Qed.

Lemma Expand_appends_children_witness :
  exists h',
    Expand sapling 0 = Ok h' /\ length h' = 10
    /\ exists nd', h' !! 0 = Some nd' /\ children nd' = seq 1 9.
Proof.
  edestruct (Expand_appends_children sapling 0)
    as (h' & nd' & Hrun & Hlen & Hnd' & Hch & _);
    [reflexivity | vm_compute; reflexivity |].
  exists h'. split; [exact Hrun|]. split; [exact Hlen|].
  exists nd'. split; [exact Hnd' | exact Hch].
Defined.

Lemma Backpropagate_updates_ancestors_witness :
  exists h',
    Backpropagate (family 1) 2 1%float = Ok h'
    /\ h' !! 0 = Some (mkNode initial None [1; 2; 3] 2%Z 1%float)
    /\ h' !! 2 = Some (mkNode initial (Some 0) [] 1%Z 1%float)
    /\ h' !! 1 = family 1 !! 1.
Proof.
  destruct (Backpropagate_updates_ancestors (family 1) 2 [2; 0] 1%float)
    as (h' & Hrun & _ & _ & _ & Hin & Hout).
  { eapply path_step; [|apply path_stop]; eexists; split; reflexivity. }
  exists h'. split; [exact Hrun|].
  split; [|split].
  - refine (proj1 (Hin 0 _ _ eq_refl)). apply list_elem_of_further, list_elem_of_here.
  - refine (proj1 (Hin 2 _ _ eq_refl)). apply list_elem_of_here.
  - apply Hout. intros Hin1.
    repeat (apply elem_of_cons in Hin1 as [Hin1|Hin1]; [discriminate|]).
    now apply elem_of_nil in Hin1.
Defined.


Lemma MCTS_terminal_nodes_stay_leaves_witness :
  match MCTS mathLog.Log near_win 6 with
  | Ok (h, root) =>
      exists hk nd,
        MCTS mathLog.Log near_win 3 = Ok (hk, root)
        /\ hk !! 1 = Some nd /\ IsTerminal (state nd) = true /\ children nd = []
  | _ => False
  end.
Proof.
  destruct (MCTS mathLog.Log near_win 6) as [[h root]| |] eqn:Hrun.
  - destruct (MCTS_terminal_nodes_stay_leaves mathLog.Log near_win 6 3 h root Hrun)
      as (hk & Hrunk & Hleaves); [lia|].
    assert (Hnd : exists nd, hk !! 1 = Some nd /\ IsTerminal (state nd) = true).
    { pose proof Hrunk as Hk. vm_compute in Hk. injection Hk as <- _.
      eexists. split; reflexivity. }
    destruct Hnd as (nd & Hnd & Hterm).
    exists hk, nd. split; [exact Hrunk|]. split; [exact Hnd|].
    split; [exact Hterm|]. exact (Hleaves 1 nd Hnd Hterm).
  - vm_compute in Hrun. discriminate Hrun.
  - vm_compute in Hrun. discriminate Hrun.
Defined.

Lemma PerformAction_fresh_state_witness :
  exists s',
    TicTacToe.PerformAction initial (1, 1)%Z = Ok s'
    /\ cell (board s') 1 1 = X /\ player s' = O.
Proof.
  destruct (PerformAction_fresh_state initial 1 1)
    as (_ & s' & Hrun & Hcell & _ & Hplayer & _).
  { apply elem_of_GetPossibleActions. repeat split; repeat constructor. }
  exists s'. split; [exact Hrun|]. split; [exact Hcell | exact Hplayer].
Defined.

End TicTacToeClaims.

(** * Further properties of the engine *)

Section Iteration.
Context {S Action : Type} `{!GameState S Action}.
Variable Log : float -> float.
Implicit Types (h : heap S) (nd : Node S) (n a root : addr) (ss : list S).

Lemma Select_rec_Ok_leaf depth : forall h n m,
  Select_rec Log depth h n = Ok m -> is_leaf h m.
Proof.
  induction depth as [|depth IH]; intros h n m; cbn [Select_rec]; [done|].
  intros (nd & Hn%deref_Ok & Hrest)%bind_Ok_inv.
  destruct (IsLeaf nd) eqn:Hleaf.
  - injection Hrest as <-. exists nd. split; [done|]. now apply IsLeaf_true.
  - apply bind_Ok_inv in Hrest as ([c|] & _ & Hrec); [|done]. eauto.
Qed.

Lemma Expand_Ok_successors h n h' :
  Expand h n = Ok h' ->
  exists nd ss, h !! n = Some nd
    /\ successors (state nd) (GetPossibleActions (state nd)) = Ok ss
    /\ h' = expanded h n nd ss.
Proof.
  unfold Expand. intros (nd & Hn%deref_Ok & Hloop)%bind_Ok_inv.
  rewrite (Expand_loop_eq _ h n nd Hn) in Hloop.
  apply bind_Ok_inv in Hloop as (ss & Hss & [= <-]). eauto.
Qed.

Lemma UCTValue_unvisited h n nd :
  h !! n = Some nd -> visits nd = 0%Z -> UCTValue Log h n = Ok (math.Inf 1).
Proof.
  intros Hn Hv. unfold UCTValue.
  rewrite (deref_Some _ _ _ Hn). cbn [mbind result_bind]. now rewrite Hv.
Qed.

Lemma Select_loop_unvisited h (cs : list addr) (bestChild : option addr) :
  (forall c, c ∈ cs -> exists cd, h !! c = Some cd /\ visits cd = 0%Z) ->
  Select_loop Log h cs (math.Inf 1) bestChild = Ok bestChild.
Proof.
  induction cs as [|c cs IH]; intros Hall; cbn [Select_loop]; [done|].
  destruct (Hall c) as (cd & Hc & Hv); [apply list_elem_of_here|].
  rewrite (UCTValue_unvisited h c cd Hc Hv). cbn [mbind result_bind].
  replace (math.gt (math.Inf 1) (math.Inf 1)) with false by reflexivity.
  apply IH. intros c' Hc'. apply Hall. now apply list_elem_of_further.
Qed.

(** Among children that have never been visited, [Select] takes the
    first. *)
Lemma Select_first_unvisited h n nd c (cs : list addr) :
  h !! n = Some nd -> children nd = c :: cs ->
  (forall c', c' ∈ c :: cs ->
     exists cd, h !! c' = Some cd /\ visits cd = 0%Z /\ children cd = []) ->
  Select Log h n = Ok c.
Proof.
  intros Hn Hcs Hall. pose proof (lookup_lt_Some _ _ _ Hn) as Hlt.
  unfold Select. cbn [Select_rec].
  rewrite (deref_Some _ _ _ Hn). cbn [mbind result_bind].
  unfold IsLeaf. rewrite Hcs. cbn [length Nat.eqb Select_loop].
  destruct (Hall c) as (cd & Hc & Hv & Hleaf); [apply list_elem_of_here|].
  rewrite (UCTValue_unvisited h c cd Hc Hv). cbn [mbind result_bind].
  replace (math.gt (math.Inf 1) (math.Inf (-1))) with true by reflexivity.
  rewrite Select_loop_unvisited.
  - cbn [mbind result_bind]. destruct (length h) as [|m] eqn:Hlen; [lia|].
    cbn [Select_rec]. rewrite (deref_Some _ _ _ Hc). cbn [mbind result_bind].
    unfold IsLeaf. now rewrite Hleaf.
  - intros c' Hc'. destruct (Hall c') as (cd' & ? & ? & _);
      [now apply list_elem_of_further|]. eauto.
Qed.

Lemma MCTS_step_iteration h root h2 (reward : float) :
  tree_inv h root -> MCTS_step Log h root = Ok (h2, reward) ->
  exists node child l,
    Select Log h root = Ok node /\ iteration h root h2 reward node child l.
Proof.
  intros Hinv. unfold MCTS_step.
  intros (node & Hsel & Hrest)%bind_Ok_inv.
  apply bind_Ok_inv in Hrest as (nd & Hnode%deref_Ok & Hrest).
  apply bind_Ok_inv in Hrest as (h1 & Hexp & Hrest).
  apply bind_Ok_inv in Hrest as (child & Hsel' & Hrest).
  apply bind_Ok_inv in Hrest as (cd & Hchild%deref_Ok & Hrest).
  apply bind_Ok_inv in Hrest as (h2' & Hback & [= <- <-]).
  pose proof (lookup_lt_Some _ _ _ Hnode) as Hlt.
  destruct (Select_rec_Ok_leaf _ _ _ _ Hsel) as (nd' & Hnode' & Hleaf).
  assert (nd' = nd) as -> by congruence.
  assert (Hleaf1 : is_leaf h1 child) by exact (Select_rec_Ok_leaf _ _ _ _ Hsel').
  destruct Hleaf1 as (cd' & Hchild' & Hcleaf).
  assert (cd' = cd) as -> by congruence.
  unfold Select in Hsel'.
  (* what the expansion does, and which node is evaluated *)
  assert (Hcases :
    (h1 = h /\ child = node
     /\ (IsTerminal (state nd) = true \/ GetPossibleActions (state nd) = []))
    \/ (exists st ss,
          IsTerminal (state nd) = false
          /\ successors (state nd) (GetPossibleActions (state nd)) = Ok (st :: ss)
          /\ h1 = expanded h node nd (st :: ss) /\ child = length h)).
  { destruct (IsTerminal (state nd)) eqn:Hterm; cbn [negb] in Hexp.
    - injection Hexp as <-. left. split; [done|]. split; [|now left].
      rewrite (Select_rec_leaf Log h node) in Hsel' by (now exists nd).
      congruence.
    - apply Expand_Ok_successors in Hexp as (nd' & ss & Hnode'' & Hss & ->).
      assert (nd' = nd) as -> by congruence.
      destruct ss as [|st ss].
      + rewrite expanded_nil in * by done. left. split; [done|]. split.
        * rewrite (Select_rec_leaf Log h node) in Hsel' by (now exists nd).
          congruence.
        * right. apply successors_length in Hss.
          destruct (GetPossibleActions (state nd)); [done|simpl in Hss; lia].
      + right. exists st, ss. split; [done|]. split; [done|]. split; [done|].
        assert (Select Log (expanded h node nd (st :: ss)) node = Ok (length h)) as Hfirst.
        { eapply (Select_first_unvisited _ node _ (length h)
                    (seq (Datatypes.S (length h)) (length ss))).
          - now apply expanded_lookup_node.
          - cbn [set_children children]. now rewrite Hleaf.
          - intros c' Hc'.
            assert (c' ∈ seq (length h) (length (st :: ss))) as Hin by exact Hc'.
            apply elem_of_seq in Hin.
            destruct (lookup_lt_is_Some_2 (st :: ss) (c' - length h)) as [st' Hst'];
              [lia|].
            exists (fresh node st'). split; [|done].
            replace c' with (length h + (c' - length h)) by lia.
            now apply expanded_lookup_new. }
        unfold Select in Hfirst. congruence. }
  (* the walk back to the root *)
  assert (Hinv1 : tree_inv h1 root).
  { destruct Hcases as [(-> & _)|(st & ss & Hterm & _ & -> & _)]; [done|].
    now apply tree_inv_expanded. }
  destruct (tree_inv_ancestors h1 root Hinv1 child) as (l & Hl & Hin);
    [now apply lookup_lt_Some in Hchild|].
  destruct (Backpropagate_rec_spec (GetReward (state cd)) l h1 child
              (Datatypes.S (length h1)) Hl) as (h2'' & Hrun & Hlen & Hget).
  { apply ancestors_length in Hl. lia. }
  unfold Backpropagate in Hback. rewrite Hrun in Hback. injection Hback as ->.
  exists node, child, l. split; [done|].
  exists nd, h1, cd. repeat (split; [done|]). done.
Qed.

End Iteration.

(** ** The shape of the tree *)

Section ShapeSteps.
Context {S Action : Type} `{!GameState S Action}.
Implicit Types (h : heap S) (nd : Node S) (n a root : addr) (ss : list S).

Lemma tree_shape_initial (rootState : S) :
  tree_shape [mkNode rootState None [] 0%Z 0%float] 0.
Proof.
  split.
  - apply tree_inv_initial.
  - intros [|a] nd c Ha Hc; simpl in Ha; [|done]. injection Ha as <-.
    now apply elem_of_nil in Hc.
  - intros [|c] p (cd & Hc & Hp); simpl in Hc; [|done]. now injection Hc as <-.
  - intros [|a] nd Ha; simpl in Ha; [|done]. injection Ha as <-. constructor.
  - intros [|a] nd Ha Hne; simpl in Ha; [|done]. now injection Ha as <-.
Qed.

(** An expansion leaves the old nodes their states and parents. *)
Lemma expanded_keeps h n nd ss a x :
  h !! n = Some nd -> h !! a = Some x ->
  exists x', expanded h n nd ss !! a = Some x'
    /\ state x' = state x /\ parent x' = parent x
    /\ visits x' = visits x /\ totalReward x' = totalReward x
    /\ (a <> n -> x' = x).
Proof.
  intros Hn Ha. destruct (decide (a = n)) as [->|Hne].
  - eexists. split; [now apply expanded_lookup_node|].
    assert (x = nd) as -> by congruence. done.
  - exists x. rewrite expanded_lookup_old; [done| |done].
    now apply lookup_lt_Some in Ha.
Qed.

Lemma tree_shape_expanded h root n nd ss :
  tree_shape h root -> h !! n = Some nd -> children nd = [] ->
  IsTerminal (state nd) = false ->
  successors (state nd) (GetPossibleActions (state nd)) = Ok ss ->
  tree_shape (expanded h n nd ss) root.
Proof.
  intros [Hinv Hchild Hlisted Hnd Hstates] Hn Hleaf Hterm Hss.
  pose proof (lookup_lt_Some _ _ _ Hn) as Hlt.
  assert (Hnew : forall c, c ∈ seq (length h) (length ss) ->
            exists st, ss !! (c - length h) = Some st
              /\ expanded h n nd ss !! c = Some (fresh n st)).
  { intros c Hc%elem_of_seq.
    destruct (lookup_lt_is_Some_2 ss (c - length h)) as [st Hst]; [lia|].
    exists st. split; [done|].
    replace c with (length h + (c - length h)) at 1 by lia.
    now apply expanded_lookup_new. }
  split.
  - now apply tree_inv_expanded.
  - intros a x c Ha Hc.
    destruct (expanded_lookup_inv h n nd ss a x Hn Ha)
      as [[-> ->]|[(Ho & Hne & Hx)|(i & st & -> & Hst & ->)]].
    + cbn [set_children children] in Hc. rewrite Hleaf in Hc.
      destruct (Hnew c Hc) as (st & _ & Hget). now exists (fresh n st).
    + destruct (Hchild a x c Hx Hc) as (cd & Hcd & Hp).
      destruct (expanded_keeps h n nd ss c cd Hn Hcd) as (cd' & Hcd' & _ & Hp' & _).
      exists cd'. split; [done|]. congruence.
    + now apply elem_of_nil in Hc.
  - intros c p (cd & Hc & Hp).
    destruct (expanded_lookup_inv h n nd ss c cd Hn Hc)
      as [[-> ->]|[(Ho & Hne & Hx)|(i & st & -> & Hst & ->)]].
    + destruct (Hlisted n p) as (pd & Hpd & Hin); [now exists nd|].
      assert (p <> n) as Hpn by (intros ->; rewrite Hn in Hpd; injection Hpd as <-;
                                 rewrite Hleaf in Hin; now apply elem_of_nil in Hin).
      exists pd. split; [|done]. rewrite expanded_lookup_old; [done| |done].
      now apply lookup_lt_Some in Hpd.
    + destruct (Hlisted c p) as (pd & Hpd & Hin); [now exists cd|].
      assert (p <> n) as Hpn by (intros ->; rewrite Hn in Hpd; injection Hpd as <-;
                                 rewrite Hleaf in Hin; now apply elem_of_nil in Hin).
      exists pd. split; [|done]. rewrite expanded_lookup_old; [done| |done].
      now apply lookup_lt_Some in Hpd.
    + cbn [fresh parent] in Hp. injection Hp as <-.
      eexists. split; [now apply expanded_lookup_node|].
      cbn [set_children children]. rewrite Hleaf. cbn [app].
      apply elem_of_seq. apply lookup_lt_Some in Hst. lia.
  - intros a x Ha.
    destruct (expanded_lookup_inv h n nd ss a x Hn Ha)
      as [[-> ->]|[(Ho & Hne & Hx)|(i & st & -> & Hst & ->)]].
    + cbn [set_children children]. rewrite Hleaf. apply NoDup_seq.
    + now apply (Hnd a).
    + constructor.
  - intros a x Ha Hne.
    destruct (expanded_lookup_inv h n nd ss a x Hn Ha)
      as [[-> ->]|[(Ho & Hna & Hx)|(i & st & -> & Hst & ->)]].
    + exists ss. split; [done|].
      cbn [set_children children]. rewrite Hleaf. cbn [app].
      apply Forall2_same_length_lookup_2; [now rewrite length_seq|].
      intros i c st Hc Hst. apply lookup_seq in Hc as [-> Hi].
      exists (fresh n st). split; [|done]. now apply expanded_lookup_new.
    + destruct (Hstates a x Hx Hne) as (ss' & Hss' & Hall).
      exists ss'. split; [done|].
      clear -Hall Hn. induction Hall as [|c st cs sts (cd & Hcd & Hst) _ IH];
        constructor; [|done].
      destruct (expanded_keeps h n nd ss c cd Hn Hcd) as (cd' & Hcd' & Hs & _).
      exists cd'. split; [done|]. congruence.
    + done.
Qed.

(** Two heaps that differ in statistics only. *)
Lemma tree_shape_visited h h' root (reward : float) (l : list addr) :
  tree_shape h root -> length h' = length h ->
  (forall a, h' !! a = if decide (a ∈ l) then visit reward <$> h !! a else h !! a) ->
  tree_shape h' root.
Proof.
  intros [Hinv Hchild Hlisted Hnd Hstates] Hlen Hget.
  assert (Hback : forall a x, h' !! a = Some x ->
            exists y, h !! a = Some y /\ state x = state y
                      /\ parent x = parent y /\ children x = children y).
  { intros a x. rewrite Hget. destruct (decide (a ∈ l)).
    - destruct (h !! a) as [y|]; simpl; [|done]. intros [= <-]. now exists y.
    - intros Hx. now exists x. }
  assert (Hforth : forall a y, h !! a = Some y ->
            exists x, h' !! a = Some x /\ state x = state y
                      /\ parent x = parent y /\ children x = children y).
  { intros a y Hy. rewrite Hget, Hy. destruct (decide (a ∈ l)); eexists; done. }
  split.
  - eapply tree_inv_visited; eauto.
  - intros a x c Hx Hc. destruct (Hback a x Hx) as (y & Hy & _ & _ & Hcs).
    rewrite Hcs in Hc. destruct (Hchild a y c Hy Hc) as (cd & Hcd & Hp).
    destruct (Hforth c cd Hcd) as (cd' & Hcd' & _ & Hp' & _).
    exists cd'. split; [done|]. congruence.
  - intros c p (cd & Hcd & Hp). destruct (Hback c cd Hcd) as (y & Hy & _ & Hp' & _).
    destruct (Hlisted c p) as (pd & Hpd & Hin); [exists y; split; congruence|].
    destruct (Hforth p pd Hpd) as (pd' & Hpd' & _ & _ & Hcs).
    exists pd'. split; [done|]. congruence.
  - intros a x Hx. destruct (Hback a x Hx) as (y & Hy & _ & _ & Hcs).
    rewrite Hcs. now apply (Hnd a).
  - intros a x Hx Hne. destruct (Hback a x Hx) as (y & Hy & Hs & _ & Hcs).
    rewrite Hcs in Hne |- *. rewrite Hs.
    destruct (Hstates a y Hy Hne) as (ss & Hss & Hall). exists ss. split; [done|].
    clear -Hall Hforth. induction Hall as [|c st cs sts (cd & Hcd & Hst) _ IH];
      constructor; [|done].
    destruct (Hforth c cd Hcd) as (cd' & Hcd' & Hs & _).
    exists cd'. split; [done|]. congruence.
Qed.

Lemma iteration_tree_shape h root h2 (reward : float) node child (l : list addr) :
  tree_shape h root -> iteration h root h2 reward node child l ->
  tree_shape h2 root.
Proof.
  intros Hshape (nd & h1 & cd & Hnode & Hleaf & Hcases & _ & _ & _ & _ & _ & Hlen & Hget).
  apply (tree_shape_visited h1 h2 root reward l); [|done..].
  destruct Hcases as [(-> & _)|(st & ss & Hterm & Hss & -> & _)]; [done|].
  now apply tree_shape_expanded.
Qed.

End ShapeSteps.

(** ** The visit counts *)

Section Chains.
Context {S : Type}.
Implicit Types (h : heap S) (nd : Node S) (n a p c : addr) (l : list addr).

Lemma ancestors_closed h n l a p :
  ancestors h n l -> a ∈ l -> has_parent h a p -> p ∈ l.
Proof.
  induction 1 as [n Hn|n m l Hnm Hl IH]; intros Ha Hp.
  - apply list_elem_of_singleton in Ha as ->. now destruct (is_root_final h n p).
  - apply elem_of_cons in Ha as [->|Ha].
    + rewrite (has_parent_functional h n p m Hp Hnm).
      apply list_elem_of_further. apply path_head in Hl.
      destruct l; [done|]. injection Hl as ->. apply list_elem_of_here.
    + apply list_elem_of_further. now apply IH.
Qed.

Lemma ancestors_pred h n l a :
  ancestors h n l -> a ∈ l -> a <> n -> exists c, c ∈ l /\ has_parent h c a.
Proof.
  induction 1 as [n Hn|n m l Hnm Hl IH]; intros Ha Hne.
  - now apply list_elem_of_singleton in Ha.
  - apply elem_of_cons in Ha as [->|Ha]; [done|].
    destruct (decide (a = m)) as [->|Hm].
    + exists n. split; [apply list_elem_of_here|done].
    + destruct (IH Ha Hm) as (c & Hc & Hp). exists c.
      split; [now apply list_elem_of_further|done].
Qed.

Lemma ancestors_le h n l a :
  (forall b nd q, h !! b = Some nd -> parent nd = Some q -> q < b) ->
  ancestors h n l -> a ∈ l -> a <= n.
Proof.
  intros Hpar. induction 1 as [n Hn|n m l (nd & Hnd & Hp) Hl IH]; intros Ha.
  - apply list_elem_of_singleton in Ha as ->. lia.
  - apply elem_of_cons in Ha as [->|Ha]; [lia|].
    specialize (IH Ha). specialize (Hpar n nd m Hnd Hp). lia.
Qed.

Lemma ancestors_one_child h n l a c c' :
  (forall b nd q, h !! b = Some nd -> parent nd = Some q -> q < b) ->
  ancestors h n l -> c ∈ l -> c' ∈ l ->
  has_parent h c a -> has_parent h c' a -> c = c'.
Proof.
  intros Hpar. induction 1 as [n Hn|n m l Hnm Hl IH]; intros Hc Hc' Hp Hp'.
  - apply list_elem_of_singleton in Hc, Hc'. congruence.
  - assert (Haux : forall x, x ∈ l -> has_parent h x a -> has_parent h n a -> False).
    { intros x Hx (xd & Hxd & Hxp) Hna.
      rewrite (has_parent_functional h n a m Hna Hnm) in Hxp.
      pose proof (ancestors_le h m l x Hpar Hl Hx).
      specialize (Hpar x xd m Hxd Hxp). lia. }
    apply elem_of_cons in Hc as [->|Hc], Hc' as [->|Hc']; [done| | |now apply IH].
    + now destruct (Haux c' Hc' Hp' Hp).
    + now destruct (Haux c Hc Hp Hp').
Qed.

Lemma sum_visits_same h h' (cs : list addr) :
  (forall c, c ∈ cs -> visits_at h' c = visits_at h c) ->
  sum_visits h' cs = sum_visits h cs.
Proof.
  induction cs as [|c cs IH]; intros Hall; simpl; [done|].
  rewrite Hall by apply list_elem_of_here.
  rewrite IH; [done|]. intros c' Hc'. apply Hall. now apply list_elem_of_further.
Qed.

Lemma sum_visits_one_more h h' (cs : list addr) c0 :
  NoDup cs -> c0 ∈ cs ->
  visits_at h' c0 = (visits_at h c0 + 1)%Z ->
  (forall c, c ∈ cs -> c <> c0 -> visits_at h' c = visits_at h c) ->
  sum_visits h' cs = (sum_visits h cs + 1)%Z.
Proof.
  intros Hnd Hin H0 Hall. induction Hnd as [|c cs Hc Hnd IH];
    [now apply elem_of_nil in Hin|].
  simpl. apply elem_of_cons in Hin as [<-|Hin].
  - rewrite H0. rewrite (sum_visits_same h h' cs); [lia|].
    intros c Hc'. apply Hall; [now apply list_elem_of_further|]. now intros ->.
  - rewrite (Hall c); [|apply list_elem_of_here|now intros ->].
    rewrite IH; [lia|done|].
    intros c' Hc' Hne. apply Hall; [now apply list_elem_of_further|done].
Qed.

Lemma sum_visits_zero h (cs : list addr) :
  (forall c, c ∈ cs -> visits_at h c = 0%Z) -> sum_visits h cs = 0%Z.
Proof.
  induction cs as [|c cs IH]; intros Hall; simpl; [done|].
  rewrite Hall by apply list_elem_of_here.
  rewrite IH; [done|]. intros c' Hc'. apply Hall. now apply list_elem_of_further.
Qed.

Lemma sum_visits_bounds h (cs : list addr) c :
  (forall c', c' ∈ cs -> (0 <= visits_at h c')%Z) -> c ∈ cs ->
  (visits_at h c <= sum_visits h cs)%Z /\ (0 <= sum_visits h cs)%Z.
Proof.
  induction cs as [|c0 cs IH]; intros Hall Hin; [now apply elem_of_nil in Hin|].
  simpl. pose proof (Hall c0 (list_elem_of_here _ _)) as H0.
  assert (Hrest : (0 <= sum_visits h cs)%Z).
  { clear -Hall. induction cs as [|c1 cs IH]; simpl; [lia|].
    pose proof (Hall c1 (list_elem_of_further _ _ _ (list_elem_of_here _ _))).
    assert (0 <= sum_visits h cs)%Z; [|lia].
    apply IH. intros c' Hc'. apply elem_of_cons in Hc' as [->|Hc'].
    - apply Hall, list_elem_of_here.
    - apply Hall. now do 2 apply list_elem_of_further. }
  apply elem_of_cons in Hin as [->|Hin]; [lia|].
  destruct IH as [Hle _]; [|done|lia].
  intros c' Hc'. apply Hall. now apply list_elem_of_further.
Qed.

End Chains.

Section CountSteps.
Context {S Action : Type} `{!GameState S Action}.
Implicit Types (h : heap S) (nd : Node S) (n a root : addr) (ss : list S).

Lemma visits_at_Some h a nd : h !! a = Some nd -> visits_at h a = visits nd.
Proof. unfold visits_at. now intros ->. Qed.

Lemma first_born_expanded_old h root n nd ss a :
  tree_inv h root -> h !! n = Some nd -> children nd = [] -> a < length h ->
  first_born (expanded h n nd ss) a = first_born h a.
Proof.
  intros Hinv Hn Hleaf Ha.
  destruct (lookup_lt_is_Some_2 h a Ha) as [x Hx].
  destruct (expanded_keeps h n nd ss a x Hn Hx) as (x' & Hx' & _ & Hp & _).
  unfold first_born. rewrite Hx', Hx, Hp.
  destruct (parent x) as [p|] eqn:Hpx; [|done].
  pose proof (inv_parent _ _ Hinv a x p Hx Hpx) as Hlt.
  destruct (decide (p = n)) as [->|Hne].
  - rewrite (expanded_lookup_node h n nd ss Hn), Hn.
    cbn [set_children children]. rewrite Hleaf. cbn [app].
    rewrite !bool_decide_eq_false_2; [done|done|].
    destruct ss; cbn; [done|]. intros [= ?]. lia.
  - rewrite expanded_lookup_old by (done || lia). done.
Qed.

Lemma first_born_expanded_new h n nd ss (i : nat) (st : S) :
  h !! n = Some nd -> children nd = [] -> ss !! i = Some st ->
  first_born (expanded h n nd ss) (length h + i) = bool_decide (i = 0).
Proof.
  intros Hn Hleaf Hi. pose proof (lookup_lt_Some _ _ _ Hn) as Hlt.
  unfold first_born. rewrite (expanded_lookup_new h n nd ss i st Hlt Hi).
  cbn [fresh parent]. rewrite (expanded_lookup_node h n nd ss Hn).
  cbn [set_children children]. rewrite Hleaf. cbn [app].
  destruct ss as [|st0 ss]; [done|]. cbn [length seq head].
  apply bool_decide_ext. split; [intros [= ?]; lia | intros ->; f_equal; lia].
Qed.

Lemma counts_pending_same h root (k : Z) node nd :
  tree_counts h root k -> h !! node = Some nd ->
  IsTerminal (state nd) = true \/ GetPossibleActions (state nd) = [] ->
  counts_pending h root k node.
Proof.
  intros [Hroot Hrange Hsum] Hnode Hstuck. split; [done|done| |].
  - intros a x Ha Hx _. now apply Hsum.
  - intros cd Hcd [Hterm Hacts]. assert (cd = nd) as -> by congruence.
    destruct Hstuck; congruence.
Qed.

Lemma counts_pending_expanded h root (k : Z) n nd (st : S) ss :
  tree_shape h root -> tree_counts h root k -> (0 <= k)%Z ->
  h !! n = Some nd -> children nd = [] -> IsTerminal (state nd) = false ->
  successors (state nd) (GetPossibleActions (state nd)) = Ok (st :: ss) ->
  counts_pending (expanded h n nd (st :: ss)) root k (length h).
Proof.
  intros Hshape [Hroot Hrange Hsum] Hk Hn Hleaf Hterm Hss.
  pose proof (shape_inv _ _ Hshape) as Hinv.
  pose proof (lookup_lt_Some _ _ _ Hn) as Hlt.
  assert (Hexp : expandable nd).
  { split; [done|]. intros Hnil. rewrite Hnil in Hss. simpl in Hss. done. }
  assert (Hold : forall c, c < length h ->
            visits_at (expanded h n nd (st :: ss)) c = visits_at h c).
  { intros c Hc. destruct (lookup_lt_is_Some_2 h c Hc) as [x Hx].
    destruct (expanded_keeps h n nd (st :: ss) c x Hn Hx) as (x' & Hx' & _ & _ & Hv & _).
    now rewrite (visits_at_Some _ _ _ Hx'), (visits_at_Some _ _ _ Hx). }
  assert (Hnew : forall c, c ∈ seq (length h) (length (st :: ss)) ->
            visits_at (expanded h n nd (st :: ss)) c = 0%Z).
  { intros c Hc%elem_of_seq.
    destruct (lookup_lt_is_Some_2 (st :: ss) (c - length h)) as [st' Hst']; [lia|].
    pose proof (expanded_lookup_new h n nd (st :: ss) _ st' Hlt Hst') as Hget.
    replace (length h + (c - length h)) with c in Hget by lia.
    now rewrite (visits_at_Some _ _ _ Hget). }
  split.
  - destruct (inv_root _ _ Hinv) as (rd & Hrd & _).
    rewrite Hold; [done|]. now apply lookup_lt_Some in Hrd.
  - intros a x Ha.
    destruct (expanded_lookup_inv h n nd (st :: ss) a x Hn Ha)
      as [[-> ->]|[(Ho & Hne & Hx)|(i & st' & -> & Hst & ->)]].
    + exact (Hrange n nd Hn).
    + exact (Hrange a x Hx).
    + simpl. lia.
  - intros a x Ha Hx Hne.
    destruct (expanded_lookup_inv h n nd (st :: ss) a x Hn Ha)
      as [[-> ->]|[(Ho & Hna & Hx')|(i & st' & -> & Hst & ->)]].
    + cbn [set_children children visits]. rewrite Hleaf. cbn [app].
      rewrite (sum_visits_zero _ _ Hnew).
      rewrite (first_born_expanded_old h root n nd _ n Hinv Hn Hleaf Hlt).
      rewrite (Hsum n nd Hn Hexp), Hleaf. reflexivity.
    + rewrite (first_born_expanded_old h root n nd _ a Hinv Hn Hleaf Ho).
      rewrite (Hsum a x Hx' Hx). f_equal. symmetry. apply sum_visits_same.
      intros c Hc. apply Hold.
      pose proof (inv_children _ _ Hinv a x c Hx' Hc). lia.
    + rewrite (first_born_expanded_new h n nd _ i st' Hn Hleaf Hst).
      rewrite bool_decide_eq_false_2 by lia. reflexivity.
  - intros cd Hcd _.
    pose proof (first_born_expanded_new h n nd (st :: ss) 0 st Hn Hleaf eq_refl) as Hfb.
    pose proof (expanded_lookup_new h n nd (st :: ss) 0 st Hlt eq_refl) as Hget.
    rewrite Nat.add_0_r in Hfb, Hget. rewrite Hfb.
    assert (cd = fresh n st) as -> by congruence. reflexivity.
Qed.

Lemma visited_visits_at h1 h2 (k : Z) child (l : list addr) (reward : float) :
  (forall a nd, h1 !! a = Some nd -> (0 <= visits nd <= k)%Z) ->
  (k < GoInt.MaxInt)%Z -> ancestors h1 child l ->
  (forall a, h2 !! a = if decide (a ∈ l) then visit reward <$> h1 !! a else h1 !! a) ->
  forall a, visits_at h2 a
            = (visits_at h1 a + (if decide (a ∈ l) then 1 else 0))%Z.
Proof.
  intros Hrange Hk Hl Hget a. unfold visits_at. rewrite Hget.
  destruct (decide (a ∈ l)) as [Ha|Ha].
  - pose proof (ancestors_lt h1 child l a Hl Ha) as Hlt.
    destruct (lookup_lt_is_Some_2 h1 a Hlt) as [y Hy]. rewrite Hy.
    cbn [fmap option_fmap option_map visit visits]. apply GoInt_add_small.
    pose proof (Hrange a y Hy). unfold GoInt.MinInt, GoInt.MaxInt in *. lia.
  - destruct (h1 !! a); lia.
Qed.

Lemma counts_visited h1 h2 root (k : Z) child cd (l : list addr) (reward : float) :
  tree_shape h1 root -> counts_pending h1 root k child ->
  (0 <= k < GoInt.MaxInt)%Z ->
  h1 !! child = Some cd -> children cd = [] ->
  ancestors h1 child l -> root ∈ l -> length h2 = length h1 ->
  (forall a, h2 !! a = if decide (a ∈ l) then visit reward <$> h1 !! a else h1 !! a) ->
  tree_counts h2 root (k + 1).
Proof.
  intros Hshape [Hroot Hrange Hsum Hchild] Hk Hcd Hleaf Hl Hin Hlen Hget.
  pose proof (shape_inv _ _ Hshape) as Hinv.
  assert (Hv : forall a, visits_at h2 a
                 = (visits_at h1 a + (if decide (a ∈ l) then 1 else 0))%Z).
  { eapply visited_visits_at; eauto. lia. }
  assert (Hback : forall a x, h2 !! a = Some x ->
            exists y, h1 !! a = Some y /\ state x = state y
              /\ parent x = parent y /\ children x = children y
              /\ visits x = (visits y + (if decide (a ∈ l) then 1 else 0))%Z).
  { intros a x Hx. pose proof (Hv a) as Hva. unfold visits_at in Hva.
    rewrite Hx in Hva. rewrite Hget in Hx.
    destruct (h1 !! a) as [y|] eqn:Hy; [|now destruct (decide (a ∈ l))].
    exists y. split; [done|].
    destruct (decide (a ∈ l)); cbn in Hx; injection Hx as <-; done. }
  assert (Hfb : forall a, first_born h2 a = first_born h1 a).
  { intros a. unfold first_born.
    destruct (h2 !! a) as [x|] eqn:Hx.
    - destruct (Hback a x Hx) as (y & Hy & _ & Hp & _). rewrite Hy, Hp.
      destruct (parent y) as [p|]; [|done].
      destruct (h2 !! p) as [px|] eqn:Hpx.
      + destruct (Hback p px Hpx) as (py & Hpy & _ & _ & Hc & _). now rewrite Hpy, Hc.
      + rewrite Hget in Hpx. destruct (decide (p ∈ l)), (h1 !! p); done.
    - rewrite Hget in Hx. destruct (decide (a ∈ l)), (h1 !! a); done. }
  split.
  - rewrite Hv, Hroot. now rewrite decide_True.
  - intros a x Hx. destruct (Hback a x Hx) as (y & Hy & _ & _ & _ & Hvx).
    pose proof (Hrange a y Hy). destruct (decide (a ∈ l)); lia.
  - intros a x Hx [Hterm Hacts].
    destruct (Hback a x Hx) as (y & Hy & Hs & Hp & Hc & Hvx).
    assert (Hexp : expandable y) by (split; congruence).
    rewrite Hfb, Hc, Hvx.
    destruct (decide (a = child)) as [->|Hne].
    + assert (y = cd) as -> by congruence. rewrite Hleaf. cbn [sum_visits foldr].
      rewrite decide_True.
      * specialize (Hchild cd Hcd Hexp). lia.
      * apply path_head in Hl. destruct l; [done|]. injection Hl as ->.
        apply list_elem_of_here.
    + rewrite (Hsum a y Hy Hexp Hne).
      destruct (decide (a ∈ l)) as [Ha|Ha].
      * destruct (ancestors_pred h1 child l a Hl Ha Hne) as (c & Hc' & Hpc).
        destruct (shape_listed _ _ Hshape c a Hpc) as (y' & Hy' & Hcin).
        assert (y' = y) as -> by congruence.
        rewrite (sum_visits_one_more h1 h2 (children y) c); [lia| | | |].
        -- exact (shape_NoDup _ _ Hshape a y Hy).
        -- done.
        -- rewrite Hv. now rewrite decide_True.
        -- intros c' Hc'in Hc'ne. rewrite Hv. rewrite decide_False; [lia|].
           intros Hc'l. apply Hc'ne.
           apply (ancestors_one_child h1 child l a c' c (inv_parent _ _ Hinv) Hl);
             [done|done| |done].
           exact (shape_child _ _ Hshape a y c' Hy Hc'in).
      * rewrite (sum_visits_same h1 h2 (children y)); [lia|].
        intros c Hcin. rewrite Hv. rewrite decide_False; [lia|].
        intros Hcl. apply Ha.
        apply (ancestors_closed h1 child l c a Hl Hcl).
        exact (shape_child _ _ Hshape a y c Hy Hcin).
Qed.

Lemma iteration_tree_counts h root h2 (k : Z) (reward : float) node child (l : list addr) :
  tree_shape h root -> tree_counts h root k -> (0 <= k < GoInt.MaxInt)%Z ->
  iteration h root h2 reward node child l ->
  tree_counts h2 root (k + 1).
Proof.
  intros Hshape Hcounts Hk
    (nd & h1 & cd & Hnode & Hleaf & Hcases & Hcd & Hcleaf & _ & Hl & Hin & Hlen & Hget).
  destruct Hcases as [(-> & -> & Hstuck)|(st & ss & Hterm & Hss & -> & ->)].
  - eapply (counts_visited h h2 root k node cd l reward); eauto.
    eapply counts_pending_same; eauto. congruence.
  - apply (counts_visited (expanded h node nd (st :: ss)) h2 root k (length h) cd l reward);
      try done.
    + now apply tree_shape_expanded.
    + apply counts_pending_expanded; try done. lia.
Qed.

Lemma iteration_visits_le h root h2 (k : Z) (reward : float) node child (l : list addr) :
  tree_shape h root -> tree_counts h root k -> (0 <= k < GoInt.MaxInt)%Z ->
  iteration h root h2 reward node child l ->
  forall a, (visits_at h a <= visits_at h2 a)%Z.
Proof.
  intros Hshape Hcounts Hk
    (nd & h1 & cd & Hnode & Hleaf & Hcases & Hcd & Hcleaf & _ & Hl & Hin & Hlen & Hget) a.
  assert (Hrange1 : forall b x, h1 !! b = Some x -> (0 <= visits x <= k)%Z).
  { destruct Hcases as [(-> & _)|(st & ss & Hterm & Hss & -> & _)].
    - exact (counts_range _ _ _ Hcounts).
    - apply (pending_range _ root k (length h)).
      apply counts_pending_expanded; try done. lia. }
  rewrite (visited_visits_at h1 h2 k child l reward Hrange1 ltac:(lia) Hl Hget a).
  assert (visits_at h a <= visits_at h1 a)%Z; [|destruct (decide (a ∈ l)); lia].
  destruct Hcases as [(-> & _)|(st & ss & Hterm & Hss & -> & _)]; [lia|].
  unfold visits_at at 1. destruct (h !! a) as [x|] eqn:Hx.
  - destruct (expanded_keeps h node nd (st :: ss) a x Hnode Hx)
      as (x' & Hx' & _ & _ & Hv & _).
    rewrite (visits_at_Some _ _ _ Hx'). lia.
  - unfold visits_at. destruct (expanded h node nd (st :: ss) !! a) as [y|] eqn:Hy; [|lia].
    pose proof (Hrange1 a y Hy). lia.
Qed.

Lemma tree_counts_initial (rootState : S) :
  tree_counts [mkNode rootState None [] 0%Z 0%float] 0 0.
Proof.
  split.
  - reflexivity.
  - intros [|a] nd Ha; simpl in Ha; [|done]. injection Ha as <-. simpl. lia.
  - intros [|a] nd Ha _; simpl in Ha; [|done]. now injection Ha as <-.
Qed.

End CountSteps.

(** ** The loop *)

Section LoopShape.
Context {S Action : Type} `{!GameState S Action}.
Variable Log : float -> float.
Implicit Types (h : heap S) (nd : Node S) (n a root : addr) (ss : list S).

Lemma MCTS_loop_tree_shape k : forall h root h' (rewards : list float),
  tree_shape h root -> MCTS_loop Log k h root = Ok (h', rewards) ->
  tree_shape h' root.
Proof.
  induction k as [|k IH]; intros h root h' rewards Hshape; cbn [MCTS_loop].
  - now intros [= <- <-].
  - intros ([h1 reward] & Hstep & Hrest)%bind_Ok_inv.
    apply bind_Ok_inv in Hrest as ([h2 rs] & Hloop & [= <- <-]).
    destruct (MCTS_step_iteration Log h root h1 reward (shape_inv _ _ Hshape) Hstep)
      as (node & child & l & _ & Hit).
    eapply IH; [|exact Hloop]. eapply iteration_tree_shape; eauto.
Qed.

Lemma MCTS_loop_tree_counts k : forall h root h' (rewards : list float) (k0 : Z),
  tree_shape h root -> tree_counts h root k0 ->
  (0 <= k0)%Z -> (k0 + Z.of_nat k <= GoInt.MaxInt)%Z ->
  MCTS_loop Log k h root = Ok (h', rewards) ->
  tree_counts h' root (k0 + Z.of_nat k).
Proof.
  induction k as [|k IH]; intros h root h' rewards k0 Hshape Hcounts Hk0 Hmax;
    cbn [MCTS_loop].
  - intros [= <- <-]. now rewrite Z.add_0_r.
  - intros ([h1 reward] & Hstep & Hrest)%bind_Ok_inv.
    apply bind_Ok_inv in Hrest as ([h2 rs] & Hloop & [= <- <-]).
    destruct (MCTS_step_iteration Log h root h1 reward (shape_inv _ _ Hshape) Hstep)
      as (node & child & l & _ & Hit).
    replace (k0 + Z.of_nat (Datatypes.S k))%Z with (k0 + 1 + Z.of_nat k)%Z by lia.
    eapply (IH h1); [| | | |exact Hloop]; try lia.
    + eapply iteration_tree_shape; eauto.
    + eapply iteration_tree_counts; eauto. lia.
Qed.

Lemma MCTS_loop_visits_le k : forall h root h' (rewards : list float) (k0 : Z),
  tree_shape h root -> tree_counts h root k0 ->
  (0 <= k0)%Z -> (k0 + Z.of_nat k <= GoInt.MaxInt)%Z ->
  MCTS_loop Log k h root = Ok (h', rewards) ->
  forall a, (visits_at h a <= visits_at h' a)%Z.
Proof.
  induction k as [|k IH]; intros h root h' rewards k0 Hshape Hcounts Hk0 Hmax;
    cbn [MCTS_loop].
  - intros [= <- <-] a. lia.
  - intros ([h1 reward] & Hstep & Hrest)%bind_Ok_inv a.
    apply bind_Ok_inv in Hrest as ([h2 rs] & Hloop & [= <- <-]).
    destruct (MCTS_step_iteration Log h root h1 reward (shape_inv _ _ Hshape) Hstep)
      as (node & child & l & _ & Hit).
    pose proof (iteration_visits_le h root h1 k0 reward node child l Hshape Hcounts
                  ltac:(lia) Hit a) as Hle1.
    assert (visits_at h1 a <= visits_at h2 a)%Z; [|lia].
    eapply (IH h1 root h2 rs (k0 + 1)%Z); [| | | |exact Hloop]; try lia.
    + eapply iteration_tree_shape; eauto.
    + eapply iteration_tree_counts; eauto. lia.
Qed.

Lemma MCTS_Ok_inv (rootState : S) (N : Z) h root :
  MCTS Log rootState N = Ok (h, root) ->
  root = 0
  /\ exists rewards,
       MCTS_loop Log (Z.to_nat N) [mkNode rootState None [] 0%Z 0%float] 0
       = Ok (h, rewards).
Proof.
  unfold MCTS. intros ([[h' root'] rs] & Hrun & [= <- <-])%bind_Ok_inv.
  unfold MCTS_trace, NewNode in Hrun. simpl in Hrun.
  apply bind_Ok_inv in Hrun as ([h1 rs1] & Hloop & [= <- <- <-]). eauto.
Qed.

Lemma MCTS_tree_shape (rootState : S) (N : Z) h root :
  MCTS Log rootState N = Ok (h, root) -> tree_shape h root.
Proof.
  intros (-> & rewards & Hloop)%MCTS_Ok_inv.
  eapply MCTS_loop_tree_shape; [|exact Hloop]. apply tree_shape_initial.
Qed.

Lemma MCTS_tree_counts (rootState : S) (N : Z) h root :
  (0 <= N <= GoInt.MaxInt)%Z ->
  MCTS Log rootState N = Ok (h, root) -> tree_counts h root N.
Proof.
  intros HN (-> & rewards & Hloop)%MCTS_Ok_inv.
  assert (Heq : N = (0 + Z.of_nat (Z.to_nat N))%Z) by lia. rewrite Heq.
  eapply MCTS_loop_tree_counts; [| | | |exact Hloop]; try lia.
  - apply tree_shape_initial.
  - apply tree_counts_initial.
Qed.

(** *** Growth *)

Lemma grown_refl h : grown h h.
Proof. split; [done|]. intros a nd Ha. exists nd. tauto. Qed.

Lemma grown_trans h1 h2 h3 : grown h1 h2 -> grown h2 h3 -> grown h1 h3.
Proof.
  intros [Hlen1 H1] [Hlen2 H2]. split; [lia|].
  intros a x Hx. destruct (H1 a x Hx) as (y & Hy & Hs & Hp & Hc).
  destruct (H2 a y Hy) as (z & Hz & Hs' & Hp' & Hc').
  exists z. split; [done|]. split; [congruence|]. split; [congruence|].
  destruct Hc as [Hc|Hc]; [now left|]. destruct Hc' as [Hc'|Hc'].
  - left. congruence.
  - right. congruence.
Qed.

Lemma iteration_grown h root h2 (reward : float) node child (l : list addr) :
  iteration h root h2 reward node child l -> grown h h2.
Proof.
  intros (nd & h1 & cd & Hnode & Hleaf & Hcases & _ & _ & _ & _ & _ & Hlen & Hget).
  apply (grown_trans h h1 h2).
  - destruct Hcases as [(-> & _)|(st & ss & _ & _ & -> & _)]; [apply grown_refl|].
    split; [rewrite expanded_length; lia|].
    intros a x Hx.
    destruct (expanded_keeps h node nd (st :: ss) a x Hnode Hx)
      as (x' & Hx' & Hs & Hp & _ & _ & Hsame).
    exists x'. split; [done|]. split; [done|]. split; [done|].
    destruct (decide (a = node)) as [->|Hne].
    + left. congruence.
    + right. now rewrite (Hsame Hne).
  - split; [lia|]. intros a x Hx. rewrite Hget, Hx.
    destruct (decide (a ∈ l)); eexists; (split; [reflexivity|]); tauto.
Qed.

Lemma MCTS_loop_grown k : forall h root h' (rewards : list float),
  tree_inv h root -> MCTS_loop Log k h root = Ok (h', rewards) -> grown h h'.
Proof.
  induction k as [|k IH]; intros h root h' rewards Hinv; cbn [MCTS_loop].
  - intros [= <- <-]. apply grown_refl.
  - intros ([h1 reward] & Hstep & Hrest)%bind_Ok_inv.
    apply bind_Ok_inv in Hrest as ([h2 rs] & Hloop & [= <- <-]).
    destruct (MCTS_step_iteration Log h root h1 reward Hinv Hstep)
      as (node & child & l & _ & Hit).
    apply (grown_trans h h1 h2); [eapply iteration_grown; eauto|].
    eapply IH; [|exact Hloop].
    destruct (MCTS_step_spec Log h root h1 reward Hinv Hstep) as [Hinv1 _]. done.
Qed.

End LoopShape.

(** ** A root from which the game does not go on *)

Section Stuck.
Context {S Action : Type} `{!GameState S Action}.
Variable Log : float -> float.

Lemma MCTS_step_stuck (s : S) (v : Z) (t : float) :
  IsTerminal s = true \/ GetPossibleActions s = [] ->
  MCTS_step Log [mkNode s None [] v t] 0
  = Ok ([mkNode s None [] (GoInt.add v 1) (t + GetReward s)%float], GetReward s).
Proof.
  intros Hstuck. unfold MCTS_step, Select. cbn [length Select_rec].
  cbn [deref lookup list_lookup mbind result_bind IsLeaf children length Nat.eqb state].
  assert (Hexp : (if negb (IsTerminal s) then Expand [mkNode s None [] v t] 0
                  else Ok [mkNode s None [] v t]) = Ok [mkNode s None [] v t]).
  { destruct (IsTerminal s) eqn:Hterm; [done|]. destruct Hstuck as [|Hnil]; [done|].
    cbn [negb]. unfold Expand.
    cbn [deref lookup list_lookup mbind result_bind state]. now rewrite Hnil. }
  rewrite Hexp. cbn [mbind result_bind Select_rec length].
  cbn [deref lookup list_lookup mbind result_bind IsLeaf children length Nat.eqb state].
  unfold Backpropagate. cbn [length Backpropagate_rec].
  cbn [deref lookup list_lookup mbind result_bind parent]. reflexivity.
Qed.

Lemma MCTS_loop_stuck (s : S) k : forall (v : Z) (t : float),
  IsTerminal s = true \/ GetPossibleActions s = [] ->
  exists v',
    MCTS_loop Log k [mkNode s None [] v t] 0
    = Ok ([mkNode s None [] v' (foldl PrimFloat.add t (replicate k (GetReward s)))],
          replicate k (GetReward s))
    /\ ((0 <= v)%Z -> (v + Z.of_nat k <= GoInt.MaxInt)%Z -> v' = (v + Z.of_nat k)%Z).
Proof.
  induction k as [|k IH]; intros v t Hstuck; cbn [MCTS_loop].
  - exists v. split; [done|]. lia.
  - rewrite (MCTS_step_stuck s v t Hstuck). cbn [mbind result_bind].
    destruct (IH (GoInt.add v 1) (t + GetReward s)%float Hstuck) as (v' & -> & Hv').
    cbn [mbind result_bind]. exists v'. split; [done|].
    intros Hv Hmax. rewrite GoInt_add_small in Hv'
      by (unfold GoInt.MinInt, GoInt.MaxInt in *; lia).
    rewrite Hv'; lia.
Qed.

End Stuck.

(** ** [Select] stays in the subtree *)

Section Below.
Context {S Action : Type} `{!GameState S Action}.
Variable Log : float -> float.
Implicit Types (h : heap S) (nd : Node S) (n a root : addr).

Lemma Select_loop_Some h (cs : list addr) (bestValue : float) c :
  Select_loop Log h cs bestValue None = Ok (Some c) -> c ∈ cs.
Proof.
  intros Hloop.
  pose proof (Select_loop_result Log h cs bestValue None) as Hres.
  rewrite Hloop in Hres. now destruct Hres.
Qed.

Lemma Select_rec_below depth : forall h n m,
  Select_rec Log depth h n = Ok m -> below h n m.
Proof.
  induction depth as [|depth IH]; intros h n m; cbn [Select_rec]; [done|].
  intros (nd & Hn%deref_Ok & Hrest)%bind_Ok_inv.
  destruct (IsLeaf nd) eqn:Hleaf.
  - injection Hrest as <-. apply below_here.
  - apply bind_Ok_inv in Hrest as ([c|] & Hloop & Hrec); [|done].
    apply (below_child h n c m); [|now apply IH].
    exists nd. split; [done|]. eapply Select_loop_Some; eauto.
Qed.

End Below.

Section Successors.
Context {S Action : Type} `{!GameState S Action}.
Variable Log : float -> float.
Implicit Types (h : heap S) (nd : Node S) (n a root : addr) (ss : list S).

Lemma successors_lookup_inv (st : S) (actions : list Action) ss (i : nat) (s' : S) :
  successors st actions = Ok ss -> ss !! i = Some s' ->
  exists act, actions !! i = Some act /\ PerformAction st act = Ok s'.
Proof.
  revert ss i. induction actions as [|b rest IH]; intros ss i; simpl.
  - now intros [= <-].
  - intros (s1 & H1 & (ss' & Hss & [= <-])%bind_Ok_inv)%bind_Ok_inv.
    destruct i as [|i]; simpl.
    + intros [= <-]. eauto.
    + intros Hi. eapply IH; eauto.
Qed.

(** The children of a node, one per action and in the order of the
    actions, hold what [PerformAction] returns. *)
Lemma tree_shape_children h root a nd :
  tree_shape h root -> h !! a = Some nd -> children nd <> [] ->
  IsTerminal (state nd) = false
  /\ length (children nd) = length (GetPossibleActions (state nd))
  /\ forall (i : nat) c, children nd !! i = Some c ->
       exists cd act,
         h !! c = Some cd /\ parent cd = Some a
         /\ GetPossibleActions (state nd) !! i = Some act
         /\ PerformAction (state nd) act = Ok (state cd).
Proof.
  intros Hshape Ha Hne.
  destruct (shape_states _ _ Hshape a nd Ha Hne) as (ss & Hss & Hall).
  split.
  { destruct (IsTerminal (state nd)) eqn:Hterm; [|done].
    now destruct (Hne (inv_terminal _ _ (shape_inv _ _ Hshape) a nd Ha Hterm)). }
  split.
  { rewrite (Forall2_length Hall). eapply successors_length; eauto. }
  intros i c Hc.
  destruct (Forall2_lookup_l _ _ _ _ _ Hall Hc) as (st & Hst & cd & Hcd & Hstate).
  destruct (successors_lookup_inv _ _ _ _ _ Hss Hst) as (act & Hact & Hrun).
  exists cd, act. split; [done|]. split; [|split; [done|congruence]].
  destruct (shape_child _ _ Hshape a nd c Ha) as (cd' & Hcd' & Hp).
  { eapply list_elem_of_lookup_2; eauto. }
  congruence.
Qed.

Lemma MCTS_root_state (rootState : S) (N : Z) h root :
  MCTS Log rootState N = Ok (h, root) ->
  exists rd, h !! root = Some rd /\ state rd = rootState /\ parent rd = None.
Proof.
  intros (-> & rewards & Hloop)%MCTS_Ok_inv.
  destruct (MCTS_loop_grown Log _ _ _ _ _ (tree_inv_initial rootState) Hloop)
    as [_ Hkeep].
  destruct (Hkeep 0 _ eq_refl) as (rd & Hrd & Hs & Hp & _). eauto.
Qed.

End Successors.

Section ChildVisits.
Context {S Action : Type} `{!GameState S Action}.
Implicit Types (h : heap S) (nd : Node S) (n a root : addr).

Lemma tree_children_expandable h root a nd :
  tree_shape h root -> h !! a = Some nd -> children nd <> [] -> expandable nd.
Proof.
  intros Hshape Ha Hne.
  destruct (tree_shape_children h root a nd Hshape Ha Hne) as (Hterm & Hlen & _).
  split; [done|]. intros Hnil. rewrite Hnil in Hlen.
  destruct (children nd); [done|simpl in Hlen; lia].
Qed.

Lemma tree_child_visits_le h root (k : Z) a nd c :
  tree_shape h root -> tree_counts h root k ->
  h !! a = Some nd -> c ∈ children nd -> (visits_at h c <= visits nd)%Z.
Proof.
  intros Hshape Hcounts Ha Hc.
  assert (Hne : children nd <> []) by (intros Hnil; rewrite Hnil in Hc;
                                       now apply elem_of_nil in Hc).
  rewrite (counts_sum _ _ _ Hcounts a nd Ha
             (tree_children_expandable h root a nd Hshape Ha Hne)).
  destruct (sum_visits_bounds h (children nd) c) as [Hle _]; [|done|].
  - intros c' _. unfold visits_at. destruct (h !! c') as [cd|] eqn:Hcd; [|lia].
    pose proof (counts_range _ _ _ Hcounts c' cd Hcd). lia.
  - destruct (first_born h a); lia.
Qed.

End ChildVisits.

(** ** Statements *)

Section EngineProperties.
Context {S Action : Type} `{!GameState S Action}.
Variable Log : float -> float.
Implicit Types (h : heap S) (nd : Node S) (n a root : addr).

(** X1.  Whatever [Select] returns for a node [n] is a node without
    children that lies under [n]: it is reached from [n] through
    [children] lists.  (No assumption on the heap: if the descent meets a
    nil or dangling pointer, [Select] panics and returns nothing.) *)
Theorem Select_returns_leaf_below h n m :
  Select Log h n = Ok m -> is_leaf h m /\ below h n m.
Proof.
  intros Hsel. split.
  - exact (Select_rec_Ok_leaf Log _ h n m Hsel).
  - exact (Select_rec_below Log _ h n m Hsel).
Qed.

(** X2.  One iteration of the loop of [MCTS], on a tree: the leaf [node]
    that [Select] returns from the root is evaluated itself when its state
    is terminal or has no action, and then the heap gets no new node;
    otherwise [Expand] gives [node] one child per action, and the reward
    that the iteration propagates is [GetReward] of the state that
    [PerformAction] returns for the first action, the state of the first
    new child.  There is no playout. *)
Theorem MCTS_step_evaluates_first_new_child h root h2 (reward : float) :
  tree_inv h root -> MCTS_step Log h root = Ok (h2, reward) ->
  exists node nd,
    Select Log h root = Ok node /\ h !! node = Some nd /\ children nd = []
    /\ match (if IsTerminal (state nd) then []
              else GetPossibleActions (state nd)) with
       | [] => reward = GetReward (state nd) /\ length h2 = length h
       | act :: rest =>
           exists st nd2,
             PerformAction (state nd) act = Ok st
             /\ reward = GetReward st
             /\ length h2 = length h + length (act :: rest)
             /\ h2 !! node = Some nd2
             /\ children nd2 = seq (length h) (length (act :: rest))
             /\ h2 !! length h
                = Some (mkNode st (Some node) [] 1%Z (0 + reward)%float)
       end.
Proof.
  intros Hinv Hstep.
  destruct (MCTS_step_iteration Log h root h2 reward Hinv Hstep)
    as (node & child & l & Hsel
        & nd & h1 & cd & Hnode & Hleaf & Hcases & Hcd & Hcleaf & Hrew & Hl & Hin
        & Hlen & Hget).
  pose proof (lookup_lt_Some _ _ _ Hnode) as Hlt.
  exists node, nd. split; [done|]. split; [done|]. split; [done|].
  destruct Hcases as [(-> & -> & Hstuck)|(st & ss & Hterm & Hss & -> & ->)].
  - assert (cd = nd) as -> by congruence.
    destruct (IsTerminal (state nd)); [done|].
    destruct Hstuck as [Ht| ->]; done.
  - rewrite Hterm.
    destruct (GetPossibleActions (state nd)) as [|act rest] eqn:Hacts; [done|].
    pose proof (successors_length _ _ _ Hss) as Hsslen.
    destruct (successors_lookup _ _ _ 0 act Hss eq_refl) as (st' & Hperf & [= <-]).
    pose proof (expanded_lookup_new h node nd (st :: ss) 0 st Hlt eq_refl) as Hnew.
    rewrite Nat.add_0_r in Hnew.
    assert (cd = fresh node st) as -> by congruence.
    assert (Hhead : length h ∈ l).
    { apply path_head in Hl. destruct l; [done|]. injection Hl as ->.
      apply list_elem_of_here. }
    assert (Hparent : node ∈ l).
    { apply (ancestors_closed _ (length h) l (length h) node Hl Hhead).
      now exists (fresh node st). }
    exists st. eexists. split; [done|]. split; [done|].
    split; [now rewrite Hlen, expanded_length, Hsslen|].
    split; [|split].
    + rewrite Hget, (expanded_lookup_node h node nd (st :: ss) Hnode).
      rewrite decide_True by done. reflexivity.
    + cbn [visit set_children children]. now rewrite Hleaf, Hsslen.
    + rewrite Hget, decide_True, Hnew by done. now rewrite Hrew.
Qed.

(** X3.  In the tree that [MCTS] returns the pointers agree: the root
    holds [rootState] and is the only node without a parent; a node is
    listed among the children of [a] exactly when its [parent] is [a], and
    no children list names a node twice; and following [parent] from any
    node leads to the root. *)
Theorem MCTS_tree_links (rootState : S) (N : Z) h root :
  MCTS Log rootState N = Ok (h, root) ->
  (exists rd, h !! root = Some rd /\ state rd = rootState /\ parent rd = None)
  /\ (forall a nd, h !! a = Some nd -> parent nd = None -> a = root)
  /\ (forall a c, child_of h a c <-> has_parent h c a)
  /\ (forall a nd, h !! a = Some nd -> NoDup (children nd))
  /\ (forall a, a < length h ->
        exists l, ancestors h a l /\ list.last l = Some root).
Proof.
  intros Hrun.
  pose proof (MCTS_tree_shape Log rootState N h root Hrun) as Hshape.
  pose proof (shape_inv _ _ Hshape) as Hinv.
  split; [exact (MCTS_root_state Log rootState N h root Hrun)|].
  split; [exact (inv_orphan _ _ Hinv)|].
  split.
  { intros a c. split.
    - intros (nd & Ha & Hc). exact (shape_child _ _ Hshape a nd c Ha Hc).
    - exact (shape_listed _ _ Hshape c a). }
  split; [exact (shape_NoDup _ _ Hshape)|].
  intros a Ha. destruct (tree_inv_ancestors h root Hinv a Ha) as (l & Hl & _).
  exists l. split; [done|].
  destruct (path_last _ _ _ _ Hl) as (m & Hlast & md & Hmd & Hp).
  now rewrite (inv_orphan _ _ Hinv m md Hmd Hp) in Hlast.
Qed.

(** X4.  In the tree that [MCTS] returns, a node that has children holds a
    state that is not terminal and has exactly one child per action of
    [GetPossibleActions], in the order of the actions; the [i]-th child
    holds the state that [PerformAction] returns for the [i]-th action and
    has the node as parent. *)
Theorem MCTS_children_are_successors (rootState : S) (N : Z) h root a nd :
  MCTS Log rootState N = Ok (h, root) ->
  h !! a = Some nd -> children nd <> [] ->
  IsTerminal (state nd) = false
  /\ length (children nd) = length (GetPossibleActions (state nd))
  /\ forall (i : nat) c, children nd !! i = Some c ->
       exists cd act,
         h !! c = Some cd /\ parent cd = Some a
         /\ GetPossibleActions (state nd) !! i = Some act
         /\ PerformAction (state nd) act = Ok (state cd).
Proof.
  intros Hrun. apply (tree_shape_children h root).
  exact (MCTS_tree_shape Log rootState N h root Hrun).
Qed.

(** X5.  The visit counts in the tree that [MCTS(rootState, N)] returns,
    for [0 <= N] within the range of [int]: every count lies between [0]
    and [N]; a node is never visited less often than any of its children;
    a node with children has the sum of the visits of its children, plus
    one when it is the first child of its parent (that child is visited
    once, by the iteration that creates it, before it is expanded); the
    visits of the children of the root sum to [N]; and a node without
    children from whose state the game goes on has been visited once when
    it is a first child, and never otherwise. *)
Theorem MCTS_visit_counts (rootState : S) (N : Z) h root :
  (0 <= N <= GoInt.MaxInt)%Z ->
  MCTS Log rootState N = Ok (h, root) ->
  (forall a nd, h !! a = Some nd -> (0 <= visits nd <= N)%Z)
  /\ (forall a nd c,
        h !! a = Some nd -> c ∈ children nd -> (visits_at h c <= visits nd)%Z)
  /\ (forall a nd,
        h !! a = Some nd -> children nd <> [] ->
        visits nd
        = (sum_visits h (children nd) + (if first_born h a then 1 else 0))%Z)
  /\ (forall rd,
        h !! root = Some rd -> children rd <> [] ->
        sum_visits h (children rd) = N)
  /\ (forall a nd,
        h !! a = Some nd -> children nd = [] -> expandable nd ->
        visits nd = if first_born h a then 1%Z else 0%Z).
Proof.
  intros HN Hrun.
  pose proof (MCTS_tree_shape Log rootState N h root Hrun) as Hshape.
  pose proof (MCTS_tree_counts Log rootState N h root HN Hrun) as Hcounts.
  pose proof (shape_inv _ _ Hshape) as Hinv.
  assert (Hexp : forall a nd, h !! a = Some nd -> children nd <> [] -> expandable nd).
  { intros a nd. now apply (tree_children_expandable h root). }
  assert (Hsum : forall a nd, h !! a = Some nd -> children nd <> [] ->
            visits nd
            = (sum_visits h (children nd) + (if first_born h a then 1 else 0))%Z).
  { intros a nd Ha Hne. apply (counts_sum _ _ _ Hcounts a nd Ha). eauto. }
  split; [exact (counts_range _ _ _ Hcounts)|].
  split; [intros a nd c; now apply (tree_child_visits_le h root N)|].
  split; [exact Hsum|].
  split.
  { intros rd Hrd Hne. pose proof (Hsum root rd Hrd Hne) as Hs.
    pose proof (counts_root _ _ _ Hcounts) as Hroot.
    rewrite (visits_at_Some _ _ _ Hrd) in Hroot.
    destruct (inv_root _ _ Hinv) as (rd' & Hrd' & Hp).
    assert (rd' = rd) as -> by congruence.
    unfold first_born in Hs. rewrite Hrd, Hp in Hs. lia. }
  intros a nd Ha Hleaf Hex.
  rewrite (counts_sum _ _ _ Hcounts a nd Ha Hex), Hleaf. reflexivity.
Qed.

(** X6.  The tree only grows: the nodes that exist after [k] of the [N]
    iterations still exist at the end, at the same place, with the same
    state and parent, and with the same children unless they had none; and
    while the counters stay within the range of [int] no visit count ever
    goes down. *)
Theorem MCTS_tree_grows (rootState : S) (N k : Z) h root :
  MCTS Log rootState N = Ok (h, root) -> (0 <= k <= N)%Z ->
  exists hk,
    MCTS Log rootState k = Ok (hk, root)
    /\ grown hk h
    /\ ((N <= GoInt.MaxInt)%Z -> forall a, (visits_at hk a <= visits_at h a)%Z).
Proof.
  intros (-> & rewards & Hloop)%MCTS_Ok_inv Hk.
  replace (Z.to_nat N) with (Z.to_nat k + (Z.to_nat N - Z.to_nat k)) in Hloop by lia.
  apply MCTS_loop_prefix in Hloop as (hk & rsk & rs2 & Hloopk & Hloop2 & _).
  exists hk. split.
  { unfold MCTS, MCTS_trace, NewNode. cbn [app length].
    rewrite Hloopk. reflexivity. }
  pose proof (MCTS_loop_tree_shape Log _ _ _ _ _ (tree_shape_initial rootState) Hloopk)
    as Hshape.
  split.
  { eapply MCTS_loop_grown; [|exact Hloop2]. exact (shape_inv _ _ Hshape). }
  intros HN.
  assert (Hcounts : tree_counts hk 0 (0 + Z.of_nat (Z.to_nat k))).
  { eapply MCTS_loop_tree_counts; [| | | |exact Hloopk]; try lia.
    - apply tree_shape_initial.
    - apply tree_counts_initial. }
  apply (MCTS_loop_visits_le Log (Z.to_nat N - Z.to_nat k) hk 0 h rs2
           (0 + Z.of_nat (Z.to_nat k)) Hshape Hcounts); [lia|lia|exact Hloop2].
Qed.

(** X7.  On a root state that is terminal, or that has no action, [MCTS]
    never expands: for [0 <= N] within the range of [int] it returns, and
    the tree is the root alone, with [visits == N] and with [totalReward]
    the reward of the root state added [N] times to [0], whatever
    [math.Log] is. *)
Theorem MCTS_stuck_root (s : S) (N : Z) :
  IsTerminal s = true \/ GetPossibleActions s = [] ->
  (0 <= N <= GoInt.MaxInt)%Z ->
  MCTS Log s N
  = Ok ([mkNode s None [] N
           (foldl PrimFloat.add 0%float (replicate (Z.to_nat N) (GetReward s)))],
        0).
Proof.
  intros Hstuck HN. unfold MCTS, MCTS_trace, NewNode. cbn [app length].
  destruct (MCTS_loop_stuck Log s (Z.to_nat N) 0 0%float Hstuck) as (v & -> & Hv).
  cbn [mbind result_bind]. rewrite Hv by lia.
  replace (0 + Z.of_nat (Z.to_nat N))%Z with N by lia. reflexivity.
Qed.

(** X8.  [UCTValue] is well defined wherever [Select] asks for it in a
    tree built by [MCTS] (for [0 <= N] within the range of [int]): a node
    other than the root has a parent, which is in the tree and has been
    visited at least as often; so for a node that has been visited the
    parent pointer is not nil, [math.Log] gets a count of at least [1], and
    the value is the one of the formula.  On the root itself, which has no
    parent, [UCTValue] panics once the root has been visited; [Select]
    never asks for it. *)
Theorem MCTS_UCTValue_defined (rootState : S) (N : Z) h root a nd :
  (0 <= N <= GoInt.MaxInt)%Z ->
  MCTS Log rootState N = Ok (h, root) ->
  h !! a = Some nd ->
  (a = root -> visits nd <> 0%Z -> UCTValue Log h a = Panic)
  /\ (a <> root ->
      exists p pd,
        parent nd = Some p /\ h !! p = Some pd /\ a ∈ children pd
        /\ (0 <= visits nd <= visits pd)%Z
        /\ (visits nd = 0%Z -> UCTValue Log h a = Ok (math.Inf 1))
        /\ (visits nd <> 0%Z ->
            (1 <= visits pd)%Z
            /\ UCTValue Log h a
               = Ok (totalReward nd / math.float64 (visits nd)
                     + math.C * math.Sqrt (Log (math.float64 (visits pd))
                                           / math.float64 (visits nd)))%float)).
Proof.
  intros HN Hrun Ha.
  pose proof (MCTS_tree_shape Log rootState N h root Hrun) as Hshape.
  pose proof (MCTS_tree_counts Log rootState N h root HN Hrun) as Hcounts.
  pose proof (shape_inv _ _ Hshape) as Hinv.
  split.
  - intros -> Hv. destruct (inv_root _ _ Hinv) as (rd & Hrd & Hp).
    assert (rd = nd) as -> by congruence.
    unfold UCTValue. rewrite (deref_Some _ _ _ Ha). cbn [mbind result_bind].
    destruct (Z.eqb_spec (visits nd) 0) as [|_]; [done|]. now rewrite Hp.
  - intros Hne. destruct (parent nd) as [p|] eqn:Hp;
      [|now destruct (Hne (inv_orphan _ _ Hinv a nd Ha Hp))].
    destruct (shape_listed _ _ Hshape a p) as (pd & Hpd & Hin); [now exists nd|].
    pose proof (tree_child_visits_le h root N p pd a Hshape Hcounts Hpd Hin) as Hle.
    rewrite (visits_at_Some _ _ _ Ha) in Hle.
    pose proof (counts_range _ _ _ Hcounts a nd Ha) as Hrange.
    exists p, pd. split; [done|]. split; [done|]. split; [done|].
    split; [lia|]. split.
    + intros Hv. now apply (UCTValue_unvisited Log h a nd).
    + intros Hv. split; [lia|].
      unfold UCTValue. rewrite (deref_Some _ _ _ Ha). cbn [mbind result_bind].
      destruct (Z.eqb_spec (visits nd) 0) as [|_]; [done|].
      rewrite Hp. cbn [deref_ptr]. now rewrite (deref_Some _ _ _ Hpd).
Qed.

End EngineProperties.

Section EngineTermination.
Context {S Action : Type} `{!GameState S Action}.
Variable Log : float -> float.
Hypothesis PerformAction_ends :
  forall (s : S) (act : Action), PerformAction s act <> Diverges.
Implicit Types (h : heap S) (n root : addr).

(** X9.  The recursions of the engine come to an end.  For a game whose
    [PerformAction] always comes back: on a tree, whose parent pointers lead
    to the root and whose children are allocated after their parent,
    neither [Select] nor [Backpropagate] recurses for ever, from whatever
    node; and so [MCTS] always either returns or panics, for every root
    state and every number of iterations. *)
Theorem MCTS_recursions_end :
  (forall h root n, tree_inv h root -> Select Log h n <> Diverges)
  /\ (forall h root n (reward : float),
        tree_inv h root -> Backpropagate h n reward <> Diverges)
  /\ (forall (rootState : S) (N : Z), MCTS Log rootState N <> Diverges).
Proof.
  split; [|split].
  - intros h root n. apply Select_not_Diverges.
  - intros h root n reward. apply Backpropagate_not_Diverges.
  - apply MCTS_not_Diverges. exact PerformAction_ends.
Qed.

End EngineTermination.

(** * Further properties of the tic-tac-toe game *)

Section RulesProperties.
Import TicTacToe Rules.

Ltac cases_eqb :=
  repeat match goal with
  | |- context [(?x =? ?y)%Z] => destruct (x =? y)%Z eqn:?
  end.

Lemma GetPossibleActions_filter (s : TicTacToeState) :
  GetPossibleActions s = List.filter (is_empty (board s)) all_cells.
Proof.
  unfold GetPossibleActions, TicTacToe.GetPossibleActions, all_cells, is_empty, range3.
  cbn [mbind list_bind foldr app List.filter fst snd].
  rewrite !app_nil_r.
  repeat match goal with
  | |- context [(?x =? Empty)%Z] => destruct (x =? Empty)%Z
  end; reflexivity.
Qed.

Lemma NoDup_all_cells : NoDup all_cells.
Proof. apply (bool_decide_unpack _). vm_compute. exact I. Qed.

Lemma elem_of_all_cells (i j : Z) :
  (i, j) ∈ all_cells <-> in_bounds i = true /\ in_bounds j = true.
Proof.
  rewrite !in_bounds_range3, !elem_of_range3. unfold all_cells.
  rewrite !elem_of_cons, elem_of_nil. split.
  - intros H. repeat destruct H as [H|H]; try done; injection H as -> ->; lia.
  - intros [[->|[->| ->]] [->|[->| ->]]]; tauto.
Qed.

Lemma GetPossibleActions_nil_checkDraw (s : TicTacToeState) :
  GetPossibleActions s = [] <-> checkDraw s = true.
Proof.
  rewrite GetPossibleActions_filter.
  unfold checkDraw, is_empty, all_cells, range3.
  cbn [List.filter forallb fst snd].
  cases_eqb; simpl; split; (discriminate || reflexivity).
Qed.

Lemma elem_of_GetPossibleActions_bounds (s : TicTacToeState) (i j : Z) :
  (i, j) ∈ GetPossibleActions s
  <-> in_bounds i = true /\ in_bounds j = true /\ cell (board s) i j = Empty.
Proof.
  change (GetPossibleActions s) with (TicTacToe.GetPossibleActions s).
  rewrite elem_of_GetPossibleActions, !in_bounds_range3. tauto.
Qed.

Lemma NoDup_GetPossibleActions (s : TicTacToeState) :
  NoDup (GetPossibleActions s).
Proof.
  rewrite GetPossibleActions_filter. apply NoDup_ListNoDup, List.NoDup_filter.
  apply NoDup_ListNoDup, NoDup_all_cells.
Qed.

Lemma IsTerminal_false (s : TicTacToeState) :
  IsTerminal s = false <->
  checkWin s X = false /\ checkWin s O = false /\ checkDraw s = false.
Proof.
  unfold IsTerminal, TicTacToe.IsTerminal.
  destruct (checkWin s X), (checkWin s O), (checkDraw s);
    simpl; intuition congruence.
Qed.

Lemma not_terminal_has_action (s : TicTacToeState) :
  IsTerminal s = false -> GetPossibleActions s <> [].
Proof.
  intros (_ & _ & Hd)%IsTerminal_false Hnil.
  apply GetPossibleActions_nil_checkDraw in Hnil. congruence.
Qed.

Lemma PerformAction_in_bounds (s : TicTacToeState) (i j : Z) :
  in_bounds i = true -> in_bounds j = true ->
  PerformAction s (i, j)
  = Ok (mkState (set_cell (board s) i j (player s)) (opponent (player s))).
Proof. unfold PerformAction; simpl. now intros -> ->. Qed.

Lemma PerformAction_out_of_bounds (s : TicTacToeState) (i j : Z) :
  in_bounds i = false \/ in_bounds j = false -> PerformAction s (i, j) = Panic.
Proof.
  unfold PerformAction; simpl. intros [-> | ->]; [done|]. now destruct (in_bounds i).
Qed.

Lemma is_empty_set_cell (b : Board) (i j p : Z) (a : Action) :
  in_bounds i = true -> in_bounds j = true -> p <> Empty -> a ∈ all_cells ->
  is_empty (set_cell b i j p) a
  = is_empty b a && negb (bool_decide (a = (i, j))).
Proof.
  intros Hi%in_bounds_range3 Hj%in_bounds_range3 Hp Ha. destruct a as [i' j'].
  apply elem_of_all_cells in Ha as [Hi'%in_bounds_range3 Hj'%in_bounds_range3].
  unfold is_empty. cbn [fst snd].
  destruct (decide ((i', j') = (i, j))) as [[= -> ->]|Hne].
  - rewrite bool_decide_eq_true_2 by done. rewrite cell_set_cell_eq by done.
    rewrite andb_false_r. now apply Z.eqb_neq.
  - rewrite bool_decide_eq_false_2 by done. rewrite cell_set_cell_ne by done.
    now rewrite andb_true_r.
Qed.

Lemma filter_ext_elem {A : Type} (f g : A -> bool) (l : list A) :
  (forall a, a ∈ l -> f a = g a) -> List.filter f l = List.filter g l.
Proof.
  induction l as [|x l IH]; intros H; simpl; [done|].
  rewrite (H x) by apply list_elem_of_here.
  rewrite IH; [done|]. intros a Ha. apply H. now apply list_elem_of_further.
Qed.

Lemma filter_andb {A : Type} (f g : A -> bool) (l : list A) :
  List.filter (fun a => f a && g a) l = List.filter g (List.filter f l).
Proof.
  induction l as [|x l IH]; simpl; [done|].
  destruct (f x); simpl; [destruct (g x); now rewrite IH | exact IH].
Qed.

Lemma filter_remove_length {A : Type} `{EqDecision A} (x : A) (l : list A) :
  NoDup l -> x ∈ l ->
  Datatypes.S (length (List.filter (fun a => negb (bool_decide (a = x))) l)) = length l.
Proof.
  induction 1 as [|y l Hy Hnd IH]; intros Hx; [now apply elem_of_nil in Hx|].
  simpl. destruct (decide (y = x)) as [->|Hne].
  - rewrite bool_decide_eq_true_2 by done. simpl. f_equal.
    rewrite (filter_ext_elem _ (fun _ => true)).
    + clear. induction l; simpl; congruence.
    + intros a Ha. rewrite bool_decide_eq_false_2; [done|]. now intros ->.
  - rewrite bool_decide_eq_false_2 by done. simpl. f_equal. apply IH.
    apply elem_of_cons in Hx as [->|Hx]; done.
Qed.

Lemma elem_of_filter_remove {A : Type} `{EqDecision A} (x y : A) (l : list A) :
  y ∈ List.filter (fun a => negb (bool_decide (a = x))) l <-> y ∈ l /\ y <> x.
Proof.
  rewrite !list_elem_of_In, List.filter_In, negb_true_iff, bool_decide_eq_false.
  tauto.
Qed.

Lemma GetPossibleActions_after (s s' : TicTacToeState) (a : Action) :
  player s <> Empty -> in_bounds a.1 = true -> in_bounds a.2 = true ->
  PerformAction s a = Ok s' ->
  GetPossibleActions s'
  = List.filter (fun c => negb (bool_decide (c = a))) (GetPossibleActions s).
Proof.
  destruct a as [i j]. cbn [fst snd]. intros Hp Hi Hj Hrun.
  rewrite PerformAction_in_bounds in Hrun by done.
  injection Hrun as <-. rewrite !GetPossibleActions_filter. cbn [board].
  rewrite <- filter_andb. apply filter_ext_elem.
  intros c Hc. now apply is_empty_set_cell.
Qed.


(** ** Lines *)

Ltac split_board b :=
  destruct b as [[[[? ?] ?] [[? ?] ?]] [[? ?] ?]].

Ltac split_index H :=
  apply in_bounds_range3, elem_of_range3 in H; destruct H as [->|[->| ->]].

(** A mark put on an empty cell changes no line of another mark. *)
Lemma checkWin_frame (s : TicTacToeState) (i j p q pl1 pl2 : Z) :
  in_bounds i = true -> in_bounds j = true -> cell (board s) i j = Empty ->
  q <> Empty -> q <> p ->
  checkWin (mkState (set_cell (board s) i j p) pl1) q
  = checkWin (mkState (board s) pl2) q.
Proof.
  intros Hi Hj He Hq Hp. destruct s as [b pl]. cbn [board] in *. split_board b.
  assert (Hpq : (p =? q)%Z = false) by (apply Z.eqb_neq; congruence).
  assert (Heq : (Empty =? q)%Z = false) by (apply Z.eqb_neq; congruence).
  split_index Hi; split_index Hj; cbn in He; subst;
    unfold checkWin, range3; cbn in Heq |- *; rewrite ?Hpq, ?Heq; reflexivity.
Qed.

(** ... and takes no line away from its own. *)
Lemma checkWin_mono (s : TicTacToeState) (i j p pl1 : Z) :
  in_bounds i = true -> in_bounds j = true -> cell (board s) i j = Empty ->
  checkWin s p = true ->
  checkWin (mkState (set_cell (board s) i j p) pl1) p = true.
Proof.
  intros Hi Hj He. destruct s as [b pl]. cbn [board] in *. split_board b.
  destruct (Z.eq_dec p Empty) as [->|Hp].
  - split_index Hi; split_index Hj; cbn in He; subst; unfold checkWin, range3; cbn; done.
  - assert (Heq : (Empty =? p)%Z = false) by (apply Z.eqb_neq; congruence).
    split_index Hi; split_index Hj; cbn in He; subst;
      unfold checkWin, range3; cbn in Heq |- *; rewrite ?Heq, ?Z.eqb_refl;
      rewrite ?andb_false_r, ?andb_false_l, ?orb_false_r, ?orb_false_l;
      cases_eqb; simpl; congruence.
Qed.

Lemma checkWin_player_irrelevant (b : Board) (pl1 pl2 q : Z) :
  checkWin (mkState b pl1) q = checkWin (mkState b pl2) q.
Proof. reflexivity. Qed.


(** ** Play *)

Lemma opponent_X : opponent X = O.
Proof. reflexivity. Qed.

Lemma opponent_O : opponent O = X.
Proof. reflexivity. Qed.

Lemma filter_add_length {A : Type} (f g : A -> bool) (x : A) (l : list A) :
  NoDup l -> x ∈ l -> (forall a, a ∈ l -> a <> x -> g a = f a) ->
  f x = false -> g x = true ->
  length (List.filter g l) = Datatypes.S (length (List.filter f l)).
Proof.
  intros Hnd Hx Hag Hf Hg. induction Hnd as [|y l Hy Hnd IH];
    [now apply elem_of_nil in Hx|].
  apply elem_of_cons in Hx as [<-|Hx].
  - simpl. rewrite Hf, Hg. simpl. f_equal. f_equal. apply filter_ext_elem.
    intros a Ha. apply Hag; [now apply list_elem_of_further|]. now intros ->.
  - simpl. rewrite (Hag y); [|apply list_elem_of_here|now intros ->].
    rewrite <- Nat.add_1_r.
    destruct (f y); cbn [length]; rewrite IH; try done; try lia;
      intros a Ha; apply Hag; now apply list_elem_of_further.
Qed.

Lemma count_mark_set_cell (b : Board) (i j p m : Z) :
  in_bounds i = true -> in_bounds j = true -> cell b i j = Empty ->
  m <> Empty ->
  count_mark (set_cell b i j p) m
  = count_mark b m + (if (p =? m)%Z then 1 else 0).
Proof.
  intros Hi Hj He Hm. unfold count_mark.
  assert (Hin : ((i, j) : Action) ∈ all_cells) by now apply elem_of_all_cells.
  assert (Hother : forall a : Action, a ∈ all_cells -> a <> (i, j) ->
            (cell (set_cell b i j p) a.1 a.2 =? m)%Z = (cell b a.1 a.2 =? m)%Z).
  { intros [i' j'] [Hi' Hj']%elem_of_all_cells Hne. cbn [fst snd].
    rewrite cell_set_cell_ne; [done|now apply in_bounds_range3..|done]. }
  assert (Hat : cell (set_cell b i j p) i j = p).
  { apply cell_set_cell_eq; now apply in_bounds_range3. }
  destruct (p =? m)%Z eqn:Hp.
  - rewrite Nat.add_1_r.
    apply (filter_add_length (A := Action) _ _ (i, j)); try done.
    + apply NoDup_all_cells.
    + cbn [fst snd]. rewrite He. now apply Z.eqb_neq.
    + cbn [fst snd]. now rewrite Hat.
  - rewrite Nat.add_0_r. f_equal. apply filter_ext_elem.
    intros [i' j'] Ha. destruct (decide ((i', j') = (i, j))) as [[= -> ->]|Hne].
    + cbn [fst snd]. rewrite Hat, He, Hp. symmetry. now apply Z.eqb_neq.
    + now apply Hother.
Qed.

Lemma initial_in_play : in_play initial.
Proof.
  split.
  - now left.
  - intros i j Hi Hj. left. split_index Hi; split_index Hj; reflexivity.
  - reflexivity.
  - reflexivity.
Qed.

Lemma in_play_step (s s' : TicTacToeState) (a : Action) :
  in_play s -> IsTerminal s = false -> a ∈ GetPossibleActions s ->
  PerformAction s a = Ok s' -> in_play s'.
Proof.
  intros [Hturn Hmarks Hcount Hline] Hterm Ha Hrun. destruct a as [i j].
  apply elem_of_GetPossibleActions_bounds in Ha as (Hi & Hj & He).
  rewrite PerformAction_in_bounds in Hrun by done. injection Hrun as <-.
  apply IsTerminal_false in Hterm as (HX & HO & _).
  split; cbn [board player].
  - destruct Hturn as [-> | ->]; [right|left]; reflexivity.
  - intros i' j' Hi' Hj'.
    destruct (decide ((i', j') = (i, j))) as [[= -> ->]|Hne].
    + rewrite cell_set_cell_eq by (now apply in_bounds_range3).
      destruct Hturn as [-> | ->]; tauto.
    + rewrite cell_set_cell_ne by (done || now apply in_bounds_range3).
      now apply Hmarks.
  - rewrite !count_mark_set_cell by done. rewrite Hcount.
    destruct Hturn as [-> | ->]; simpl; lia.
  - destruct Hturn as [Hp | Hp]; rewrite Hp.
    + rewrite opponent_X.
      rewrite (checkWin_frame s i j X O _ (player s)) by done.
      now destruct s.
    + rewrite opponent_O.
      rewrite (checkWin_frame s i j O X _ (player s)) by done.
      now destruct s.
Qed.

Lemma plays_in_play (s s' : TicTacToeState) (l : list Action) :
  plays s l s' -> in_play s -> in_play s'.
Proof.
  induction 1 as [|s a s1 l s2 Hterm Ha Hrun _ IH]; [done|].
  intros Hs. apply IH. eapply in_play_step; eauto.
Qed.

Lemma plays_actions (s s' : TicTacToeState) (l : list Action) :
  plays s l s' -> player s = X \/ player s = O ->
  (player s' = X \/ player s' = O)
  /\ NoDup l
  /\ (forall a, a ∈ GetPossibleActions s <-> a ∈ l \/ a ∈ GetPossibleActions s')
  /\ (forall a, a ∈ l -> a ∉ GetPossibleActions s')
  /\ length l + length (GetPossibleActions s') = length (GetPossibleActions s)
  /\ count_mark (board s') X + count_mark (board s') O
     = count_mark (board s) X + count_mark (board s) O + length l.
Proof.
  induction 1 as [s|s a s1 l s2 Hterm Ha Hrun _ IH]; intros Hturn.
  - split; [done|]. split; [constructor|]. split.
    { intros a. split; [tauto|]. intros [Ha|Ha]; [|done]. now apply elem_of_nil in Ha. }
    split. { intros a Ha. now apply elem_of_nil in Ha. }
    split; simpl; lia.
  - destruct a as [i j].
    pose proof Ha as (Hi & Hj & He)%elem_of_GetPossibleActions_bounds.
    assert (Hne : player s <> Empty) by (destruct Hturn as [-> | ->]; done).
    pose proof (GetPossibleActions_after s s1 (i, j) Hne Hi Hj Hrun) as Hafter.
    pose proof Hrun as Hrun'.
    rewrite PerformAction_in_bounds in Hrun' by done. injection Hrun' as <-.
    destruct IH as (Hturn2 & Hnd & Hsplit & Hgone & Hlen & Hcnt).
    { cbn [player]. destruct Hturn as [-> | ->]; [right|left]; reflexivity. }
    assert (Hin1 : forall c, c ∈ GetPossibleActions
                     {| board := set_cell (board s) i j (player s);
                        player := opponent (player s) |}
                   <-> c ∈ GetPossibleActions s /\ c <> (i, j)).
    { intros c. rewrite Hafter. apply elem_of_filter_remove. }
    split; [done|]. split.
    { apply NoDup_cons_2; [|done]. intros Hin.
      assert ((i, j) ∈ GetPossibleActions
                {| board := set_cell (board s) i j (player s);
                   player := opponent (player s) |}) as Hbad.
      { apply Hsplit. now left. }
      apply Hin1 in Hbad. tauto. }
    split.
    { intros c. rewrite elem_of_cons. split.
      - intros Hc. destruct (decide (c = (i, j))) as [->|Hcne]; [tauto|].
        assert (c ∈ l \/ c ∈ GetPossibleActions s2) as [?|?]; [|tauto..].
        apply Hsplit, Hin1. done.
      - intros [[->|Hc]|Hc]; [done| |].
        + apply (Hin1 c), Hsplit. now left.
        + apply (Hin1 c), Hsplit. now right. }
    split.
    { intros c [->|Hc]%elem_of_cons; [|now apply Hgone].
      intros Hin. assert ((i, j) ∈ GetPossibleActions
                {| board := set_cell (board s) i j (player s);
                   player := opponent (player s) |}) as Hbad.
      { apply Hsplit. now right. }
      apply Hin1 in Hbad. tauto. }
    split.
    { cbn [length].
      rewrite <- (filter_remove_length (A := Action) (i, j) (GetPossibleActions s));
        [|apply NoDup_GetPossibleActions|done].
      rewrite <- Hafter. lia. }
    cbn [board] in Hcnt. rewrite !count_mark_set_cell in Hcnt by done.
    cbn [length]. destruct Hturn as [Hp | Hp]; rewrite Hp in Hcnt; simpl in Hcnt; lia.
Qed.


(** ** Rewards *)

Lemma GetReward_cases (s : TicTacToeState) :
  (GetReward s = 1%float <-> checkWin s X = true)
  /\ (GetReward s = (-1)%float <-> checkWin s X = false /\ checkWin s O = true)
  /\ (GetReward s = 0%float <-> checkWin s X = false /\ checkWin s O = false).
Proof.
  assert (H10 : 1%float <> 0%float).
  { intros H. apply (f_equal Prim2SF) in H. vm_compute in H. discriminate. }
  assert (H1m : 1%float <> (-1)%float).
  { intros H. apply (f_equal Prim2SF) in H. vm_compute in H. discriminate. }
  assert (Hm0 : (-1)%float <> 0%float).
  { intros H. apply (f_equal Prim2SF) in H. vm_compute in H. discriminate. }
  unfold GetReward, TicTacToe.GetReward.
  destruct (checkWin s X), (checkWin s O); intuition congruence.
Qed.

(** ** Symmetries *)

Lemma checkWin_transpose (b : Board) (pl q : Z) :
  checkWin (mkState (transpose b) pl) q = checkWin (mkState b pl) q.
Proof.
  split_board b. unfold checkWin, range3. cbn. cases_eqb; reflexivity.
Qed.

Lemma checkWin_mirror (b : Board) (pl q : Z) :
  checkWin (mkState (mirror b) pl) q = checkWin (mkState b pl) q.
Proof.
  split_board b. unfold checkWin, range3. cbn. cases_eqb; reflexivity.
Qed.

Lemma checkDraw_transpose (b : Board) (pl : Z) :
  checkDraw (mkState (transpose b) pl) = checkDraw (mkState b pl).
Proof.
  split_board b. unfold checkDraw, range3. cbn. cases_eqb; reflexivity.
Qed.

Lemma checkDraw_mirror (b : Board) (pl : Z) :
  checkDraw (mkState (mirror b) pl) = checkDraw (mkState b pl).
Proof.
  split_board b. unfold checkDraw, range3. cbn. cases_eqb; reflexivity.
Qed.


(** ** Statements *)

(** X10.  [GetPossibleActions] returns the empty cells of the board, each
    once, in the order of the two loops (row by row, left to right): a
    pair [(i, j)] is listed exactly when both indices are within [0..2]
    and [board[i][j] == Empty].  It does not look at [player], nor at
    whether the game is over. *)
Theorem GetPossibleActions_lists_empty_cells (s : TicTacToeState) :
  GetPossibleActions s = List.filter (is_empty (board s)) all_cells
  /\ NoDup (GetPossibleActions s)
  /\ (forall i j, (i, j) ∈ GetPossibleActions s
        <-> in_bounds i = true /\ in_bounds j = true
            /\ cell (board s) i j = Empty)
  /\ length (GetPossibleActions s) = count_mark (board s) Empty
  /\ length (GetPossibleActions s) <= 9.
Proof.
  split; [apply GetPossibleActions_filter|].
  split; [apply NoDup_GetPossibleActions|].
  split; [apply elem_of_GetPossibleActions_bounds|].
  rewrite GetPossibleActions_filter. split; [reflexivity|].
  exact (List.filter_length_le (is_empty (board s)) all_cells).
Qed.

(** X11.  [checkDraw] holds exactly when [GetPossibleActions] is empty (it
    does not check that nobody has won); so a full board is terminal, and a
    state that is not terminal always has an action. *)
Theorem no_action_iff_board_full (s : TicTacToeState) :
  (GetPossibleActions s = [] <-> checkDraw s = true)
  /\ (checkDraw s = true -> IsTerminal s = true)
  /\ (IsTerminal s = false -> GetPossibleActions s <> []).
Proof.
  split; [apply GetPossibleActions_nil_checkDraw|]. split.
  - intros Hd. unfold IsTerminal, TicTacToe.IsTerminal. rewrite Hd.
    now rewrite orb_true_r.
  - apply not_terminal_has_action.
Qed.

(** X12.  [PerformAction] checks nothing but the bounds of the two
    indices: outside [0..2] the index expression panics, and on a cell that
    is already taken it overwrites the mark with the mark of the player to
    move and passes the turn, like a legal move; the possible actions are
    then the same as before. *)
Theorem PerformAction_overwrites_taken_cell (s : TicTacToeState) (i j : Z) :
  (in_bounds i = false \/ in_bounds j = false -> PerformAction s (i, j) = Panic)
  /\ (in_bounds i = true -> in_bounds j = true ->
      cell (board s) i j <> Empty -> player s <> Empty ->
      exists s',
        PerformAction s (i, j) = Ok s'
        /\ cell (board s') i j = player s
        /\ player s' = opponent (player s)
        /\ ((i, j) ∉ GetPossibleActions s)
        /\ GetPossibleActions s' = GetPossibleActions s).
Proof.
  split; [apply PerformAction_out_of_bounds|].
  intros Hi Hj Htaken Hp. eexists. split; [now apply PerformAction_in_bounds|].
  cbn [board player].
  split; [apply cell_set_cell_eq; now apply in_bounds_range3|].
  split; [done|].
  assert (Hnot : (i, j) ∉ GetPossibleActions s).
  { rewrite elem_of_GetPossibleActions_bounds. tauto. }
  split; [done|].
  rewrite (GetPossibleActions_after s _ (i, j) Hp Hi Hj (PerformAction_in_bounds s i j Hi Hj)).
  rewrite (filter_ext_elem _ (fun _ => true)).
  - clear. induction (GetPossibleActions s) as [|c l IH]; simpl; congruence.
  - intros c Hc. rewrite bool_decide_eq_false_2; [done|]. now intros ->.
Qed.

(** X13.  A move that [GetPossibleActions] lists, made by [X] or [O],
    takes exactly that action away: the actions of the new state are the
    other actions of the old one, in the same order, one fewer. *)
Theorem PerformAction_takes_listed_action (s : TicTacToeState) (a : Action) :
  a ∈ GetPossibleActions s -> player s <> Empty ->
  exists s',
    PerformAction s a = Ok s'
    /\ GetPossibleActions s'
       = List.filter (fun c => negb (bool_decide (c = a))) (GetPossibleActions s)
    /\ (forall c, c ∈ GetPossibleActions s' <-> c ∈ GetPossibleActions s /\ c <> a)
    /\ Datatypes.S (length (GetPossibleActions s')) = length (GetPossibleActions s).
Proof.
  destruct a as [i j]. intros Ha Hp.
  pose proof Ha as (Hi & Hj & He)%elem_of_GetPossibleActions_bounds.
  pose proof (PerformAction_in_bounds s i j Hi Hj) as Hrun.
  pose proof (GetPossibleActions_after s _ (i, j) Hp Hi Hj Hrun) as Hafter.
  eexists. split; [exact Hrun|]. split; [exact Hafter|]. split.
  - intros c. rewrite Hafter. apply elem_of_filter_remove.
  - rewrite Hafter.
    apply (filter_remove_length (A := Action) (i, j) (GetPossibleActions s));
      [apply NoDup_GetPossibleActions|done].
Qed.

(** X14.  A move on an empty cell changes no line of the other mark, and
    takes no line from the mark that moves: [checkWin] for the opponent is
    what it was, and [checkWin] for the mover stays true if it was. *)
Theorem PerformAction_keeps_lines (s : TicTacToeState) (a : Action) :
  a ∈ GetPossibleActions s ->
  exists s',
    PerformAction s a = Ok s'
    /\ (forall q, q <> Empty -> q <> player s -> checkWin s' q = checkWin s q)
    /\ (checkWin s (player s) = true -> checkWin s' (player s) = true).
Proof.
  destruct a as [i j]. intros (Hi & Hj & He)%elem_of_GetPossibleActions_bounds.
  eexists. split; [now apply PerformAction_in_bounds|]. split.
  - intros q Hq Hne.
    rewrite (checkWin_frame s i j (player s) q _ (player s)) by done.
    now destruct s.
  - now apply checkWin_mono.
Qed.

(** X15.  The tests for the end of the game do not depend on how the
    board is turned: [checkWin], [checkDraw], [IsTerminal] and [GetReward]
    give the same on a board, on its transpose and on its mirror image. *)
Theorem end_of_game_symmetric (b : Board) (pl : Z) :
  let s := mkState b pl in
  let st := mkState (transpose b) pl in
  let sm := mkState (mirror b) pl in
  (forall q, checkWin st q = checkWin s q /\ checkWin sm q = checkWin s q)
  /\ checkDraw st = checkDraw s /\ checkDraw sm = checkDraw s
  /\ IsTerminal st = IsTerminal s /\ IsTerminal sm = IsTerminal s
  /\ GetReward st = GetReward s /\ GetReward sm = GetReward s.
Proof.
  intros s st sm. subst s st sm.
  unfold IsTerminal, TicTacToe.IsTerminal, GetReward, TicTacToe.GetReward.
  rewrite !checkWin_transpose, !checkWin_mirror, checkDraw_transpose, checkDraw_mirror.
  split; [|done]. intros q. now rewrite checkWin_transpose, checkWin_mirror.
Qed.

(** X16.  In every position that play reaches from the empty board, [X]
    moving first: it is the turn of [X] or of [O]; every cell holds
    [Empty], [X] or [O]; the marks on the board are as many as the moves
    made; and [X] has as many marks as [O] when it is the turn of [X], one
    more when it is the turn of [O]. *)
Theorem play_alternates (l : list Action) (s : TicTacToeState) :
  plays initial l s ->
  (player s = X \/ player s = O)
  /\ (forall i j, in_bounds i = true -> in_bounds j = true ->
        cell (board s) i j = Empty \/ cell (board s) i j = X
        \/ cell (board s) i j = O)
  /\ count_mark (board s) X + count_mark (board s) O = length l
  /\ count_mark (board s) X
     = count_mark (board s) O + (if (player s =? O)%Z then 1 else 0).
Proof.
  intros Hl. destruct (plays_in_play _ _ _ Hl initial_in_play) as [Ht Hm Hc _].
  destruct (plays_actions _ _ _ Hl (or_introl eq_refl)) as (_ & _ & _ & _ & _ & Hcnt).
  split; [done|]. split; [done|]. split; [exact Hcnt|done].
Qed.

(** X17.  A game has at most nine moves: in a play from the empty board
    no action occurs twice, the moves made and the actions still possible
    are nine together, the cells played are taken, and after nine moves
    the state is terminal. *)
Theorem play_ends_within_nine_moves (l : list Action) (s : TicTacToeState) :
  plays initial l s ->
  NoDup l
  /\ length l + length (GetPossibleActions s) = 9
  /\ length l <= 9
  /\ (forall a, a ∈ l -> (a ∉ GetPossibleActions s)
                          /\ cell (board s) a.1 a.2 <> Empty)
  /\ (length l = 9 -> IsTerminal s = true).
Proof.
  intros Hl.
  destruct (plays_actions _ _ _ Hl (or_introl eq_refl))
    as (_ & Hnd & Hsplit & Hgone & Hlen & _).
  change (length (GetPossibleActions initial)) with 9 in Hlen.
  split; [done|]. split; [exact Hlen|]. split; [lia|]. split.
  - intros [i j] Ha. split; [now apply Hgone|]. cbn [fst snd]. intros He.
    apply (Hgone (i, j) Ha). apply elem_of_GetPossibleActions_bounds.
    assert ((i, j) ∈ GetPossibleActions initial) as Hin by (apply Hsplit; now left).
    apply elem_of_GetPossibleActions_bounds in Hin. tauto.
  - intros H9. destruct (IsTerminal s) eqn:Hterm; [done|].
    apply not_terminal_has_action in Hterm.
    destruct (GetPossibleActions s); [done|simpl in Hlen; lia].
Qed.

(** X18.  In every position that play reaches from the empty board the
    player to move has no line, so [X] and [O] never both have one; and
    [GetReward] is [1] exactly when [X] has a line, [-1] exactly when [O]
    has one, and [0] exactly when neither has, as in every state that is
    not terminal. *)
Theorem play_has_one_winner (l : list Action) (s : TicTacToeState) :
  plays initial l s ->
  checkWin s (player s) = false
  /\ (checkWin s X = true -> checkWin s O = false)
  /\ (GetReward s = 1%float <-> checkWin s X = true)
  /\ (GetReward s = (-1)%float <-> checkWin s O = true)
  /\ (GetReward s = 0%float <-> checkWin s X = false /\ checkWin s O = false)
  /\ (IsTerminal s = false -> GetReward s = 0%float).
Proof.
  intros Hl. destruct (plays_in_play _ _ _ Hl initial_in_play) as [Ht _ _ Hline].
  destruct (GetReward_cases s) as (H1 & Hm & H0).
  assert (Hone : checkWin s X = true -> checkWin s O = false).
  { intros HX. destruct Ht as [Hp|Hp]; rewrite Hp in Hline; congruence. }
  split; [done|]. split; [done|]. split; [done|]. split.
  - rewrite Hm. split; [tauto|]. intros HO. split; [|done].
    destruct (checkWin s X); [|done]. specialize (Hone eq_refl). congruence.
  - split; [done|]. intros (HX & HO & _)%IsTerminal_false. now apply H0.
Qed.

End RulesProperties.

(** * Further properties of the program [main] *)

Section MainProperties.
Import TicTacToe Rules Console.
Implicit Types (h : heap TicTacToeState) (st state : TicTacToeState).

(** ** The engine's turn *)

Lemma most_visited_spec h (cs : list addr) :
  forall (bestVisits : Z) (bestChild r : option addr),
  most_visited h cs bestVisits bestChild = Ok r ->
  (r = bestChild /\ forall c, c ∈ cs -> (visits_at h c <= bestVisits)%Z)
  \/ (exists (i : nat) c,
        cs !! i = Some c /\ r = Some c
        /\ (bestVisits < visits_at h c)%Z
        /\ (forall c', c' ∈ cs -> (visits_at h c' <= visits_at h c)%Z)
        /\ (forall (j : nat) c', j < i -> cs !! j = Some c' ->
              (visits_at h c' < visits_at h c)%Z)).
Proof.
  induction cs as [|child rest IH]; intros bv bc r; cbn [most_visited].
  - intros [= <-]. left. split; [done|]. intros c Hc. now apply elem_of_nil in Hc.
  - intros (cd & Hcd%deref_Ok & Hrest)%bind_Ok_inv.
    pose proof (visits_at_Some h child cd Hcd) as Hv.
    destruct (Z.gtb_spec (visits cd) bv) as [Hgt|Hle].
    + destruct (IH _ _ _ Hrest) as [[-> Hall]|(i & c & Hi & -> & Hlt & Hall & Hfirst)].
      * right. exists 0, child. split; [done|]. split; [done|].
        split; [lia|]. split; [|intros j c' Hj; lia].
        intros c' [->|Hc']%elem_of_cons; [lia|]. rewrite Hv. now apply Hall.
      * right. exists (Datatypes.S i), c. split; [done|]. split; [done|].
        split; [lia|]. split.
        -- intros c' [->|Hc']%elem_of_cons; [lia|]. now apply Hall.
        -- intros [|j] c' Hj; cbn [lookup list_lookup].
           ++ intros [= <-]. lia.
           ++ intros Hc'. apply (Hfirst j c'); [lia|done].
    + destruct (IH _ _ _ Hrest) as [[-> Hall]|(i & c & Hi & -> & Hlt & Hall & Hfirst)].
      * left. split; [done|].
        intros c' [->|Hc']%elem_of_cons; [lia|]. now apply Hall.
      * right. exists (Datatypes.S i), c. split; [done|]. split; [done|].
        split; [lia|]. split.
        -- intros c' [->|Hc']%elem_of_cons; [lia|]. now apply Hall.
        -- intros [|j] c' Hj; cbn [lookup list_lookup].
           ++ intros [= <-]. lia.
           ++ intros Hc'. apply (Hfirst j c'); [lia|done].
Qed.

Lemma most_visited_Ok h (cs : list addr) :
  forall (bestVisits : Z) (bestChild : option addr),
  (forall c, c ∈ cs -> c < length h) ->
  exists r, most_visited h cs bestVisits bestChild = Ok r.
Proof.
  induction cs as [|child rest IH]; intros bv bc Hall; cbn [most_visited]; [eauto|].
  destruct (lookup_lt_is_Some_2 h child) as [cd Hcd];
    [apply Hall, list_elem_of_here|].
  rewrite (deref_Some _ _ _ Hcd). cbn [mbind result_bind].
  destruct (visits cd >? bv)%Z; apply IH; intros c Hc; apply Hall;
    now apply list_elem_of_further.
Qed.

Lemma engine_turn_Ok_inv (Log : float -> float) st (N : Z) st' :
  engine_turn Log st N = Ok st' ->
  exists h root rd c cd,
    MCTS Log st N = Ok (h, root) /\ h !! root = Some rd
    /\ most_visited h (children rd) (-1) None = Ok (Some c)
    /\ h !! c = Some cd /\ state cd = st'.
Proof.
  unfold engine_turn. intros ([h root] & Hrun & Hrest)%bind_Ok_inv.
  apply bind_Ok_inv in Hrest as (rd & Hrd%deref_Ok & Hrest).
  apply bind_Ok_inv in Hrest as ([c|] & Hbest & Hrest); [|done].
  apply bind_Ok_inv in Hrest as (cd & Hcd%deref_Ok & [= <-]).
  exists h, root, rd, c, cd. done.
Qed.

Lemma engine_turn_listed (Log : float -> float) st (N : Z) st' :
  engine_turn Log st N = Ok st' ->
  IsTerminal st = false
  /\ exists act, act ∈ GetPossibleActions st /\ PerformAction st act = Ok st'.
Proof.
  intros (h & root & rd & c & cd & Hrun & Hrd & Hbest & Hcd & <-)%engine_turn_Ok_inv.
  pose proof (MCTS_tree_shape Log st N h root Hrun) as Hshape.
  destruct (MCTS_root_state Log st N h root Hrun) as (rd' & Hrd' & Hstate & _).
  assert (rd' = rd) as -> by congruence.
  destruct (most_visited_spec h _ _ _ _ Hbest)
    as [[? _]|(i & c' & Hi & [= <-] & _)]; [done|].
  destruct (tree_shape_children h root root rd Hshape Hrd) as (Hterm & _ & Hkids).
  { intros Hnil. now rewrite Hnil in Hi. }
  destruct (Hkids i c Hi) as (cd' & act & Hcd' & _ & Hact & Hperf).
  assert (cd' = cd) as -> by congruence.
  rewrite Hstate in *. split; [done|]. exists act. split; [|done].
  eapply list_elem_of_lookup_2; eauto.
Qed.


Lemma engine_turn_nothing_to_choose (Log : float -> float) st (N : Z) :
  IsTerminal st = true \/ (N <= 0)%Z -> engine_turn Log st N = Panic.
Proof.
  intros Hcase. unfold engine_turn.
  assert (exists v t, MCTS Log st N = Ok ([mkNode st None [] v t], 0))
    as (v & t & ->).
  { unfold MCTS, MCTS_trace, NewNode. cbn [app length].
    destruct Hcase as [Hterm|HN].
    - destruct (MCTS_loop_stuck Log st (Z.to_nat N) 0 0%float) as (v & -> & _);
        [left; exact Hterm|].
      cbn [mbind result_bind]. eauto.
    - replace (Z.to_nat N) with 0 by lia. cbn [MCTS_loop mbind result_bind]. eauto. }
  reflexivity.
Qed.

(** ** The opponent's turn *)

Lemma human_turn_Some_iff state (row col : Z) state' :
  human_turn state (Some (row, col)) = Some state'
  <-> (row, col) ∈ GetPossibleActions state
      /\ state' = mkState (set_cell (board state) row col O)
                          (opponent (player state)).
Proof.
  rewrite elem_of_GetPossibleActions_bounds. unfold human_turn, in_bounds.
  destruct (Z.ltb_spec row 0), (Z.gtb_spec row 2), (Z.ltb_spec col 0),
    (Z.gtb_spec col 2), (Z.eqb_spec (cell (board state) row col) Empty);
    cbn [orb negb];
    try (split; [discriminate|intros [(Hr & Hc & He) _]; try done;
                 apply andb_true_iff in Hr as [?%Z.leb_le ?%Z.ltb_lt];
                 apply andb_true_iff in Hc as [?%Z.leb_le ?%Z.ltb_lt]; lia]).
  split.
  - intros [= <-]. split; [|done]. split; [|split; [|done]];
      apply andb_true_iff; split; (apply Z.leb_le || apply Z.ltb_lt); lia.
  - now intros [_ ->].
Qed.

Lemma human_turn_PerformAction state (input : option (Z * Z)) state' :
  player state = O -> human_turn state input = Some state' ->
  exists act, input = Some act /\ act ∈ GetPossibleActions state
              /\ PerformAction state act = Ok state'.
Proof.
  intros Hp Hturn. destruct input as [[row col]|]; [|done].
  apply human_turn_Some_iff in Hturn as [Hin ->].
  exists (row, col). split; [done|]. split; [done|].
  apply elem_of_GetPossibleActions_bounds in Hin as (Hr & Hc & _).
  rewrite PerformAction_in_bounds by done. now rewrite Hp.
Qed.

(** ** The loop *)

Lemma main_loop_plays (Log : float -> float) (iterations : Z) passes :
  forall state (stdin : list (option (Z * Z))) final (out : list String.string),
  main_loop passes Log iterations state stdin = Ok (final, out) ->
  IsTerminal final = true /\ exists l, plays state l final.
Proof.
  induction passes as [|passes IH]; intros state stdin final out;
    cbn [main_loop]; [done|].
  destruct (IsTerminal state) eqn:Hterm.
  { intros [= <- <-]. split; [done|]. exists []. constructor. }
  destruct (Z.eqb_spec (player state) O) as [Hp|Hp].
  - destruct (Scanf stdin) as [input rest].
    destruct (human_turn state input) as [state'|] eqn:Hturn.
    + intros ([final' out'] & Hloop & [= <- <-])%bind_Ok_inv.
      destruct (IH _ _ _ _ Hloop) as (Hfinal & l & Hl).
      split; [done|].
      destruct (human_turn_PerformAction state input state' Hp Hturn)
        as (act & _ & Hact & Hperf).
      exists (act :: l). econstructor; eauto.
    + intros ([final' out'] & Hloop & [= <- <-])%bind_Ok_inv.
      exact (IH _ _ _ _ Hloop).
  - intros (state' & Hturn & Hrest)%bind_Ok_inv.
    apply bind_Ok_inv in Hrest as ([final' out'] & Hloop & [= <- <-]).
    destruct (IH _ _ _ _ Hloop) as (Hfinal & l & Hl).
    split; [done|].
    destruct (engine_turn_listed Log state iterations state' Hturn)
      as (_ & act & Hact & Hperf).
    exists (act :: l). econstructor; eauto.
Qed.


(** ** The board on the screen *)

Lemma print_cell_char (c : Z) :
  print_cell c = String.String (mark_char c) (String.String space String.EmptyString).
Proof. unfold print_cell, mark_char. now destruct (c =? X)%Z, (c =? O)%Z. Qed.

Lemma mark_char_inj (c1 c2 : Z) :
  c1 = Empty \/ c1 = X \/ c1 = O -> c2 = Empty \/ c2 = X \/ c2 = O ->
  mark_char c1 = mark_char c2 -> c1 = c2.
Proof. intros [->|[->| ->]] [->|[->| ->]]; cbn; congruence. Qed.

Lemma announce_GetReward (s : TicTacToeState) :
  announce (GetReward s)
  = if checkWin s X then X_wins else if checkWin s O then O_wins else draw.
Proof.
  unfold GetReward, TicTacToe.GetReward, announce.
  destruct (checkWin s X), (checkWin s O); reflexivity.
Qed.

(** ** Statements *)

(** X19.  The loop of [main] over the children of the root: when every
    child pointer is valid it ends, and it leaves in [bestChild] the first
    child, in the order of the list, that has the largest [visits],
    provided that count is above the initial [bestVisits] of [-1];
    otherwise (no child, or no count above [-1]) [bestChild] stays nil. *)
Theorem most_visited_first_maximum h (cs : list addr) :
  (forall c, c ∈ cs -> c < length h) ->
  exists r,
    most_visited h cs (-1) None = Ok r
    /\ ((r = None /\ forall c, c ∈ cs -> (visits_at h c <= -1)%Z)
        \/ (exists (i : nat) c,
              cs !! i = Some c /\ r = Some c
              /\ (-1 < visits_at h c)%Z
              /\ (forall c', c' ∈ cs -> (visits_at h c' <= visits_at h c)%Z)
              /\ (forall (j : nat) c', j < i -> cs !! j = Some c' ->
                    (visits_at h c' < visits_at h c)%Z))).
Proof.
  intros Hall. destruct (most_visited_Ok h cs (-1) None Hall) as (r & Hr).
  exists r. split; [done|]. exact (most_visited_spec h cs _ _ _ Hr).
Qed.

(** X20.  The engine's turn in [main]: when the state is not terminal and
    [MCTS] returns from [1 <= N] iterations ([N] within the range of
    [int]), the new state is the state of the child of the root with the
    most visits, the first such child in the order of the actions; it is
    what [PerformAction] returns for the action at the same index of
    [GetPossibleActions], so the engine makes a move that the game
    lists. *)
Theorem engine_turn_plays_most_visited_move (Log : float -> float) st (N : Z) h root :
  MCTS Log st N = Ok (h, root) -> (1 <= N <= GoInt.MaxInt)%Z ->
  IsTerminal st = false ->
  exists rd (i : nat) c cd act,
    h !! root = Some rd /\ children rd !! i = Some c /\ h !! c = Some cd
    /\ engine_turn Log st N = Ok (state cd)
    /\ GetPossibleActions st !! i = Some act
    /\ PerformAction st act = Ok (state cd)
    /\ (forall c', c' ∈ children rd -> (visits_at h c' <= visits cd)%Z)
    /\ (forall (j : nat) c', j < i -> children rd !! j = Some c' ->
          (visits_at h c' < visits cd)%Z).
Proof.
  intros Hrun HN Hterm.
  pose proof (MCTS_tree_shape Log st N h root Hrun) as Hshape.
  pose proof (MCTS_tree_counts Log st N h root ltac:(lia) Hrun) as Hcounts.
  destruct (MCTS_root_state Log st N h root Hrun) as (rd & Hrd & Hstate & Hparent).
  pose proof (shape_inv _ _ Hshape) as Hinv.
  (* the root has children *)
  assert (Hexp : expandable rd).
  { split; [now rewrite Hstate|]. rewrite Hstate.
    apply not_terminal_has_action. done. }
  assert (Hkids : children rd <> []).
  { intros Hnil. pose proof (counts_sum _ _ _ Hcounts root rd Hrd Hexp) as Hsum.
    pose proof (counts_root _ _ _ Hcounts) as Hroot.
    rewrite (visits_at_Some _ _ _ Hrd) in Hroot.
    rewrite Hnil in Hsum. unfold first_born in Hsum. rewrite Hrd, Hparent in Hsum.
    simpl in Hsum. lia. }
  destruct (most_visited_Ok h (children rd) (-1) None) as (r & Hbest).
  { intros c Hc. pose proof (inv_children _ _ Hinv root rd c Hrd Hc). lia. }
  destruct (most_visited_spec h _ _ _ _ Hbest)
    as [[-> Hall]|(i & c & Hi & -> & _ & Hall & Hfirst)].
  { destruct (children rd) as [|c0 cs] eqn:Hcs; [done|].
    specialize (Hall c0 (list_elem_of_here _ _)).
    destruct (lookup_lt_is_Some_2 h c0) as [cd0 Hcd0].
    { pose proof (inv_children _ _ Hinv root rd c0 Hrd) as Hlt.
      rewrite Hcs in Hlt. specialize (Hlt (list_elem_of_here _ _)). lia. }
    rewrite (visits_at_Some _ _ _ Hcd0) in Hall.
    pose proof (counts_range _ _ _ Hcounts c0 cd0 Hcd0). lia. }
  destruct (tree_shape_children h root root rd Hshape Hrd Hkids) as (_ & _ & Hsucc).
  destruct (Hsucc i c Hi) as (cd & act & Hcd & _ & Hact & Hperf).
  rewrite (visits_at_Some _ _ _ Hcd) in Hall, Hfirst.
  exists rd, i, c, cd, act. rewrite Hstate in *.
  split; [done|]. split; [done|]. split; [done|]. split; [|done].
  unfold engine_turn. rewrite Hrun. cbn [mbind result_bind].
  rewrite (deref_Some _ _ _ Hrd). cbn [mbind result_bind].
  rewrite Hbest. cbn [mbind result_bind deref_ptr].
  now rewrite (deref_Some _ _ _ Hcd).
Qed.

(** X21.  Whatever the engine's turn returns is the result of an action
    that [GetPossibleActions] lists, on a state that is not terminal.  On a
    terminal state, or with no iteration ([N <= 0]), the root has no child,
    [bestChild] stays nil and [bestChild.state] panics. *)
Theorem engine_turn_only_plays_listed_actions (Log : float -> float) st (N : Z) :
  (forall st', engine_turn Log st N = Ok st' ->
     IsTerminal st = false
     /\ exists act, act ∈ GetPossibleActions st /\ PerformAction st act = Ok st')
  /\ (IsTerminal st = true \/ (N <= 0)%Z -> engine_turn Log st N = Panic).
Proof.
  split; [intros st'; apply engine_turn_listed|apply engine_turn_nothing_to_choose].
Qed.

(** X22.  The turn of [O] in [main] accepts a pair of integers exactly
    when [GetPossibleActions] lists it: both within [0..2] and the cell
    empty.  It then writes [O] into the cell and passes the turn; when it
    is the turn of [O], as in [main], that is the state [PerformAction]
    returns for the pair.  A failed read, or a pair that is not listed,
    leaves the state as it is. *)
Theorem human_turn_accepts_listed_actions state :
  human_turn state None = None
  /\ (forall row col,
        (row, col) ∉ GetPossibleActions state ->
        human_turn state (Some (row, col)) = None)
  /\ (forall row col,
        (row, col) ∈ GetPossibleActions state ->
        human_turn state (Some (row, col))
        = Some (mkState (set_cell (board state) row col O)
                        (opponent (player state)))
        /\ (player state = O ->
            PerformAction state (row, col)
            = Ok (mkState (set_cell (board state) row col O)
                          (opponent (player state))))).
Proof.
  split; [done|]. split.
  - intros row col Hnot.
    destruct (human_turn state (Some (row, col))) as [state'|] eqn:Hturn; [|done].
    apply human_turn_Some_iff in Hturn as [Hin _]. done.
  - intros row col Hin. split.
    + now apply human_turn_Some_iff.
    + intros Hp.
      apply elem_of_GetPossibleActions_bounds in Hin as (Hr & Hc & _).
      rewrite PerformAction_in_bounds by done. now rewrite Hp.
Qed.

(** X23.  When [main] comes to its end, the game it has played is a game
    by the rules: starting from the empty board with [X] to move, every
    move, the engine's and the opponent's, was an action that
    [GetPossibleActions] listed in a state that was not terminal; there
    were at most nine; the loop ended in a terminal state; and the last two
    texts written are that board and the verdict, which names [X] exactly
    when [X] has a line, [O] exactly when [O] has one, and is a draw
    otherwise; [X] and [O] do not both have a line. *)
Theorem main_plays_by_the_rules (Log : float -> float) (iterations : Z)
    (passes : nat) (stdin : list (option (Z * Z))) (out : list String.string) :
  main_with passes Log iterations stdin = Ok out ->
  exists final l before,
    plays initial l final /\ length l <= 9 /\ IsTerminal final = true
    /\ out = before ++ [PrintBoard final; announce (GetReward final)]
    /\ announce (GetReward final)
       = (if checkWin final X then X_wins
          else if checkWin final O then O_wins else draw)
    /\ (checkWin final X = true -> checkWin final O = false)
    /\ X_wins <> O_wins /\ X_wins <> draw /\ O_wins <> draw.
Proof.
  unfold main_with. intros ([final before] & Hloop & [= <-])%bind_Ok_inv.
  destruct (main_loop_plays Log iterations passes _ _ _ _ Hloop) as (Hterm & l & Hl).
  exists final, l, before. split; [done|].
  destruct (plays_actions _ _ _ Hl (or_introl eq_refl)) as (_ & _ & _ & _ & Hlen & _).
  change (length (GetPossibleActions initial)) with 9 in Hlen.
  split; [lia|]. split; [done|]. split; [done|].
  split; [apply announce_GetReward|].
  destruct (plays_in_play _ _ _ Hl initial_in_play) as [Ht _ _ Hline].
  split; [|done].
  intros HX. destruct Ht as [Hp|Hp]; rewrite Hp in Hline; congruence.
Qed.

(** X24.  The loop of [main] does not end while it is the turn of [O] and
    no acceptable move comes: in a state that is not terminal, with [O] to
    move, if every read that is left fails or gives a pair that is refused
    (as at the end of the input, where every read fails), the loop goes
    round for ever. *)
Theorem main_loop_waits_for_listed_action (Log : float -> float) (iterations : Z)
    state (stdin : list (option (Z * Z))) :
  IsTerminal state = false -> player state = O ->
  (forall input, input ∈ stdin -> human_turn state input = None) ->
  forall passes, main_loop passes Log iterations state stdin = Diverges.
Proof.
  intros Hterm Hp Hall passes. revert stdin Hall.
  induction passes as [|passes IH]; intros stdin Hall; cbn [main_loop]; [done|].
  rewrite Hterm, Hp. cbn [Z.eqb Pos.eqb O].
  destruct stdin as [|input rest]; cbn [Scanf].
  - cbn [human_turn]. rewrite IH; [done|]. intros input Hin.
    now apply elem_of_nil in Hin.
  - rewrite (Hall input) by apply list_elem_of_here.
    rewrite IH; [done|]. intros input' Hin. apply Hall.
    now apply list_elem_of_further.
Qed.

(** X25.  [PrintBoard] writes 22 characters: three lines of three marks,
    each followed by a space, and an empty line.  A cell holding [X] shows
    as [X], one holding [O] as [O], and one holding anything else as a
    dot; so two boards of marks that print alike are the same board. *)
Theorem PrintBoard_shows_the_marks (s1 s2 : TicTacToeState) :
  String.length (PrintBoard s1) = 22
  /\ (forall c, c <> X -> c <> O -> print_cell c = print_cell Empty)
  /\ ((forall i j, in_bounds i = true -> in_bounds j = true ->
         cell (board s1) i j = Empty \/ cell (board s1) i j = X
         \/ cell (board s1) i j = O) ->
      (forall i j, in_bounds i = true -> in_bounds j = true ->
         cell (board s2) i j = Empty \/ cell (board s2) i j = X
         \/ cell (board s2) i j = O) ->
      PrintBoard s1 = PrintBoard s2 -> board s1 = board s2).
Proof.
  split; [|split].
  - unfold PrintBoard, range3. cbn [List.map]. rewrite !print_cell_char. reflexivity.
  - intros c HX%Z.eqb_neq HO%Z.eqb_neq. unfold print_cell. now rewrite HX, HO.
  - destruct s1 as [[[[[a0 a1] a2] [[a3 a4] a5]] [[a6 a7] a8]] p1].
    destruct s2 as [[[[[b0 b1] b2] [[b3 b4] b5]] [[b6 b7] b8]] p2].
    cbn [board]. intros H1 H2.
    unfold PrintBoard, range3. cbn [List.map board]. rewrite !print_cell_char.
    cbn. intros [= E0 E1 E2 E3 E4 E5 E6 E7 E8].
    pose proof (H1 0 0 eq_refl eq_refl)%Z as M0; pose proof (H2 0 0 eq_refl eq_refl)%Z as N0.
    pose proof (H1 0 1 eq_refl eq_refl)%Z as M1; pose proof (H2 0 1 eq_refl eq_refl)%Z as N1.
    pose proof (H1 0 2 eq_refl eq_refl)%Z as M2; pose proof (H2 0 2 eq_refl eq_refl)%Z as N2.
    pose proof (H1 1 0 eq_refl eq_refl)%Z as M3; pose proof (H2 1 0 eq_refl eq_refl)%Z as N3.
    pose proof (H1 1 1 eq_refl eq_refl)%Z as M4; pose proof (H2 1 1 eq_refl eq_refl)%Z as N4.
    pose proof (H1 1 2 eq_refl eq_refl)%Z as M5; pose proof (H2 1 2 eq_refl eq_refl)%Z as N5.
    pose proof (H1 2 0 eq_refl eq_refl)%Z as M6; pose proof (H2 2 0 eq_refl eq_refl)%Z as N6.
    pose proof (H1 2 1 eq_refl eq_refl)%Z as M7; pose proof (H2 2 1 eq_refl eq_refl)%Z as N7.
    pose proof (H1 2 2 eq_refl eq_refl)%Z as M8; pose proof (H2 2 2 eq_refl eq_refl)%Z as N8.
    cbn in M0, M1, M2, M3, M4, M5, M6, M7, M8, N0, N1, N2, N3, N4, N5, N6, N7, N8.
    rewrite (mark_char_inj a0 b0), (mark_char_inj a1 b1), (mark_char_inj a2 b2),
      (mark_char_inj a3 b3), (mark_char_inj a4 b4), (mark_char_inj a5 b5),
      (mark_char_inj a6 b6), (mark_char_inj a7 b7), (mark_char_inj a8 b8); done.
Qed.

End MainProperties.

(** * Further evaluations *)

Section FurtherEvaluations.
Import TicTacToe Rules Console.

Lemma Select_returns_leaf_below_witness :
  is_leaf (family 1) 2 /\ below (family 1) 0 2.
Proof.
  apply (Select_returns_leaf_below mathLog.Log (family 1) 0 2).
  vm_compute. reflexivity.
Defined.

Lemma MCTS_step_evaluates_first_new_child_witness :
  match MCTS_step mathLog.Log sapling 0 with
  | Ok (h2, reward) => reward = 0%float /\ length h2 = 10
  | _ => False
  end.
Proof.
  destruct (MCTS_step mathLog.Log sapling 0) as [[h2 reward]| |] eqn:Hrun.
  - destruct (MCTS_step_evaluates_first_new_child mathLog.Log sapling 0 h2 reward
                (tree_inv_initial initial) Hrun)
      as (node & nd & Hsel & Hnode & _ & Hmatch).
    vm_compute in Hsel. injection Hsel as <-.
    injection Hnode as <-. cbn in Hmatch.
    destruct Hmatch as (st & nd2 & [= <-] & -> & -> & _).
    split; reflexivity.
  - vm_compute in Hrun. discriminate Hrun.
  - vm_compute in Hrun. discriminate Hrun.
Defined.

Lemma MCTS_tree_links_witness :
  match MCTS mathLog.Log near_win 6 with
  | Ok (h, root) =>
      (exists rd, h !! root = Some rd /\ state rd = near_win /\ parent rd = None)
      /\ forall a, a < length h ->
           exists l, ancestors h a l /\ list.last l = Some root
  | _ => False
  end.
Proof.
  destruct (MCTS mathLog.Log near_win 6) as [[h root]| |] eqn:Hrun.
  - destruct (MCTS_tree_links mathLog.Log near_win 6 h root Hrun)
      as (Hroot & _ & _ & _ & Hchain).
    split; [exact Hroot | exact Hchain].
  - vm_compute in Hrun. discriminate Hrun.
  - vm_compute in Hrun. discriminate Hrun.
Defined.

Lemma MCTS_children_are_successors_witness :
  match MCTS mathLog.Log near_win 6 with
  | Ok (h, root) =>
      exists rd, h !! root = Some rd
        /\ length (children rd) = length (GetPossibleActions near_win)
  | _ => False
  end.
Proof.
  destruct (MCTS mathLog.Log near_win 6) as [[h root]| |] eqn:Hrun.
  - assert (Hroot : exists rd, h !! root = Some rd /\ state rd = near_win
                               /\ children rd <> []).
    { pose proof Hrun as Hk. vm_compute in Hk. injection Hk as <- <-.
      eexists. split; [reflexivity|]. split; [reflexivity|discriminate]. }
    destruct Hroot as (rd & Hrd & Hstate & Hkids).
    destruct (MCTS_children_are_successors mathLog.Log near_win 6 h root root rd
                Hrun Hrd Hkids) as (_ & Hlen & _).
    exists rd. split; [exact Hrd|]. rewrite <- Hstate. exact Hlen.
  - vm_compute in Hrun. discriminate Hrun.
  - vm_compute in Hrun. discriminate Hrun.
Defined.

Lemma MCTS_visit_counts_witness :
  match MCTS mathLog.Log near_win 6 with
  | Ok (h, root) =>
      forall a nd, h !! a = Some nd -> (0 <= visits nd <= 6)%Z
  | _ => False
  end.
Proof.
  destruct (MCTS mathLog.Log near_win 6) as [[h root]| |] eqn:Hrun.
  - refine (proj1 (MCTS_visit_counts mathLog.Log near_win 6 h root _ Hrun)).
    unfold GoInt.MaxInt. lia.
  - vm_compute in Hrun. discriminate Hrun.
  - vm_compute in Hrun. discriminate Hrun.
Defined.

Lemma MCTS_tree_grows_witness :
  match MCTS mathLog.Log near_win 6 with
  | Ok (h, root) =>
      exists hk, MCTS mathLog.Log near_win 3 = Ok (hk, root) /\ grown hk h
  | _ => False
  end.
Proof.
  destruct (MCTS mathLog.Log near_win 6) as [[h root]| |] eqn:Hrun.
  - destruct (MCTS_tree_grows mathLog.Log near_win 6 3 h root Hrun)
      as (hk & Hk & Hgrown & _); [lia|].
    exists hk. split; [exact Hk | exact Hgrown].
  - vm_compute in Hrun. discriminate Hrun.
  - vm_compute in Hrun. discriminate Hrun.
Defined.

Lemma MCTS_UCTValue_defined_witness :
  match MCTS mathLog.Log near_win 6 with
  | Ok (h, root) =>
      exists nd p pd,
        h !! 1 = Some nd /\ parent nd = Some p /\ h !! p = Some pd
        /\ (0 <= visits nd <= visits pd)%Z
  | _ => False
  end.
Proof.
  destruct (MCTS mathLog.Log near_win 6) as [[h root]| |] eqn:Hrun.
  - assert (Hnode : root = 0 /\ exists nd, h !! 1 = Some nd).
    { pose proof Hrun as Hk. vm_compute in Hk. injection Hk as <- <-.
      split; [reflexivity|]. eexists. reflexivity. }
    destruct Hnode as (Hroot & nd & Hnd).
    destruct (MCTS_UCTValue_defined mathLog.Log near_win 6 h root 1 nd) as [_ Hdef];
      [unfold GoInt.MaxInt; lia|exact Hrun|exact Hnd|].
    destruct Hdef as (p & pd & Hp & Hpd & _ & Hle & _); [lia|].
    exists nd, p, pd. split; [exact Hnd|]. split; [exact Hp|].
    split; [exact Hpd | exact Hle].
  - vm_compute in Hrun. discriminate Hrun.
  - vm_compute in Hrun. discriminate Hrun.
Defined.

Lemma MCTS_recursions_end_witness : MCTS mathLog.Log near_win 6 <> Diverges.
Proof.
  apply (MCTS_recursions_end (S := TicTacToeState) mathLog.Log).
  intros st [i j]. cbn. unfold TicTacToe.PerformAction.
  now destruct (in_bounds i && in_bounds j).
Defined.

Lemma MCTS_stuck_root_witness :
  MCTS mathLog.Log top_row 3
  = Ok ([mkNode top_row None [] 3%Z
           (foldl PrimFloat.add 0%float (replicate 3 1%float))], 0).
Proof.
  assert (HN : (0 <= 3 <= GoInt.MaxInt)%Z) by (unfold GoInt.MaxInt; lia).
  exact (MCTS_stuck_root mathLog.Log top_row 3 (or_introl eq_refl) HN).
Defined.

Lemma no_action_iff_board_full_witness : GetPossibleActions initial <> [].
Proof.
  apply (proj2 (proj2 (no_action_iff_board_full initial))). reflexivity.
Defined.

Lemma PerformAction_overwrites_taken_cell_witness :
  exists s',
    PerformAction near_win (1, 0)%Z = Ok s'
    /\ cell (board s') 1 0 = X
    /\ GetPossibleActions s' = GetPossibleActions near_win.
Proof.
  destruct (proj2 (PerformAction_overwrites_taken_cell near_win 1 0))
    as (s' & Hrun & Hcell & _ & _ & Hacts); [reflexivity|reflexivity|done|done|].
  exists s'. split; [exact Hrun|]. split; [exact Hcell | exact Hacts].
Defined.

Lemma centre_listed : ((1, 1)%Z : Action) ∈ GetPossibleActions initial.
Proof. apply elem_of_GetPossibleActions_bounds. repeat split. Qed.

Lemma PerformAction_takes_listed_action_witness :
  exists s',
    PerformAction initial (1, 1)%Z = Ok s'
    /\ Datatypes.S (length (GetPossibleActions s')) = 9.
Proof.
  destruct (PerformAction_takes_listed_action initial (1, 1)%Z centre_listed)
    as (s' & Hrun & _ & _ & Hlen); [done|].
  exists s'. split; [exact Hrun | exact Hlen].
Defined.

Lemma PerformAction_keeps_lines_witness :
  exists s',
    PerformAction initial (1, 1)%Z = Ok s' /\ checkWin s' O = false.
Proof.
  destruct (PerformAction_keeps_lines initial (1, 1)%Z centre_listed)
    as (s' & Hrun & Hframe & _).
  exists s'. split; [exact Hrun|]. now rewrite (Hframe O).
Defined.

Lemma plays_two_moves : plays initial [(1, 1); (0, 0)]%Z two_moves.
Proof.
  eapply plays_cons; [reflexivity|exact centre_listed|reflexivity|].
  eapply plays_cons; [reflexivity| |reflexivity|apply plays_nil].
  apply elem_of_GetPossibleActions_bounds. repeat split.
Qed.

Lemma play_alternates_witness :
  count_mark (board two_moves) X + count_mark (board two_moves) O = 2.
Proof.
  exact (proj1 (proj2 (proj2 (play_alternates _ _ plays_two_moves)))).
Defined.

Lemma play_ends_within_nine_moves_witness :
  2 + length (GetPossibleActions two_moves) = 9.
Proof.
  exact (proj1 (proj2 (play_ends_within_nine_moves _ _ plays_two_moves))).
Defined.

Lemma play_has_one_winner_witness : GetReward two_moves = 0%float.
Proof.
  apply (play_has_one_winner _ _ plays_two_moves). reflexivity.
Defined.

Lemma most_visited_first_maximum_witness :
  exists r, most_visited (family 1) [1; 2; 3] (-1) None = Ok r
            /\ r <> None.
Proof.
  destruct (most_visited_first_maximum (family 1) [1; 2; 3])
    as (r & Hr & Hcases).
  { intros c Hc. repeat (apply elem_of_cons in Hc as [->|Hc]; [simpl; lia|]).
    now apply elem_of_nil in Hc. }
  exists r. split; [exact Hr|].
  destruct Hcases as [[_ Hall]|(i & c & _ & -> & _)]; [|done].
  specialize (Hall 1 (list_elem_of_here _ _)). vm_compute in Hall. done.
Defined.

Lemma engine_turn_plays_most_visited_move_witness :
  match MCTS mathLog.Log near_win 6 with
  | Ok (h, root) =>
      exists st' act,
        engine_turn mathLog.Log near_win 6 = Ok st'
        /\ PerformAction near_win act = Ok st'
  | _ => False
  end.
Proof.
  destruct (MCTS mathLog.Log near_win 6) as [[h root]| |] eqn:Hrun.
  - destruct (engine_turn_plays_most_visited_move mathLog.Log near_win 6 h root Hrun)
      as (rd & i & c & cd & act & _ & _ & _ & Hturn & _ & Hperf & _);
      [unfold GoInt.MaxInt; lia|reflexivity|].
    exists (state cd), act. split; [exact Hturn | exact Hperf].
  - vm_compute in Hrun. discriminate Hrun.
  - vm_compute in Hrun. discriminate Hrun.
Defined.

Lemma engine_turn_only_plays_listed_actions_witness :
  engine_turn mathLog.Log top_row 5 = Panic
  /\ engine_turn mathLog.Log initial 0 = Panic.
Proof.
  split.
  - apply (engine_turn_only_plays_listed_actions mathLog.Log top_row 5). now left.
  - apply (engine_turn_only_plays_listed_actions mathLog.Log initial 0). right. lia.
Defined.

Lemma human_turn_accepts_listed_actions_witness :
  human_turn centre_taken (Some (1, 1)%Z) = None
  /\ PerformAction centre_taken (0, 0)%Z
     = Ok (mkState (set_cell (board centre_taken) 0 0 O) X).
Proof.
  destruct (human_turn_accepts_listed_actions centre_taken) as (_ & Hno & Hyes).
  split.
  - apply Hno. rewrite elem_of_GetPossibleActions_bounds. intros (_ & _ & He). done.
  - apply (Hyes 0 0)%Z; [|reflexivity].
    apply elem_of_GetPossibleActions_bounds. repeat split.
Defined.

Lemma main_plays_by_the_rules_witness :
  match main_with 8 mathLog.Log 1 [None; Some (0, 0); Some (1, 1); Some (2, 2)]%Z with
  | Ok out =>
      exists final l,
        plays initial l final /\ IsTerminal final = true
        /\ list.last out = Some (announce (GetReward final))
  | _ => False
  end.
Proof.
  destruct (main_with 8 mathLog.Log 1 [None; Some (0, 0); Some (1, 1); Some (2, 2)]%Z)
    as [out| |] eqn:Hrun.
  - destruct (main_plays_by_the_rules mathLog.Log 1 8 _ out Hrun)
      as (final & l & before & Hl & _ & Hterm & -> & _).
    exists final, l. split; [exact Hl|]. split; [exact Hterm|].
    rewrite last_app. reflexivity.
  - vm_compute in Hrun. discriminate Hrun.
  - vm_compute in Hrun. discriminate Hrun.
Defined.

Lemma main_loop_waits_for_listed_action_witness :
  main_loop 50 mathLog.Log 1000 centre_taken [None; Some (1, 1); Some (3, 0)]%Z
  = Diverges.
Proof.
  apply (main_loop_waits_for_listed_action mathLog.Log 1000 centre_taken);
    [reflexivity|reflexivity|].
  intros input Hin.
  repeat (apply elem_of_cons in Hin as [->|Hin]; [reflexivity|]).
  now apply elem_of_nil in Hin.
Defined.

End FurtherEvaluations.
